(** * Multi-camera face tracker: alert dispatch, matching, capture supervision

    A shallow embedding of the core of the tracker
    ([core/telegram_manager.py], [core/alert_system.py],
    [core/face_detection.py], [core/camera_manager.py], [core/database.py],
    and the driver loop of [ui/main_window.py]) together with the properties
    its specification states about it.

    Conventions.
    - Wall-clock readings ([time.time()]) are rationals ([Q]); the
      arithmetic on them is exact.
    - Embeddings and similarities are numpy [float32] numbers: IEEE
      binary32 with its rounding, its infinities and its [NaN], as the
      standard library specifies them ([SpecFloat], precision 24, largest
      exponent 128). The confidence an alert carries, which the
      dispatcher and the log only store, is a real ([R]).
    - Whatever the program obtains from its surroundings (the result of a
      network call, of a file write, of the detector) is an explicit input
      of the function that asks for it. *)

From Stdlib Require Import Ascii QArith Qround Lqa Reals Lra SpecFloat.
From stdpp Require Import gmap strings list pretty.

Local Open Scope Z_scope.

(** ** Clock arithmetic *)

(** [a < b] on clock readings, as a boolean. *)
Definition Qltb (a b : Q) : bool := negb (Qle_bool b a).

(** Python's [int] on a float: the fraction is dropped, towards zero. *)
Definition py_int (t : Q) : Z :=
  if Qle_bool 0 t then Qfloor t else Qceiling t.

(** A frame is the array of its pixels; nothing below looks inside. *)
Definition Frame : Type := list N.

(** ** [core/telegram_manager.py] *)

Module Telegram.

(** What [self.loop.run_until_complete(self._initialize_bot())] does.
    [self.bot] is assigned before [get_me()] is awaited, so an exception of
    [get_me()] that is not a [TelegramError] leaves the bot assigned. *)
Inductive init_outcome :=
| InitOk             (* [Bot(...)] built, [get_me()] answered *)
| InitTelegramError  (* caught inside [_initialize_bot]: [self.bot = None] *)
| InitBotRaises      (* [Bot(...)] raised another exception: no bot assigned *)
| InitGetMeRaises.   (* [get_me()] raised another exception: the bot stays *)

(** What the body of the [try] inside [_send] does once it is entered
    with a bot: the photo is opened when there is one and the message is
    handed to the transport. *)
Inductive send_outcome :=
| SendOk             (* the transport accepted the message *)
| SendTelegramError  (* the transport raised [TelegramError] *)
| SendRaises.        (* another exception was raised *)

Inductive delivery := Photo | Text.

(** What a call leaves in the application log and on the wire. *)
Inductive event :=
| EvConnectFailed                 (* "Telegram connection failed" *)
| EvRateLimited                   (* "Telegram rate limit reached" *)
| EvDelivery (d : delivery) (message : string)
                                  (* [send_photo] / [send_message] called *)
| EvSent                          (* "Telegram alert sent successfully" *)
| EvSendFailed                    (* "Failed to send Telegram alert" *)
| EvAlertFailed                   (* "Telegram alert failed" *)
| EvBackupFailed.                 (* "Failed to backup alert image" *)

Record TelegramManager := {
  bot : bool;           (* [self.bot] is a [Bot], not [None] *)
  last_sent : Q;
  min_interval : Z;     (* [rate_limit], seconds *)
}.

(** [TelegramManager.__init__] *)
Definition init (rate_limit : Z) : TelegramManager :=
  {| bot := false; last_sent := 0%Q; min_interval := rate_limit |}.

(** The part of the file system the manager touches: the image files,
    each path with the frame it was written from, and what has been
    written to [failed_alerts.log], one string for each [write]. *)
Record Disk := {
  files : gmap string Frame;
  failed_alerts_log : list string;
}.

(** The surroundings of one [send_alert] call. *)
Record Env := {
  init_result : init_outcome;   (* consulted only when [self.bot] is unset *)
  clock : Q;                    (* [time.time()] read in [_send] *)
  transport : send_outcome;
  ctime : string;               (* [time.ctime()] in the fallback *)
  backup_clock : Q;             (* [time.time()] naming the backup image *)
  log_open_ok : bool;           (* [open("failed_alerts.log", "a")] *)
  mkdir_ok : bool;              (* [backup_dir.mkdir(exist_ok=True)] *)
  rename_ok : bool;             (* the system lets [rename] through *)
}.

Definition set_bot (b : bool) (tm : TelegramManager) : TelegramManager :=
  {| bot := b; last_sent := last_sent tm; min_interval := min_interval tm |}.

Definition set_last_sent (t : Q) (tm : TelegramManager) : TelegramManager :=
  {| bot := bot tm; last_sent := t; min_interval := min_interval tm |}.

(** [_initialize_bot] *)
Definition _initialize_bot (e : Env) (tm : TelegramManager)
  : TelegramManager * bool (* an exception escaped *) :=
  match init_result e with
  | InitOk => (set_bot true tm, false)
  | InitTelegramError => (set_bot false tm, false)
  | InitBotRaises => (tm, true)
  | InitGetMeRaises => (set_bot true tm, true)
  end.

(** [image_path and image_path.exists()] *)
Definition delivery_kind (d : Disk) (image_path : option string) : delivery :=
  match image_path with
  | Some p => if decide (is_Some (files d !! p)) then Photo else Text
  | None => Text
  end.

(** The inner coroutine [_send]. The boolean tells whether an exception
    left it. With [self.bot = None] the attribute access
    [self.bot.send_message] raises [AttributeError], which is not a
    [TelegramError]. *)
Definition _send (e : Env) (d : Disk) (message : string)
    (image_path : option string) (tm : TelegramManager)
  : TelegramManager * list event * bool :=
  let now := clock e in
  if Qltb (now - last_sent tm) (inject_Z (min_interval tm)) then
    (tm, [EvRateLimited], false)
  else if bot tm then
    let call := EvDelivery (delivery_kind d image_path) message in
    match transport e with
    | SendOk => (set_last_sent now tm, [call; EvSent], false)
    | SendTelegramError => (tm, [call; EvSendFailed], false)
    | SendRaises => (tm, [call], true)
    end
  else (tm, [], true).

Definition backup_path (t : Q) : string :=
  "failed_alert_images/alert_" +:+ pretty (py_int t) +:+ ".jpg".

Definition newline : string := String (ascii_of_nat 10) EmptyString.

(** What the fallback writes to [failed_alerts.log] in its one [write]:
    the time, the message, which has a line for each line of the alert, and
    a newline. *)
Definition log_record (e : Env) (message : string) : string :=
  ctime e +:+ ": " +:+ message +:+ newline.

(** [image_path.rename(new_path)]: the file goes to the new path and
    replaces the file that is there under that name, if any. *)
Definition rename (p new_path : string) (frame : Frame) (fs : gmap string Frame)
  : gmap string Frame :=
  <[new_path := frame]> (delete p fs).

(** The [except Exception] branch of [send_alert]: the local fallback.
    The [rename] raises when the image is not there or the system refuses
    (on Windows it does when the new name is taken); that is caught and
    logged. *)
Definition fallback (e : Env) (d : Disk) (message : string)
    (image_path : option string) : Disk * list event * bool :=
  if negb (log_open_ok e) then (d, [EvAlertFailed], true)
  else
    let d1 := {| files := files d;
                 failed_alerts_log :=
                   failed_alerts_log d ++ [log_record e message] |} in
    match image_path with
    | None => (d1, [EvAlertFailed], false)
    | Some p =>
        if negb (mkdir_ok e) then (d1, [EvAlertFailed], true)
        else
          match files d1 !! p with
          | Some frame =>
              if rename_ok e then
                ({| files := rename p (backup_path (backup_clock e)) frame (files d1);
                    failed_alerts_log := failed_alerts_log d1 |},
                 [EvAlertFailed], false)
              else (d1, [EvAlertFailed; EvBackupFailed], false)
          | None => (d1, [EvAlertFailed; EvBackupFailed], false)
          end
    end.

Record Result := {
  manager : TelegramManager;
  disk : Disk;
  trace : list event;
  raised : bool;      (* an exception left [send_alert] *)
}.

(** [TelegramManager.send_alert] *)
Definition send_alert (e : Env) (d : Disk) (message : string)
    (image_path : option string) (tm : TelegramManager) : Result :=
  let '(tm1, init_failed) :=
    if bot tm then (tm, false) else _initialize_bot e tm in
  if init_failed then
    {| manager := tm1; disk := d; trace := [EvConnectFailed]; raised := false |}
  else
    let '(tm2, evs, exn) := _send e d message image_path tm1 in
    if exn then
      let '(d', evs', exn') := fallback e d message image_path in
      {| manager := tm2; disk := d'; trace := evs ++ evs'; raised := exn' |}
    else
      {| manager := tm2; disk := d; trace := evs; raised := false |}.

(** A delivery attempt is a call of [send_photo] or [send_message]. *)
Definition is_delivery (ev : event) : bool :=
  match ev with EvDelivery _ _ => true | _ => false end.

Definition deliveries (evs : list event) : nat :=
  length (filter (fun ev => is_delivery ev = true) evs).

(** The bot is there when [_send] runs. *)
Definition connected (e : Env) (tm : TelegramManager) : bool :=
  bot tm || match init_result e with InitOk => true | _ => false end.

(** The window of the rate limit is open: [now - last_sent >= min_interval]. *)
Definition window_open (now : Q) (tm : TelegramManager) : Prop :=
  (inject_Z (min_interval tm) <= now - last_sent tm)%Q.

(** *** Calls in a row *)

(** The arguments and surroundings of one call of [send_alert]. *)
Record Request := {
  req_env : Env;
  req_message : string;
  req_image : option string;
}.

(** The calls of [send_alert] one after the other, each on the manager
    and the disk the one before left. *)
Fixpoint send_alerts (reqs : list Request) (d : Disk) (tm : TelegramManager)
  : list Result :=
  match reqs with
  | [] => []
  | q :: rest =>
      let r := send_alert (req_env q) d (req_message q) (req_image q) tm in
      r :: send_alerts rest (disk r) (manager r)
  end.

(** The transport accepted the message of this call. *)
Definition accepted (r : Result) : bool :=
  existsb (fun ev => match ev with EvSent => true | _ => false end) (trace r).

(** The clock readings of the calls whose message was accepted. *)
Fixpoint sent_clocks (reqs : list Request) (rs : list Result) : list Q :=
  match reqs, rs with
  | q :: reqs', r :: rs' =>
      if accepted r then clock (req_env q) :: sent_clocks reqs' rs'
      else sent_clocks reqs' rs'
  | _, _ => []
  end.

(** Every reading of [ts] is at least [interval] after the one before it,
    the first after [last]. *)
Fixpoint spaced (interval : Z) (last : Q) (ts : list Q) : Prop :=
  match ts with
  | [] => True
  | t :: ts' => (inject_Z interval <= t - last)%Q /\ spaced interval t ts'
  end.

(** The exception that reaches the handler of [send_alert]: the window is
    open and either there is no bot to call or the call raised something
    that is not a [TelegramError]. *)
Definition escapes (e : Env) (tm : TelegramManager) : Prop :=
  window_open (clock e) tm /\
  ((bot tm = true /\ transport e = SendRaises) \/
   (bot tm = false /\ init_result e = InitTelegramError) \/
   (bot tm = false /\ init_result e = InitOk /\ transport e = SendRaises)).

End Telegram.

(** ** [core/face_detection.py] *)

Module FaceDetection.

(** *** numpy [float32] *)

(** A [float32] is an IEEE binary32 number: a zero or an infinity with
    its sign, [NaN], or a finite number [(-1)^s * m * 2^e]. The arithmetic
    is that of the standard, every operation rounded to the nearest number,
    ties to even. numpy raises nothing on an overflow or on a division by
    zero: it warns and goes on with the infinity or with [NaN]. *)
Abbreviation float32 := spec_float (only parsing).

Definition prec : Z := 24.
Definition emax : Z := 128.

Definition f32_add : float32 -> float32 -> float32 := SFadd prec emax.
Definition f32_mul : float32 -> float32 -> float32 := SFmul prec emax.
Definition f32_div : float32 -> float32 -> float32 := SFdiv prec emax.
Definition f32_sqrt : float32 -> float32 := SFsqrt prec emax.

(** [np.float32(z)] for an integer [z]. *)
Definition float32_of_Z (z : Z) : float32 := binary_normalize prec emax z 0 false.

(** [0.0] *)
Definition zero32 : float32 := S754_zero false.

Definition is_nan (a : float32) : bool :=
  match a with S754_nan => true | _ => false end.

Definition is_zero (a : float32) : bool :=
  match a with S754_zero _ => true | _ => false end.

(** A zero or [NaN]: what the product of a zero and a float is. *)
Definition zero_or_nan (a : float32) : bool := (is_zero a || is_nan a)%bool.

(** The number a finite float stands for. *)
Definition float_value (s : bool) (m : positive) (e : Z) : Q :=
  ((if s then -1 else 1) * inject_Z (Z.pos m) * 2 ^ e)%Q.

(** [a > t] for the Python float [t] that holds the threshold; false when
    [a] is [NaN]. [t] is the number the comparison takes for the threshold:
    the Python float itself where the comparison is made in double
    precision, which holds every [float32], and its rounding to [float32]
    where numpy converts the Python float first. *)
Definition np_gt (a : float32) (t : Q) : bool :=
  match a with
  | S754_nan => false
  | S754_infinity s => negb s
  | S754_zero _ => Qltb t 0
  | S754_finite s m e => Qltb t (float_value s m e)
  end.

Record Face := {
  det_score : R;
  embedding : option (list float32);   (* [None], or the vector *)
  age : option Z;
  gender : option string;              (* 'Male' or 'Female' *)
}.

Record KnownFace := {
  name : string;
  kf_embedding : option (list float32);
  image_path : string;
}.

(** [np.dot] on two vectors of one length: the sum of the products, each
    product and each sum rounded. The order of the additions is that of the
    kernel numpy hands the vectors to; here they are made from left to
    right, starting from [0.0]. *)
Fixpoint dot_from (acc : float32) (a b : list float32) : float32 :=
  match a, b with
  | x :: a', y :: b' => dot_from (f32_add acc (f32_mul x y)) a' b'
  | _, _ => acc
  end.

Definition dot (a b : list float32) : float32 := dot_from zero32 a b.

(** [np.linalg.norm]: the square root of the sum of the squares. *)
Definition norm (a : list float32) : float32 := f32_sqrt (dot a a).

(** The scan of [np.argmax]: [mp] is the best value so far, at index
    [max_ind]; a later element replaces it unless it is [<= mp], and the
    scan stops at the first [NaN]. *)
Fixpoint argmax_from (mp : float32) (max_ind i : nat) (l : list float32) : nat :=
  match l with
  | [] => max_ind
  | x :: l' =>
      if is_nan mp then max_ind
      else if SFleb x mp then argmax_from mp max_ind (S i) l'
      else argmax_from x i (S i) l'
  end.

(** [np.argmax]; it raises on an empty array. *)
Definition argmax (l : list float32) : option nat :=
  match l with
  | [] => None
  | x :: l' => Some (argmax_from x 0 1 l')
  end.

(** The cosine similarity of one gallery row with the detected vector:
    the entry of [np.dot(known_embeddings, e) /
    (np.linalg.norm(known_embeddings, axis=1) * np.linalg.norm(e))] for the
    row. *)
Definition cosine (k e : list float32) : float32 :=
  f32_div (dot k e) (f32_mul (norm k) (norm e)).

(** The rows of [np.array([kf.embedding for kf in known_faces])] when
    every one is a vector of length [d]. *)
Fixpoint matrix (d : nat) (known_faces : list KnownFace)
  : option (list (list float32)) :=
  match known_faces with
  | [] => Some []
  | k :: ks =>
      match kf_embedding k with
      | Some row =>
          if Nat.eqb (length row) d
          then option_map (cons row) (matrix d ks) else None
      | None => None
      end
  end.

(** [known_embeddings]: the matrix and the length of its rows. What is
    not a matrix of numbers (rows of different lengths, a row that is
    [None]) makes the arithmetic that follows raise: [None]. *)
Definition known_embeddings (known_faces : list KnownFace)
  : option (nat * list (list float32)) :=
  match known_faces with
  | [] => Some (0%nat, [])
  | k :: _ =>
      match kf_embedding k with
      | Some row => option_map (pair (length row)) (matrix (length row) known_faces)
      | None => None
      end
  end.

Definition similarities (rows : list (list float32)) (e : list float32)
  : list float32 :=
  map (fun k => cosine k e) rows.

Definition Recognition : Type := Face * option KnownFace * float32.

Definition unmatched (face : Face) : Recognition := (face, None, zero32).

(** One turn of the loop of [recognize_faces]; [None] when it raises
    (the shapes of [np.dot] do not agree). *)
Definition recognize_one (threshold : Q) (known_faces : list KnownFace)
    (d : nat) (rows : list (list float32)) (face : Face) : option Recognition :=
  match embedding face with
  | None => Some (unmatched face)
  | Some e =>
      if Nat.eqb (length e) 0 then Some (unmatched face)
      else if negb (Nat.eqb (length e) d) then None
      else
        let sims := similarities rows e in
        match argmax sims with
        | None => None
        | Some max_idx =>
            match sims !! max_idx, known_faces !! max_idx with
            | Some max_similarity, Some kf =>
                if np_gt max_similarity threshold
                then Some (face, Some kf, max_similarity)
                else Some (face, None, max_similarity)
            | _, _ => None
            end
        end
  end.

(** The body of the [try]: the loop over the faces, given up as a whole
    at the first exception. *)
Fixpoint recognize_loop (threshold : Q) (known_faces : list KnownFace)
    (d : nat) (rows : list (list float32)) (faces : list Face)
  : option (list Recognition) :=
  match faces with
  | [] => Some []
  | face :: rest =>
      match recognize_one threshold known_faces d rows face with
      | None => None
      | Some r =>
          match recognize_loop threshold known_faces d rows rest with
          | None => None
          | Some rs => Some (r :: rs)
          end
      end
  end.

(** [FaceDetector.recognize_faces] *)
Definition recognize_faces (threshold : Q) (known_faces : list KnownFace)
    (faces : list Face) : list Recognition :=
  match known_faces with
  | [] => map unmatched faces
  | _ =>
      match known_embeddings known_faces with
      | None => map unmatched faces
      | Some (d, rows) =>
          match recognize_loop threshold known_faces d rows faces with
          | None => map unmatched faces
          | Some results => results
          end
      end
  end.

(** *** The gallery on disk *)

(** What reading one file and running the detector on it gives. *)
Inductive file_result :=
| Unreadable                       (* [cv2.imread] returned [None] *)
| Detected (faces : list Face)     (* what [model.get] found *)
| Failing.                         (* an exception, caught per file *)

(** A file of the known-faces directory: its name is [stem ++ suffix]. *)
Record DirEntry := {
  stem : string;
  suffix : string;
  content : file_result;
}.

Definition file_name (f : DirEntry) : string := stem f +:+ suffix f.

Definition lower_ascii (c : ascii) : ascii :=
  let n := nat_of_ascii c in
  if (Nat.leb 65 n && Nat.leb n 90)%bool then ascii_of_nat (n + 32) else c.

Fixpoint lower (s : string) : string :=
  match s with
  | EmptyString => EmptyString
  | String c s' => String (lower_ascii c) (lower s')
  end.

(** [face_file.suffix.lower() in ['.jpg', '.jpeg', '.png']] *)
Definition is_image_suffix (s : string) : bool :=
  bool_decide (lower s ∈ [".jpg"; ".jpeg"; ".png"]).

(** One turn of the loop of [load_known_faces]. *)
Definition load_entry (dir : string) (f : DirEntry) : list KnownFace :=
  if negb (is_image_suffix (suffix f)) then []
  else
    match content f with
    | Unreadable | Failing => []
    | Detected [] => []
    | Detected (face :: _) =>
        [ {| name := stem f; kf_embedding := embedding face;
             image_path := dir +:+ "/" +:+ file_name f |} ]
    end.

(** [FaceDetector.load_known_faces]: the gallery is emptied, then
    rebuilt from the files of the directory ([None] when the directory
    does not exist). *)
Definition load_known_faces (dir : string) (listing : option (list DirEntry))
    (known_faces : list KnownFace) : list KnownFace :=
  match listing with
  | None => []
  | Some files => concat (map (load_entry dir) files)
  end.

(** [cv2.imwrite] creates the file or replaces the one of that name. *)
Definition write_file (f : DirEntry) (files : list DirEntry) : list DirEntry :=
  filter (fun g => file_name g ≠ file_name f) files ++ [f].

(** [FaceDetector.add_known_face]. [faces] is what [detect_faces] finds
    in the image, [now] the clock, [mkdir_ok] and [imwrite_ok] whether
    the directory could be made and the image written; the result is
    the gallery, the directory and the boolean the method returns. The
    file written is a JPEG of the image, not the image: [reread] is what
    reading that file and running the detector on it gives. *)
Definition add_known_face (mkdir_ok imwrite_ok : bool) (faces : list Face)
    (reread : file_result) (now : Q) (new_name : string) (save_dir : string)
    (known_faces : list KnownFace) (files : list DirEntry)
  : list KnownFace * list DirEntry * bool :=
  if negb mkdir_ok then (known_faces, files, false)
  else
    match faces with
    | [] => (known_faces, files, false)
    | face :: _ =>
        let entry := {| stem := new_name +:+ "_" +:+ pretty (py_int now);
                        suffix := ".jpg";
                        content := reread |} in
        (known_faces ++
           [ {| name := new_name; kf_embedding := embedding face;
                image_path := save_dir +:+ "/" +:+ file_name entry |} ],
         (if imwrite_ok then write_file entry files else files),
         true)
    end.

(** The guard of [FaceManagerDialog.add_face] in [ui/face_manager.py]:
    [list(Path(dir).glob(f"{name}.*"))], the files whose name starts with
    the name and a dot. *)
Definition existing_files (new_name : string) (files : list DirEntry) : list DirEntry :=
  filter (fun f => String.prefix (new_name +:+ ".") (file_name f) = true) files.

(** [FaceManagerDialog.add_face], for a name and an image that are
    there: nothing is added when a file of that name exists. *)
Definition add_face (mkdir_ok imwrite_ok : bool) (faces : list Face)
    (reread : file_result) (now : Q) (new_name : string) (save_dir : string)
    (known_faces : list KnownFace) (files : list DirEntry)
  : list KnownFace * list DirEntry * bool :=
  match existing_files new_name files with
  | _ :: _ => (known_faces, files, false)
  | [] => add_known_face mkdir_ok imwrite_ok faces reread now new_name save_dir
            known_faces files
  end.

Definition names (known_faces : list KnownFace) : list string :=
  map name known_faces.

(** *** The crop of a detected face *)

(** [_extract_face_image] on an image of [h] rows and [w] columns: the
    box is cut to the image, and the rows [y1, y2) and columns [x1, x2) of
    the crop are returned, [None] standing for the empty array. *)
Definition _extract_face_image (h w : Z) (bbox : Q * Q * Q * Q)
  : option (Z * Z * Z * Z) :=
  let '(bx1, by1, bx2, by2) := bbox in
  let x1 := Z.max 0 (py_int bx1) in
  let y1 := Z.max 0 (py_int by1) in
  let x2 := Z.min w (py_int bx2) in
  let y2 := Z.min h (py_int by2) in
  if (Z.leb x2 x1 || Z.leb y2 y1)%bool then None
  else Some (y1, y2, x1, x2).

(** The pixel at row [r] and column [c] is a pixel of the image and lies
    in the box, whose corners [int] has cut to whole numbers. *)
Definition in_box (h w : Z) (bbox : Q * Q * Q * Q) (r c : Z) : Prop :=
  let '(bx1, by1, bx2, by2) := bbox in
  (0 <= r < h /\ 0 <= c < w) /\
  (py_int by1 <= r < py_int by2 /\ py_int bx1 <= c < py_int bx2).

(** What is expected of the result for a detection, given the matrix of
    the gallery: it is about that detection, and a gallery entry is named
    only when it is in the gallery and the similarity returned, which is
    the one computed for that entry, exceeds the threshold. *)
Definition result_ok (threshold : Q) (known_faces : list KnownFace)
    (face : Face) (r : Recognition) : Prop :=
  fst (fst r) = face /\
  (forall kf, snd (fst r) = Some kf ->
     kf ∈ known_faces /\ np_gt (snd r) threshold = true /\
     exists e row, embedding face = Some e /\ kf_embedding kf = Some row /\
                   snd r = cosine row e).

End FaceDetection.

(** ** [core/alert_system.py] *)

Module AlertSystem.
Import FaceDetection.

Record AlertEvent := {
  camera_id : Z;
  camera_name : string;
  face_name : string;
  confidence : R;
  timestamp : Q;
  ev_age : option Z;
  ev_gender : option string;
  screenshot_path : option string;
}.

Record AlertSystem := {
  alert_sound : string;
  screenshot_dir : string;
  alert_history : list AlertEvent;
  alert_enabled : bool;
  screenshot_enabled : bool;
  telegram : option Telegram.TelegramManager;
}.

(** What [cv2.imwrite] does in [_capture_screenshot]. *)
Inductive shot_outcome :=
| ShotSaved     (* the file was written *)
| ShotRefused   (* [imwrite] returned [False] *)
| ShotRaises.   (* an exception, caught *)

(** What [_play_alert_sound] meets. *)
Inductive sound_outcome :=
| SoundMissing  (* the sound file does not exist *)
| SoundPlayed
| SoundRaises.  (* an exception, caught and logged *)

(** The surroundings of one [trigger_alert] call. *)
Record Env := {
  now : Q;                 (* [time.time()] at the top of the call *)
  stamp : string;          (* [strftime("%Y%m%d_%H%M%S", localtime(now))] *)
  shot : shot_outcome;
  sound : sound_outcome;
  confidence_pct : string; (* the confidence formatted with [.2%] *)
  time_str : string;       (* [strftime('%Y-%m-%d %H:%M:%S')] *)
  tg : Telegram.Env;
}.

Inductive event :=
| EvScreenshotSaved (p : string)
| EvScreenshotFailed
| EvSound (o : sound_outcome)
| EvTelegram (ev : Telegram.event)
| EvTriggered.               (* "Alert triggered: ..." *)

(** Truth value of an optional integer or string in a condition. *)
Definition truthy_int (o : option Z) : bool :=
  match o with Some z => negb (Z.eqb z 0) | None => false end.

Definition truthy_str (o : option string) : bool :=
  match o with Some EmptyString | None => false | Some _ => true end.

(** The file [_capture_screenshot] writes to. *)
Definition screenshot_file (s : AlertSystem) (e : Env) (cam : Z) (who : string) : string :=
  screenshot_dir s +:+ "/" +:+ stamp e +:+ "_cam" +:+ pretty cam +:+ "_" +:+ who +:+ ".jpg".

(** [_capture_screenshot]: the path, or [None] when nothing was saved.
    [cv2.imwrite] creates the file or replaces the one of that name. *)
Definition _capture_screenshot (s : AlertSystem) (e : Env) (d : Telegram.Disk)
    (frame : Frame) (cam : Z) (who : string)
  : option string * Telegram.Disk * list event :=
  match shot e with
  | ShotSaved =>
      let p := screenshot_file s e cam who in
      (Some p,
       {| Telegram.files := <[p := frame]> (Telegram.files d);
          Telegram.failed_alerts_log := Telegram.failed_alerts_log d |},
       [EvScreenshotSaved p])
  | ShotRefused | ShotRaises => (None, d, [EvScreenshotFailed])
  end.

Definition newline : string := Telegram.newline.

Definition join_lines (lines : list string) : string :=
  match lines with
  | [] => EmptyString
  | l :: ls => fold_left (fun acc x => acc +:+ newline +:+ x) ls l
  end.

(** The text sent to the notification channel. *)
Definition message (e : Env) (cam_name who : string) (face : Face) : string :=
  join_lines
    (["🚨 Face detected!"; "👤 Name: " +:+ who]
     ++ (if truthy_int (age face)
         then ["👶 Age: ~" +:+ pretty (default 0 (age face)) +:+ " years"] else [])
     ++ (if truthy_str (gender face)
         then ["🚻 Gender: " +:+ default EmptyString (gender face)] else [])
     ++ ["📷 Camera: " +:+ cam_name;
         "🎯 Confidence: " +:+ confidence_pct e;
         "⏰ Time: " +:+ time_str e]).

Record Result := {
  system : AlertSystem;
  disk : Telegram.Disk;
  trace : list event;
  returned : option AlertEvent;   (* [None]: an exception left the call *)
}.

Definition set_history (h : list AlertEvent) (s : AlertSystem) : AlertSystem :=
  {| alert_sound := alert_sound s; screenshot_dir := screenshot_dir s;
     alert_history := h; alert_enabled := alert_enabled s;
     screenshot_enabled := screenshot_enabled s; telegram := telegram s |}.

Definition set_telegram (t : option Telegram.TelegramManager) (s : AlertSystem)
  : AlertSystem :=
  {| alert_sound := alert_sound s; screenshot_dir := screenshot_dir s;
     alert_history := alert_history s; alert_enabled := alert_enabled s;
     screenshot_enabled := screenshot_enabled s; telegram := t |}.

(** The screenshot step of a call: the path for the event, the disk
    after it and what was logged. *)
Definition shot_step (e : Env) (d : Telegram.Disk) (frame : Frame) (cam : Z)
    (who : string) (s : AlertSystem) : option string * Telegram.Disk * list event :=
  if screenshot_enabled s then _capture_screenshot s e d frame cam who
  else (None, d, []).

(** [AlertSystem.trigger_alert] *)
Definition trigger_alert (e : Env) (d : Telegram.Disk)
    (cam : Z) (cam_name who : string) (face : Face) (conf : R) (frame : Frame)
    (s : AlertSystem) : Result :=
  let '(shot_path, d1, evs1) := shot_step e d frame cam who s in
  let ev := {| camera_id := cam; camera_name := cam_name; face_name := who;
               confidence := conf; timestamp := now e;
               ev_age := age face; ev_gender := gender face;
               screenshot_path := shot_path |} in
  let s1 := set_history (alert_history s ++ [ev]) s in
  let evs2 := if alert_enabled s then [EvSound (sound e)] else [] in
  match telegram s with
  | None =>
      {| system := s1; disk := d1; trace := evs1 ++ evs2 ++ [EvTriggered];
         returned := Some ev |}
  | Some tm =>
      let r := Telegram.send_alert (tg e) d1 (message e cam_name who face)
                 shot_path tm in
      let s2 := set_telegram (Some (Telegram.manager r)) s1 in
      if Telegram.raised r then
        {| system := s2; disk := Telegram.disk r;
           trace := evs1 ++ evs2 ++ map EvTelegram (Telegram.trace r);
           returned := None |}
      else
        {| system := s2; disk := Telegram.disk r;
           trace := evs1 ++ evs2 ++ map EvTelegram (Telegram.trace r)
                    ++ [EvTriggered];
           returned := Some ev |}
  end.

(** [enable_alerts], [enable_screenshots] *)
Definition enable_alerts (enabled : bool) (s : AlertSystem) : AlertSystem :=
  {| alert_sound := alert_sound s; screenshot_dir := screenshot_dir s;
     alert_history := alert_history s; alert_enabled := enabled;
     screenshot_enabled := screenshot_enabled s; telegram := telegram s |}.

Definition enable_screenshots (enabled : bool) (s : AlertSystem) : AlertSystem :=
  {| alert_sound := alert_sound s; screenshot_dir := screenshot_dir s;
     alert_history := alert_history s; alert_enabled := alert_enabled s;
     screenshot_enabled := enabled; telegram := telegram s |}.

(** The arguments and surroundings of one call of [trigger_alert]. *)
Record Call := {
  call_env : Env;
  call_cam : Z;
  call_cam_name : string;
  call_who : string;
  call_face : Face;
  call_conf : R;
  call_frame : Frame;
}.

Definition trigger (c : Call) (d : Telegram.Disk) (s : AlertSystem) : Result :=
  trigger_alert (call_env c) d (call_cam c) (call_cam_name c) (call_who c)
    (call_face c) (call_conf c) (call_frame c) s.

(** The calls of [trigger_alert] one after the other, as the driver
    makes them; the traces are put end to end. *)
Fixpoint trigger_alerts (calls : list Call) (d : Telegram.Disk) (s : AlertSystem)
  : AlertSystem * Telegram.Disk * list event :=
  match calls with
  | [] => (s, d, [])
  | c :: rest =>
      let r := trigger c d s in
      let '(s', d', evs) := trigger_alerts rest (disk r) (system r) in
      (s', d', trace r ++ evs)
  end.

(** The delivery attempts a call made. *)
Definition is_delivery (ev : event) : bool :=
  match ev with EvTelegram ev' => Telegram.is_delivery ev' | _ => false end.

Definition deliveries (evs : list event) : nat :=
  length (filter (fun ev => is_delivery ev = true) evs).

(** *** The recent alerts *)

(** [sorted(..., key=lambda x: x.timestamp, reverse=True)]: the sort is
    stable, so an event goes in front of the first one that is not later
    than it, and events of one timestamp keep the order of the history. *)
Fixpoint insert_recent (x : AlertEvent) (l : list AlertEvent) : list AlertEvent :=
  match l with
  | [] => [x]
  | y :: l' =>
      if Qltb (timestamp x) (timestamp y) then y :: insert_recent x l'
      else x :: l
  end.

Fixpoint sorted_recent (l : list AlertEvent) : list AlertEvent :=
  match l with
  | [] => []
  | x :: l' => insert_recent x (sorted_recent l')
  end.

(** The slice [l[:limit]]: a negative limit counts from the end. *)
Definition py_take {A : Type} (limit : Z) (l : list A) : list A :=
  if Z.leb 0 limit then take (Z.to_nat limit) l
  else take (length l - Z.to_nat (- limit)) l.

(** [AlertSystem.get_recent_alerts] *)
Definition get_recent_alerts (limit : Z) (s : AlertSystem) : list AlertEvent :=
  py_take limit (sorted_recent (alert_history s)).

(** Later events first. *)
Definition newest_first (l : list AlertEvent) : Prop :=
  forall (i j : nat) (a b : AlertEvent),
    (i < j)%nat -> l !! i = Some a -> l !! j = Some b ->
    (timestamp b <= timestamp a)%Q.


(** The same, said along the list: nothing after an event is later. *)
Fixpoint descending (l : list AlertEvent) : Prop :=
  match l with
  | [] => True
  | a :: l' => Forall (fun b => (timestamp b <= timestamp a)%Q) l' /\ descending l'
  end.

End AlertSystem.

(** ** [core/database.py] *)

Module Database.
Import AlertSystem.

(** A row of [face_logs] without its [id]; an absent column is [NULL]. *)
Record Row := {
  r_timestamp : Q;
  r_camera_id : Z;
  r_camera_name : string;
  r_face_name : string;
  r_age : option Z;
  r_gender : option string;
  r_confidence : R;
  r_screenshot_path : option string;
}.

(** The same event with no age estimate, and with no gender. *)
Definition without_age (event : AlertEvent) : AlertEvent :=
  {| camera_id := camera_id event; camera_name := camera_name event;
     face_name := face_name event; confidence := confidence event;
     timestamp := timestamp event; ev_age := None;
     ev_gender := ev_gender event; screenshot_path := screenshot_path event |}.

Definition without_gender (event : AlertEvent) : AlertEvent :=
  {| camera_id := camera_id event; camera_name := camera_name event;
     face_name := face_name event; confidence := confidence event;
     timestamp := timestamp event; ev_age := ev_age event;
     ev_gender := None; screenshot_path := screenshot_path event |}.

(** The values bound to the [INSERT] of [log_face_event]:
    [int(event.age) if event.age else None] and the like. *)
Definition row_of_event (event : AlertEvent) : Row :=
  {| r_timestamp := timestamp event;
     r_camera_id := camera_id event;
     r_camera_name := camera_name event;
     r_face_name := face_name event;
     r_age := if truthy_int (ev_age event) then ev_age event else None;
     r_gender := if truthy_str (ev_gender event) then ev_gender event else None;
     r_confidence := confidence event;
     r_screenshot_path :=
       if truthy_str (screenshot_path event) then screenshot_path event else None |}.

(** The table: the rows with their [AUTOINCREMENT] ids, and the largest
    id given out so far. *)
Record FaceDatabase := {
  face_logs : list (Z * Row);
  last_id : Z;
}.

(** [FaceDatabase.log_face_event]: the new table and [lastrowid], or
    [None] when sqlite raised (the exception is logged and raised again). *)
Definition log_face_event (sqlite_ok : bool) (event : AlertEvent)
    (db : FaceDatabase) : option (FaceDatabase * Z) :=
  if sqlite_ok then
    let i := last_id db + 1 in
    Some ({| face_logs := face_logs db ++ [(i, row_of_event event)];
             last_id := i |}, i)
  else None.

(** *** Reading the log *)

(** The arguments of [get_face_logs]. *)
Record Query := {
  q_limit : Z;
  q_camera_id : option Z;
  q_face_name : option string;
  q_start_time : option Q;
  q_end_time : option Q;
}.

(** The [WHERE] clause: the conditions of the filters that are given,
    joined by [AND]. *)
Definition matches (q : Query) (row : Row) : bool :=
  match q_camera_id q with
  | Some c => Z.eqb (r_camera_id row) c
  | None => true
  end
  && match q_face_name q with
     | Some n => String.eqb (r_face_name row) n
     | None => true
     end
  && match q_start_time q with
     | Some t => Qle_bool t (r_timestamp row)
     | None => true
     end
  && match q_end_time q with
     | Some t => Qle_bool (r_timestamp row) t
     | None => true
     end.

(** [ORDER BY timestamp DESC]. SQLite does not say in which order rows of
    one timestamp come; here they keep the order of the table. *)
Fixpoint insert_row (x : Z * Row) (l : list (Z * Row)) : list (Z * Row) :=
  match l with
  | [] => [x]
  | y :: l' =>
      if Qltb (r_timestamp (snd x)) (r_timestamp (snd y)) then y :: insert_row x l'
      else x :: l
  end.

Fixpoint order_by_timestamp_desc (l : list (Z * Row)) : list (Z * Row) :=
  match l with
  | [] => []
  | x :: l' => insert_row x (order_by_timestamp_desc l')
  end.

(** [LIMIT ?]: a negative limit is no limit. *)
Definition sql_limit {A : Type} (limit : Z) (l : list A) : list A :=
  if Z.ltb limit 0 then l else take (Z.to_nat limit) l.

(** [FaceDatabase.get_face_logs]: the entries, each with its [id]; the
    empty list when sqlite raises. *)
Definition get_face_logs (sqlite_ok : bool) (q : Query) (db : FaceDatabase)
  : list (Z * Row) :=
  if sqlite_ok then
    sql_limit (q_limit q)
      (order_by_timestamp_desc (filter (fun e => matches q (snd e) = true) (face_logs db)))
  else [].

(** The ids of the table are distinct and none is above the last one
    given out. *)
Definition ids_ok (db : FaceDatabase) : Prop :=
  0 <= last_id db /\
  NoDup (map fst (face_logs db)) /\
  Forall (fun e => 0 < fst e <= last_id db) (face_logs db).

(** *** The table of known faces *)

Record KnownRow := {
  k_name : string;               (* [TEXT NOT NULL UNIQUE] *)
  k_embedding : list Byte.byte;  (* [BLOB NOT NULL] *)
  k_image_path : string;
  k_created_at : Q;
}.

Record KnownTable := {
  known_rows : list (Z * KnownRow);
  known_last_id : Z;
}.

Definition known_names (t : KnownTable) : list string :=
  map (fun e => k_name (snd e)) (known_rows t).

(** [FaceDatabase.add_known_face]: [False] when the name is taken (the
    [IntegrityError] of the [UNIQUE] column) or sqlite raises. *)
Definition add_known_face (sqlite_ok : bool) (name : string)
    (embedding : list Byte.byte) (image_path : string) (now : Q) (t : KnownTable)
  : KnownTable * bool :=
  if negb sqlite_ok then (t, false)
  else if bool_decide (name ∈ known_names t) then (t, false)
  else
    let i := known_last_id t + 1 in
    ({| known_rows := known_rows t ++
          [(i, {| k_name := name; k_embedding := embedding;
                  k_image_path := image_path; k_created_at := now |})];
        known_last_id := i |}, true).

(** [FaceDatabase.get_known_faces]: name, embedding and image path of
    every row. *)
Definition get_known_faces (sqlite_ok : bool) (t : KnownTable)
  : list (string * list Byte.byte * string) :=
  if sqlite_ok then
    map (fun e => (k_name (snd e), k_embedding (snd e), k_image_path (snd e)))
      (known_rows t)
  else [].

(** [FaceDatabase.delete_known_face]: [True] when a row was deleted. *)
Definition delete_known_face (sqlite_ok : bool) (name : string) (t : KnownTable)
  : KnownTable * bool :=
  if negb sqlite_ok then (t, false)
  else
    ({| known_rows := filter (fun e => k_name (snd e) <> name) (known_rows t);
        known_last_id := known_last_id t |},
     bool_decide (name ∈ known_names t)).


(** Later rows first, said along the list. *)
Fixpoint rows_descending (l : list (Z * Row)) : Prop :=
  match l with
  | [] => True
  | a :: l' =>
      Forall (fun b => (r_timestamp (snd b) <= r_timestamp (snd a))%Q) l' /\
      rows_descending l'
  end.

(** The row passes the filters that are given. *)
Definition passes (q : Query) (row : Row) : Prop :=
  (forall c, q_camera_id q = Some c -> r_camera_id row = c) /\
  (forall n, q_face_name q = Some n -> r_face_name row = n) /\
  (forall t, q_start_time q = Some t -> (t <= r_timestamp row)%Q) /\
  (forall t, q_end_time q = Some t -> (r_timestamp row <= t)%Q).

End Database.

(** ** [core/camera_manager.py] *)

Module CameraManager.

Record CameraConfig := {
  id : Z;
  name : string;
  source : string;
  enabled : bool;
  width : Z;
  height : Z;
  fps : Z;
  rotate : Z;
}.

(** Where a capture thread stands in [_capture_frames]. *)
Inductive phase :=
| Opening      (* started, about to open the device *)
| LoopTest     (* at [while not self.stop_event.is_set()] *)
| Reading      (* inside [cap.read()] *)
| Exited.      (* the function returned; the thread is no longer alive *)

#[global] Instance phase_eq_dec : EqDecision phase.
Proof. solve_decision. Defined.

Record Thread := {
  t_cam : Z;          (* the [cam_id] it was started with *)
  t_phase : phase;
}.

(** The manager, and the threads it has started so far: a thread is
    known by its position in [threads]. [frame_queues] holds queues of
    capacity one, oldest frame first. *)
Record CameraManager := {
  cameras : gmap Z CameraConfig;
  capture_threads : gmap Z nat;
  stop_event : bool;
  frame_queues : gmap Z (list Frame);
  threads : list Thread;
}.

(** What the device answers to the step a thread takes: whether it
    opens, and the frame [cap.read()] returns, already rotated ([None]
    when the read fails). *)
Record Device := {
  opens : bool;
  read : option Frame;
}.

Definition set_phase (t : nat) (p : phase) (m : CameraManager) : CameraManager :=
  {| cameras := cameras m; capture_threads := capture_threads m;
     stop_event := stop_event m; frame_queues := frame_queues m;
     threads := alter (fun th => {| t_cam := t_cam th; t_phase := p |}) t (threads m) |}.

Definition set_queues (q : gmap Z (list Frame)) (m : CameraManager) : CameraManager :=
  {| cameras := cameras m; capture_threads := capture_threads m;
     stop_event := stop_event m; frame_queues := q; threads := threads m |}.

(** The put of the capture loop: a full queue is emptied of its frame
    first. *)
Definition put_latest (frame : Frame) (q : list Frame) : list Frame :=
  (if Nat.leb 1 (length q) then tail q else q) ++ [frame].

(** One step of thread [t] of [_capture_frames]. *)
Definition thread_step (dev : Device) (t : nat) (m : CameraManager) : CameraManager :=
  match threads m !! t with
  | None => m
  | Some th =>
      match t_phase th with
      | Exited => m
      | Opening =>
          match cameras m !! t_cam th with
          | None => set_phase t Exited m
          | Some _ =>
              if opens dev then set_phase t LoopTest m
              else set_phase t Exited m
          end
      | LoopTest =>
          if stop_event m then set_phase t Exited m
          else set_phase t Reading m
      | Reading =>
          match read dev with
          | None => set_phase t LoopTest m
          | Some frame =>
              match frame_queues m !! t_cam th with
              | None => set_phase t Exited m   (* [KeyError], caught *)
              | Some q =>
                  set_phase t LoopTest
                    (set_queues (<[t_cam th := put_latest frame q]> (frame_queues m)) m)
              end
          end
      end
  end.

(** The steps the threads take while the caller waits in
    [thread.join(timeout=2.0)]. *)
Definition run (sched : list (nat * Device)) (m : CameraManager) : CameraManager :=
  foldl (fun m' s => thread_step (snd s) (fst s) m') m sched.

Definition is_alive (t : nat) (m : CameraManager) : bool :=
  match threads m !! t with
  | Some th => match t_phase th with Exited => false | _ => true end
  | None => false
  end.

(** [_cleanup_camera_thread]: [sched] is what happens during the join. *)
Definition _cleanup_camera_thread (sched : list (nat * Device)) (cam_id : Z)
    (m : CameraManager) : CameraManager :=
  match capture_threads m !! cam_id with
  | None => m
  | Some t =>
      let m1 := {| cameras := cameras m;
                   capture_threads := delete cam_id (capture_threads m);
                   stop_event := true;
                   frame_queues := frame_queues m;
                   threads := threads m |} in
      let m2 := run sched m1 in
      set_queues (delete cam_id (frame_queues m2)) m2
  end.

(** [start_camera] *)
Definition start_camera (sched : list (nat * Device)) (cam_id : Z)
    (m : CameraManager) : CameraManager * bool :=
  match cameras m !! cam_id with
  | None => (m, false)
  | Some cfg =>
      if negb (enabled cfg) then (m, false)
      else
        let m1 := match capture_threads m !! cam_id with
                  | Some _ => _cleanup_camera_thread sched cam_id m
                  | None => m
                  end in
        ({| cameras := cameras m1;
            capture_threads := <[cam_id := length (threads m1)]> (capture_threads m1);
            stop_event := false;
            frame_queues := <[cam_id := []]> (frame_queues m1);
            threads := threads m1 ++ [ {| t_cam := cam_id; t_phase := Opening |} ] |},
         true)
  end.

(** [stop_camera] *)
Definition stop_camera (sched : list (nat * Device)) (cam_id : Z)
    (m : CameraManager) : CameraManager * bool :=
  match capture_threads m !! cam_id with
  | Some _ => (_cleanup_camera_thread sched cam_id m, true)
  | None => (m, false)
  end.

(** [get_all_frames]: the frame of every queue that has one; the queues
    are left empty. *)
Definition get_all_frames (m : CameraManager) : gmap Z Frame * CameraManager :=
  (omap head (frame_queues m), set_queues (tail <$> frame_queues m) m).


(** How the threads of the process can change while they run: none is
    added, none changes camera, and one that has exited stays so. *)
Definition evolves (before after : list Thread) : Prop :=
  length after = length before /\
  forall (t : nat) (th : Thread), before !! t = Some th ->
    exists th', after !! t = Some th' /\ t_cam th' = t_cam th /\
                (t_phase th = Exited -> t_phase th' = Exited).

(** ['running'] of [get_camera_status] *)
Definition running (cam_id : Z) (m : CameraManager) : bool :=
  bool_decide (is_Some (capture_threads m !! cam_id)).

(** *** The rest of the manager *)

(** [get_frame]: the frame at the head of the queue of the camera, which
    leaves the queue; [None] when the camera has no queue or the queue is
    empty. *)
Definition get_frame (cam_id : Z) (m : CameraManager) : option Frame * CameraManager :=
  match frame_queues m !! cam_id with
  | None => (None, m)
  | Some q =>
      match q with
      | [] => (None, m)
      | frame :: q' => (Some frame, set_queues (<[cam_id := q']> (frame_queues m)) m)
      end
  end.

(** [stop_all_cameras]: [sched] is what the threads do while the caller
    waits in the joins. *)
Definition stop_all_cameras (sched : list (nat * Device)) (m : CameraManager)
  : CameraManager :=
  let m1 := {| cameras := cameras m; capture_threads := capture_threads m;
               stop_event := true; frame_queues := frame_queues m;
               threads := threads m |} in
  let m2 := run sched m1 in
  {| cameras := cameras m2; capture_threads := ∅; stop_event := stop_event m2;
     frame_queues := ∅; threads := threads m2 |}.

(** [start_all_cameras]. The dict of the cameras is gone through in the
    order of the configuration file, which the map does not keep: [order]
    lists the ids in that order. [scheds] gives, for a camera that has to be
    torn down first, what happens during that join. *)
Definition start_all_cameras (scheds : Z -> list (nat * Device)) (order : list Z)
    (m : CameraManager) : CameraManager :=
  foldl (fun m' cam_id =>
           match cameras m' !! cam_id with
           | Some cfg =>
               if enabled cfg then fst (start_camera (scheds cam_id) cam_id m')
               else m'
           | None => m'
           end)
        {| cameras := cameras m; capture_threads := capture_threads m;
           stop_event := false; frame_queues := frame_queues m;
           threads := threads m |}
        order.

(** The dict [get_camera_status] returns. *)
Record Status := {
  st_id : Z;
  st_name : string;
  st_running : bool;
  st_frame_queue_size : nat;
  st_enabled : bool;
}.

(** [get_camera_status]; [None] is the empty dict of an unknown camera. *)
Definition get_camera_status (cam_id : Z) (m : CameraManager) : option Status :=
  match cameras m !! cam_id with
  | None => None
  | Some cfg =>
      Some {| st_id := cam_id; st_name := name cfg;
              st_running := running cam_id m;
              st_frame_queue_size := length (default [] (frame_queues m !! cam_id));
              st_enabled := enabled cfg |}
  end.

(** No queue holds more than one frame. *)
Definition bounded (m : CameraManager) : Prop :=
  forall (cam_id : Z) (q : list Frame),
    frame_queues m !! cam_id = Some q -> (length q <= 1)%nat.

(** The steps thread [t] takes in a schedule. *)
Definition steps_of (t : nat) (sched : list (nat * Device)) : nat :=
  length (filter (fun s => fst s = t) sched).


(** The steps a thread needs at most to get out of [_capture_frames]
    once the stop signal is set and stays set. *)
Definition steps_to_exit (p : phase) : nat :=
  match p with
  | Exited => 0
  | LoopTest => 1
  | Opening | Reading => 2
  end.


(** The body of the loop of [start_all_cameras]. *)
Definition start_if_enabled (scheds : Z -> list (nat * Device))
    (m : CameraManager) (cam_id : Z) : CameraManager :=
  match cameras m !! cam_id with
  | Some cfg =>
      if enabled cfg then fst (start_camera (scheds cam_id) cam_id m) else m
  | None => m
  end.

(** The camera is configured and enabled. *)
Definition is_enabled (cam_id : Z) (m : CameraManager) : Prop :=
  exists cfg, cameras m !! cam_id = Some cfg /\ enabled cfg = true.

End CameraManager.

(** ** The driver loop of [ui/main_window.py] *)

Module MainWindow.

Section Driver.

(** The rest of the application (detector, alert system, database) and
    [process_frame], which runs detection and recognition on a frame and
    returns the annotated frame; it raises nothing. *)
Variable App : Type.
Variable process_frame : Z -> Frame -> App -> App * Frame.

Record MainWindow := {
  processing_interval : Q;
  last_processed : gmap Z Q;
  app : App;
}.

Inductive event :=
| EvProcess (cam_id : Z) (frame : Frame)   (* [process_frame] called *)
| EvDisplay (cam_id : Z) (frame : Frame).  (* [display_frame] called *)

(** The camera an entry of the trace is about. *)
Definition event_cam (ev : event) : Z :=
  match ev with EvProcess c _ | EvDisplay c _ => c end.

(** The body of the loop of [update] for one camera; [current_time]
    is the reading of the clock in that turn. *)
Definition update_camera (current_time : Q) (cam_id : Z) (frame : Frame)
    (w : MainWindow) : MainWindow * list event :=
  let last_time := default 0%Q (last_processed w !! cam_id) in
  if Qltb (current_time - last_time) (processing_interval w) then
    (w, [EvDisplay cam_id frame])
  else
    let '(app', processed_frame) := process_frame cam_id frame (app w) in
    ({| processing_interval := processing_interval w;
        last_processed := <[cam_id := current_time]> (last_processed w);
        app := app' |},
     [EvProcess cam_id frame; EvDisplay cam_id processed_frame]).

Definition update_loop (clock : Z -> Q) (frames : list (Z * Frame))
    (w : MainWindow) : MainWindow * list event :=
  foldl (fun acc cf =>
           let '(w', evs) := update_camera (clock (fst cf)) (fst cf) (snd cf) (fst acc) in
           (w', snd acc ++ evs))
        (w, []) frames.

(** [MainWindow.update]: one tick. [clock cam_id] is the reading of
    the clock in the turn of camera [cam_id]. *)
Definition update (clock : Z -> Q) (cm : CameraManager.CameraManager)
    (w : MainWindow) : CameraManager.CameraManager * MainWindow * list event :=
  let '(frames, cm') := CameraManager.get_all_frames cm in
  let '(w', evs) := update_loop clock (map_to_list frames) w in
  (cm', w', evs).

(** Detection ran on a frame of camera [cam_id] in this tick. *)
Definition detected (cam_id : Z) (evs : list event) : Prop :=
  ∃ frame, EvProcess cam_id frame ∈ evs.

Definition displayed (cam_id : Z) (evs : list event) : Prop :=
  ∃ frame, EvDisplay cam_id frame ∈ evs.

End Driver.

Arguments processing_interval {App} _.
Arguments last_processed {App} _.
Arguments app {App} _.
Arguments update_camera {App} process_frame current_time cam_id frame w.
Arguments update_loop {App} process_frame clock frames w.
Arguments update {App} process_frame clock cm w.

(** The interval has passed for camera [cam_id] at clock reading
    [current_time]: [current_time - last_time >= processing_interval]. *)
Definition due {App : Type} (current_time : Q) (cam_id : Z) (w : MainWindow App) : Prop :=
  (processing_interval w
     <= current_time - default 0%Q (last_processed w !! cam_id))%Q.


End MainWindow.

(** ** Concrete calls used in the examples *)

Module Examples.
Import FaceDetection AlertSystem.

Definition alice_face : Face :=
  {| det_score := 1%R; embedding := Some [float32_of_Z 1; float32_of_Z 0];
     age := Some 30; gender := Some "Female" |}.

Definition channel (t : Q) (o : Telegram.send_outcome) : Telegram.Env :=
  {| Telegram.init_result := Telegram.InitOk; Telegram.clock := t;
     Telegram.transport := o; Telegram.ctime := "Thu Jan  1 00:00:00 1970";
     Telegram.backup_clock := t; Telegram.log_open_ok := true;
     Telegram.mkdir_ok := true; Telegram.rename_ok := true |}.

(** A call at clock reading [t] for a face seen on camera 1. *)
Definition call_at (t : Q) (o : Telegram.send_outcome) : Call :=
  {| call_env := {| now := t; stamp := "19700101_000000"; shot := ShotSaved;
                    sound := SoundPlayed; confidence_pct := "82.00%";
                    time_str := "1970-01-01 00:00:00"; tg := channel t o |};
     call_cam := 1; call_cam_name := "Lobby"; call_who := "Alice";
     call_face := alice_face; call_conf := 1%R; call_frame := [] |}.

(** The channel when the bot cannot be reached: [get_me()] raises
    [TelegramError]. *)
Definition unreachable (t : Q) : Telegram.Env :=
  {| Telegram.init_result := Telegram.InitTelegramError; Telegram.clock := t;
     Telegram.transport := Telegram.SendOk;
     Telegram.ctime := "Thu Jan  1 00:00:00 1970";
     Telegram.backup_clock := t; Telegram.log_open_ok := true;
     Telegram.mkdir_ok := true; Telegram.rename_ok := true |}.

Definition call_unreachable (t : Q) : Call :=
  {| call_env := {| now := t; stamp := "19700101_000000"; shot := ShotSaved;
                    sound := SoundPlayed; confidence_pct := "82.00%";
                    time_str := "1970-01-01 00:00:00"; tg := unreachable t |};
     call_cam := 1; call_cam_name := "Lobby"; call_who := "Alice";
     call_face := alice_face; call_conf := 1%R; call_frame := [] |}.

(** A disk with the backup image of an alert that failed in the second
    1000 and the screenshot of another alert. *)
Definition two_images : Telegram.Disk :=
  {| Telegram.files := {[ Telegram.backup_path 1000 := [1%N];
                          "screenshots/a.jpg" := [2%N] ]};
     Telegram.failed_alerts_log := [] |}.

Definition empty_disk : Telegram.Disk :=
  {| Telegram.files := ∅; Telegram.failed_alerts_log := [] |}.

(** The alert system as [__init__] leaves it, with the channel configured
    for a rate limit of five seconds. *)
Definition fresh_system : AlertSystem :=
  {| alert_sound := "assets/alert.wav"; screenshot_dir := "screenshots";
     alert_history := []; alert_enabled := true; screenshot_enabled := true;
     telegram := Some (Telegram.init 5) |}.

(** A gallery of one entry, whose embedding is the one of [alice_face],
    and a detection whose embedding is the zero vector. *)
Definition alice_known : KnownFace :=
  {| name := "Alice"; kf_embedding := Some [float32_of_Z 1; float32_of_Z 0];
     image_path := "known_faces/Alice.jpg" |}.

Definition zero_face : Face :=
  {| det_score := 1%R; embedding := Some [float32_of_Z 0; float32_of_Z 0];
     age := None; gender := None |}.

(** Two image files of one stem in the known-faces directory. *)
Definition two_files_one_stem : list DirEntry :=
  [ {| stem := "Alice"; suffix := ".jpg"; content := Detected [alice_face] |};
    {| stem := "Alice"; suffix := ".PNG"; content := Detected [alice_face] |} ].

(** A detection whose embedding has three components, and gallery entries
    whose embedding has one component or is the zero vector. *)
Definition long_face : Face :=
  {| det_score := 1%R;
     embedding := Some [float32_of_Z 1; float32_of_Z 0; float32_of_Z 0];
     age := None; gender := None |}.

Definition short_known : KnownFace :=
  {| name := "Bob"; kf_embedding := Some [float32_of_Z 1];
     image_path := "known_faces/Bob.jpg" |}.

Definition blank_known : KnownFace :=
  {| name := "Blank"; kf_embedding := Some [float32_of_Z 0; float32_of_Z 0];
     image_path := "known_faces/Blank.jpg" |}.




Definition carol_face : Face :=
  {| det_score := 1%R; embedding := Some [float32_of_Z 1; float32_of_Z 6];
     age := None; gender := None |}.



(** An event whose age estimate is 0 and whose gender is empty. *)
Definition newborn : AlertEvent :=
  {| camera_id := 1; camera_name := "Lobby"; face_name := "Alice";
     confidence := 1%R; timestamp := 1000%Q; ev_age := Some 0;
     ev_gender := Some EmptyString; screenshot_path := None |}.

(** Two cameras, both started, each thread having opened its device and
    put one frame in its queue. *)
Definition lobby : CameraManager.CameraConfig :=
  {| CameraManager.id := 1; CameraManager.name := "Lobby";
     CameraManager.source := "0"; CameraManager.enabled := true;
     CameraManager.width := 640; CameraManager.height := 480;
     CameraManager.fps := 30; CameraManager.rotate := 90 |}.

Definition yard : CameraManager.CameraConfig :=
  {| CameraManager.id := 2; CameraManager.name := "Yard";
     CameraManager.source := "rtsp://yard/stream"; CameraManager.enabled := true;
     CameraManager.width := 640; CameraManager.height := 480;
     CameraManager.fps := 30; CameraManager.rotate := 0 |}.

(** The manager as [__init__] leaves it once the configuration is loaded. *)
Definition manager0 : CameraManager.CameraManager :=
  {| CameraManager.cameras := {[ 1 := lobby; 2 := yard ]};
     CameraManager.capture_threads := ∅;
     CameraManager.stop_event := false;
     CameraManager.frame_queues := ∅;
     CameraManager.threads := [] |}.

Definition device (f : Frame) : CameraManager.Device :=
  {| CameraManager.opens := true; CameraManager.read := Some f |}.

Definition both_running : CameraManager.CameraManager :=
  CameraManager.run
    [ (0%nat, device [1%N]); (1%nat, device [2%N]);
      (0%nat, device [1%N]); (1%nat, device [2%N]);
      (0%nat, device [1%N]); (1%nat, device [2%N]) ]
    (fst (CameraManager.start_camera [] 2
            (fst (CameraManager.start_camera [] 1 manager0)))).

(** The same, a moment later: the thread of camera 1 has passed its loop
    test and is inside [cap.read()]. *)
Definition lobby_reading : CameraManager.CameraManager :=
  CameraManager.run [ (0%nat, device [1%N]) ] both_running.

(** A driver that last processed camera 1 at 10 s, with the processing
    interval at its initial half second, and a tick whose clock reads
    10.2 s in the turn of camera 1 and 11 s in the turn of camera 2. *)
Definition tick_window : MainWindow.MainWindow unit :=
  {| MainWindow.processing_interval := (1 # 2)%Q;
     MainWindow.last_processed := {[ 1 := 10%Q ]};
     MainWindow.app := tt |}.

Definition tick_clock (cam_id : Z) : Q :=
  if Z.eqb cam_id 1 then (51 # 5)%Q else 11%Q.

Definition no_detector (cam_id : Z) (frame : Frame) (a : unit) : unit * Frame :=
  (a, frame).

(** An empty log, and a query for the hundred latest rows of any camera
    and face. *)
Definition empty_log : Database.FaceDatabase :=
  {| Database.face_logs := []; Database.last_id := 0 |}.

Definition latest_hundred : Database.Query :=
  {| Database.q_limit := 100; Database.q_camera_id := None;
     Database.q_face_name := None; Database.q_start_time := None;
     Database.q_end_time := None |}.

(** An empty table of known faces. *)
Definition empty_table : Database.KnownTable :=
  {| Database.known_rows := []; Database.known_last_id := 0 |}.

End Examples.

(** * Properties *)

(** ** Clock comparisons *)

Lemma Qltb_true (a b : Q) : Qltb a b = true <-> (a < b)%Q.
Proof.
  unfold Qltb. rewrite negb_true_iff, <- not_true_iff_false, Qle_bool_iff.
  split; [apply Qnot_le_lt | apply Qlt_not_le].
Qed.

Lemma Qltb_false (a b : Q) : Qltb a b = false <-> (b <= a)%Q.
Proof. unfold Qltb. rewrite negb_false_iff. apply Qle_bool_iff. Qed.

(** ** The notification channel *)

Section TelegramFacts.
Import Telegram.

Lemma deliveries_app (l1 l2 : list event) :
  deliveries (l1 ++ l2) = (deliveries l1 + deliveries l2)%nat.
Proof. unfold deliveries. rewrite filter_app, length_app. reflexivity. Qed.

Variables (e : Env) (d : Disk) (message : string) (image_path : option string).

(** The fallback writes to the disk; it sends nothing. *)
Lemma fallback_deliveries :
  deliveries (snd (fst (fallback e d message image_path))) = 0%nat.
Proof.
  unfold fallback.
  destruct (log_open_ok e); simpl; [|reflexivity].
  destruct image_path as [p|]; [|reflexivity].
  destruct (mkdir_ok e); simpl; [|reflexivity].
  destruct (files d !! p); [|reflexivity].
  destruct (rename_ok e); reflexivity.
Qed.

(** A call with the window closed sends nothing and changes nothing but
    the connection. *)
Lemma send_alert_closed (tm : TelegramManager) :
  connected e tm = true ->
  ~ window_open (clock e) tm ->
  send_alert e d message image_path tm =
    {| manager := set_bot true tm; disk := d; trace := [EvRateLimited];
       raised := false |}.
Proof.
  unfold connected, window_open, send_alert, _initialize_bot, _send.
  intros Hc Hw.
  assert (Hlt : Qltb (clock e - last_sent tm) (inject_Z (min_interval tm)) = true).
  { apply Qltb_true. apply Qnot_le_lt. exact Hw. }
  destruct tm as [b ls mi]; simpl in *.
  destruct b; simpl in *.
  - rewrite Hlt. reflexivity.
  - destruct (init_result e); try discriminate; simpl. rewrite Hlt. reflexivity.
Qed.

(** With the window open the transport is called once, and [last_sent]
    moves to the reading of the clock exactly when the transport accepts. *)
Lemma send_alert_open (tm : TelegramManager) :
  connected e tm = true ->
  window_open (clock e) tm ->
  let r := send_alert e d message image_path tm in
  deliveries (trace r) = 1%nat /\
  bot (manager r) = true /\
  min_interval (manager r) = min_interval tm /\
  last_sent (manager r) =
    match transport e with SendOk => clock e | _ => last_sent tm end.
Proof.
  unfold connected, window_open, send_alert, _initialize_bot, _send.
  intros Hc Hw.
  assert (Hlt : Qltb (clock e - last_sent tm) (inject_Z (min_interval tm)) = false).
  { apply Qltb_false. exact Hw. }
  pose proof fallback_deliveries as Hfb.
  destruct tm as [b ls mi]; simpl in *.
  destruct b; simpl in *.
  - rewrite Hlt. destruct (transport e); simpl; auto.
    destruct (fallback _ _ _ _) as [[d' evs'] exn']. simpl in *.
    change (deliveries ([EvDelivery (delivery_kind d image_path) message] ++ evs') = 1%nat /\ true = true /\ mi = mi /\ ls = ls).
    rewrite deliveries_app, Hfb. auto.
  - destruct (init_result e); try discriminate; simpl. rewrite Hlt.
    destruct (transport e); simpl; auto.
    destruct (fallback _ _ _ _) as [[d' evs'] exn']. simpl in *.
    change (deliveries ([EvDelivery (delivery_kind d image_path) message] ++ evs') = 1%nat /\ true = true /\ mi = mi /\ ls = ls).
    rewrite deliveries_app, Hfb. auto.
Qed.

(** A [TelegramError] is caught inside [_send]: the handler of
    [send_alert] that keeps the local record is not reached. *)
Lemma send_alert_transport_error (tm : TelegramManager) :
  connected e tm = true ->
  window_open (clock e) tm ->
  transport e = SendTelegramError ->
  send_alert e d message image_path tm =
    {| manager := set_bot true tm; disk := d;
       trace := [EvDelivery (delivery_kind d image_path) message; EvSendFailed];
       raised := false |}.
Proof.
  unfold connected, window_open, send_alert, _initialize_bot, _send.
  intros Hc Hw Ht.
  assert (Hlt : Qltb (clock e - last_sent tm) (inject_Z (min_interval tm)) = false).
  { apply Qltb_false. exact Hw. }
  destruct tm as [b ls mi]; simpl in *.
  destruct b; simpl in *.
  - rewrite Hlt, Ht. reflexivity.
  - destruct (init_result e); try discriminate; simpl. rewrite Hlt, Ht. reflexivity.
Qed.

End TelegramFacts.

(** ** The alert dispatcher *)

Section AlertFacts.
Import FaceDetection AlertSystem.

Lemma alert_deliveries_app (l1 l2 : list event) :
  deliveries (l1 ++ l2) = (deliveries l1 + deliveries l2)%nat.
Proof. unfold deliveries. rewrite filter_app, length_app. reflexivity. Qed.

Lemma alert_deliveries_telegram (tr : list Telegram.event) :
  deliveries (map EvTelegram tr) = Telegram.deliveries tr.
Proof.
  unfold deliveries, Telegram.deliveries.
  induction tr as [|ev tr IH]; [reflexivity|].
  simpl map. rewrite !filter_cons. simpl is_delivery.
  destruct (decide (Telegram.is_delivery ev = true)); simpl; rewrite IH; reflexivity.
Qed.

Lemma shot_step_deliveries e d frame cam who s :
  deliveries (snd (shot_step e d frame cam who s)) = 0%nat.
Proof.
  unfold shot_step, _capture_screenshot.
  destruct (screenshot_enabled s); [|reflexivity].
  destruct (shot e); reflexivity.
Qed.

(** What a call does with the notification channel: one [send_alert]. *)
Lemma trigger_alert_telegram e d cam cam_name who face conf frame s tm :
  telegram s = Some tm ->
  let st := shot_step e d frame cam who s in
  let r := Telegram.send_alert (tg e) (snd (fst st)) (message e cam_name who face)
             (fst (fst st)) tm in
  let R := trigger_alert e d cam cam_name who face conf frame s in
  telegram (system R) = Some (Telegram.manager r) /\
  disk R = Telegram.disk r /\
  deliveries (trace R) = Telegram.deliveries (Telegram.trace r).
Proof.
  intros Htm. pose proof (shot_step_deliveries e d frame cam who s) as Hs.
  unfold trigger_alert.
  destruct (shot_step e d frame cam who s) as [[p d1] evs1]. simpl in *.
  rewrite Htm.
  destruct (Telegram.raised _); simpl; (split; [reflexivity|split; [reflexivity|]]);
    rewrite !alert_deliveries_app, alert_deliveries_telegram, Hs;
    destruct (alert_enabled s); simpl;
    first [reflexivity | change (deliveries [EvTriggered]) with 0%nat; lia].
Qed.

End AlertFacts.

(** ** The rate limit *)

(** Linear arithmetic on clock readings. *)
Ltac qlra := unfold inject_Z in *; Lqa.lra.

Section RateLimit.
Import FaceDetection AlertSystem.

(** Two calls in a row, seen from the channel. *)
Lemma two_calls_deliveries (c1 c2 : Call) d s tm :
  telegram s = Some tm ->
  let st1 := shot_step (call_env c1) d (call_frame c1) (call_cam c1) (call_who c1) s in
  let r1 := Telegram.send_alert (tg (call_env c1)) (snd (fst st1))
              (message (call_env c1) (call_cam_name c1) (call_who c1) (call_face c1))
              (fst (fst st1)) tm in
  exists d2 p2,
    let r2 := Telegram.send_alert (tg (call_env c2)) d2
                (message (call_env c2) (call_cam_name c2) (call_who c2) (call_face c2))
                p2 (Telegram.manager r1) in
    deliveries (snd (trigger_alerts [c1; c2] d s)) =
      (Telegram.deliveries (Telegram.trace r1) +
       Telegram.deliveries (Telegram.trace r2))%nat.
Proof.
  intros Htm st1 r1.
  destruct (trigger_alert_telegram (call_env c1) d (call_cam c1) (call_cam_name c1)
              (call_who c1) (call_face c1) (call_conf c1) (call_frame c1) s tm Htm)
    as (Hs1 & _ & Hn1).
  fold st1 in Hs1, Hn1. fold r1 in Hs1, Hn1.
  set (R1 := trigger c1 d s).
  destruct (trigger_alert_telegram (call_env c2) (disk R1) (call_cam c2)
              (call_cam_name c2) (call_who c2) (call_face c2) (call_conf c2)
              (call_frame c2) (system R1) (Telegram.manager r1) Hs1)
    as (_ & _ & Hn2).
  eexists _, _. cbv zeta.
  rewrite <- Hn2, <- Hn1.
  unfold trigger_alerts. fold R1.
  change (trigger_alert (call_env c2) (disk R1) (call_cam c2) (call_cam_name c2)
            (call_who c2) (call_face c2) (call_conf c2) (call_frame c2) (system R1))
    with (trigger c2 (disk R1) (system R1)).
  simpl. rewrite alert_deliveries_app, app_nil_r. reflexivity.
Qed.

(** C1 (as amended). Once the bot is connected, a call of the channel
    makes a delivery attempt exactly when [now - last_sent >= min_interval];
    a call outside the window sends nothing and leaves [last_sent] as it
    was, and a send the transport accepts sets [last_sent] to [now]. With a
    limit of five seconds and [last_sent] at its initial value 0, two alerts
    at clock readings [t0] and [t0 + 3], where [5 <= t0] and the first send
    is accepted, make one delivery attempt; alerts at [t0] and [t0 + 6] make
    two. *)
Theorem rate_limit_window :
  (forall e d message image_path tm,
      Telegram.connected e tm = true ->
      let r := Telegram.send_alert e d message image_path tm in
      (Telegram.deliveries (Telegram.trace r) = 1%nat <->
         Telegram.window_open (Telegram.clock e) tm) /\
      (~ Telegram.window_open (Telegram.clock e) tm ->
         Telegram.deliveries (Telegram.trace r) = 0%nat /\
         Telegram.trace r = [Telegram.EvRateLimited] /\
         Telegram.last_sent (Telegram.manager r) = Telegram.last_sent tm) /\
      (Telegram.window_open (Telegram.clock e) tm ->
         Telegram.transport e = Telegram.SendOk ->
         Telegram.last_sent (Telegram.manager r) = Telegram.clock e)) /\
  (forall (c1 c2 : Call) d s (t0 : Q),
      telegram s = Some (Telegram.init 5) ->
      (5 <= t0)%Q ->
      (Telegram.clock (tg (call_env c1)) == t0)%Q ->
      Telegram.init_result (tg (call_env c1)) = Telegram.InitOk ->
      Telegram.transport (tg (call_env c1)) = Telegram.SendOk ->
      ((Telegram.clock (tg (call_env c2)) == t0 + 3)%Q ->
         deliveries (snd (trigger_alerts [c1; c2] d s)) = 1%nat) /\
      ((Telegram.clock (tg (call_env c2)) == t0 + 6)%Q ->
         deliveries (snd (trigger_alerts [c1; c2] d s)) = 2%nat)).
Proof.
  split.
  - intros e d message image_path tm Hc r.
    assert (Hclosed : ~ Telegram.window_open (Telegram.clock e) tm ->
              Telegram.trace r = [Telegram.EvRateLimited] /\
              Telegram.last_sent (Telegram.manager r) = Telegram.last_sent tm).
    { intros Hw. subst r. rewrite (send_alert_closed e d message image_path tm Hc Hw).
      split; reflexivity. }
    pose proof (send_alert_open e d message image_path tm Hc) as Hopen.
    fold r in Hopen. cbv zeta in Hopen.
    split; [split|split].
    + intros H1.
      destruct (Qlt_le_dec (Telegram.clock e - Telegram.last_sent tm)
                  (inject_Z (Telegram.min_interval tm))) as [Hlt|Hle]; [|exact Hle].
      destruct Hclosed as [Htr _]; [apply Qlt_not_le; exact Hlt|].
      rewrite Htr in H1. discriminate H1.
    + intros Hw. apply Hopen, Hw.
    + intros Hw. destruct (Hclosed Hw) as [Htr Hls].
      split; [rewrite Htr; reflexivity|split; assumption].
    + intros Hw Hok. destruct (Hopen Hw) as (_ & _ & _ & Hls).
      rewrite Hls, Hok. reflexivity.
  - intros c1 c2 d s t0 Hs Ht0 Hc1 Hinit Hok.
    destruct (two_calls_deliveries c1 c2 d s _ Hs) as (d2 & p2 & Hn).
    cbv zeta in Hn. rewrite Hn. clear Hn.
    set (st1 := shot_step (call_env c1) d (call_frame c1) (call_cam c1) (call_who c1) s).
    set (m1 := message (call_env c1) (call_cam_name c1) (call_who c1) (call_face c1)).
    set (m2 := message (call_env c2) (call_cam_name c2) (call_who c2) (call_face c2)).
    assert (Hconn1 : Telegram.connected (tg (call_env c1)) (Telegram.init 5) = true).
    { unfold Telegram.connected. rewrite Hinit. reflexivity. }
    assert (Hw1 : Telegram.window_open (Telegram.clock (tg (call_env c1))) (Telegram.init 5)).
    { unfold Telegram.window_open. simpl. rewrite Hc1. qlra. }
    destruct (send_alert_open (tg (call_env c1)) (snd (fst st1)) m1 (fst (fst st1))
                (Telegram.init 5) Hconn1 Hw1) as (Hd1 & Hbot & Hmi & Hls).
    rewrite Hok in Hls. simpl in Hmi.
    set (tm1 := Telegram.manager
                  (Telegram.send_alert (tg (call_env c1)) (snd (fst st1)) m1
                     (fst (fst st1)) (Telegram.init 5))) in *.
    assert (Hconn2 : Telegram.connected (tg (call_env c2)) tm1 = true).
    { unfold Telegram.connected. rewrite Hbot. reflexivity. }
    rewrite Hd1. split; intros Hc2.
    + rewrite (send_alert_closed (tg (call_env c2)) d2 m2 p2 tm1 Hconn2).
      * reflexivity.
      * unfold Telegram.window_open. rewrite Hmi, Hls, Hc2, Hc1.
        intros H. simpl in H. qlra.
    + destruct (send_alert_open (tg (call_env c2)) d2 m2 p2 tm1 Hconn2) as (Hd2 & _).
      * unfold Telegram.window_open. rewrite Hmi, Hls, Hc2, Hc1. simpl. qlra.
      * rewrite Hd2. reflexivity.
Qed.

End RateLimit.

Section RateLimitExamples.
Import FaceDetection AlertSystem Examples.

Lemma rate_limit_window_witness :
  deliveries (snd (trigger_alerts
     [call_at 1000 Telegram.SendOk; call_at 1003 Telegram.SendOk]
     empty_disk fresh_system)) = 1%nat /\
  deliveries (snd (trigger_alerts
     [call_at 1000 Telegram.SendOk; call_at 1006 Telegram.SendOk]
     empty_disk fresh_system)) = 2%nat /\
  Telegram.last_sent (Telegram.manager
     (Telegram.send_alert (channel 1000 Telegram.SendOk) empty_disk "m" None
        (Telegram.init 5))) = 1000%Q.
Proof.
  destruct rate_limit_window as [Hgen Hsc].
  assert (H5 : (5 <= 1000)%Q) by (vm_compute; discriminate).
  split; [|split].
  - apply (proj1 (Hsc (call_at 1000 Telegram.SendOk) (call_at 1003 Telegram.SendOk)
                    empty_disk fresh_system 1000%Q eq_refl H5 (Qeq_refl _)
                    eq_refl eq_refl)).
    vm_compute. reflexivity.
  - apply (proj2 (Hsc (call_at 1000 Telegram.SendOk) (call_at 1006 Telegram.SendOk)
                    empty_disk fresh_system 1000%Q eq_refl H5 (Qeq_refl _)
                    eq_refl eq_refl)).
    vm_compute. reflexivity.
  - apply (proj2 (proj2 (Hgen (channel 1000 Telegram.SendOk) empty_disk "m" None
                           (Telegram.init 5) eq_refl))).
    + vm_compute. discriminate.
    + reflexivity.
Defined.

(** The bot cannot be reached: [get_me()] raises [TelegramError] at each
    call, as it does with a wrong token or no network. The window is open
    at both calls, [1000 - 0 >= 5] and [1006 - 0 >= 5], and no delivery
    attempt is made: [send_photo] is never called, at neither call, where
    the scenario has two attempts. *)
Lemma rate_limit_unreachable_bot :
  let r := Telegram.send_alert (unreachable 1000) empty_disk "m" None
             (Telegram.init 5) in
  let d06 := deliveries (snd (trigger_alerts
                [call_unreachable 1000; call_unreachable 1006]
                empty_disk fresh_system)) in
  (Telegram.window_open 1000 (Telegram.init 5) /\
   Telegram.deliveries (Telegram.trace r) = 0%nat /\
   Telegram.deliveries (Telegram.trace r) <> 1%nat) /\
  (Telegram.window_open 1006 (Telegram.manager r) /\
   d06 = 0%nat /\ d06 <> 2%nat).
Proof.
  vm_compute. repeat split; first [discriminate | reflexivity].
Qed.

(** C2, on the code. The transport raises [TelegramError] on an alert
    that has a screenshot: the attempt is made and logged as failed, but
    [failed_alerts.log] stays empty and the screenshot stays where it was;
    [last_sent] is unchanged and the event is in the history. *)
Theorem transport_error_keeps_no_record :
  let r := trigger (call_at 1000 Telegram.SendTelegramError) empty_disk fresh_system in
  let shot_file := "screenshots/19700101_000000_cam1_Alice.jpg" in
  deliveries (trace r) = 1%nat /\
  Telegram.failed_alerts_log (disk r) = [] /\
  Telegram.files (disk r) = {[ shot_file := [] ]} /\
  (Telegram.last_sent <$> telegram (system r)) = Some 0%Q /\
  (screenshot_path <$> alert_history (system r)) = [Some shot_file].
Proof. vm_compute. repeat split; reflexivity. Qed.

End RateLimitExamples.

(** ** Every call leaves one event in the history *)

Section Dispatch.
Import FaceDetection AlertSystem.

(** The event a call builds. *)
Lemma trigger_alert_history e d cam cam_name who face conf frame s :
  let r := trigger_alert e d cam cam_name who face conf frame s in
  let ev := {| camera_id := cam; camera_name := cam_name; face_name := who;
               confidence := conf; timestamp := now e;
               ev_age := age face; ev_gender := gender face;
               screenshot_path := fst (fst (shot_step e d frame cam who s)) |} in
  alert_history (system r) = alert_history s ++ [ev] /\
  (returned r = Some ev \/ returned r = None) /\
  (telegram s = None -> returned r = Some ev).
Proof.
  unfold trigger_alert.
  destruct (shot_step e d frame cam who s) as [[p d1] evs1]. simpl.
  destruct (telegram s) as [tm|]; simpl.
  - destruct (Telegram.raised _); simpl; repeat split; auto; discriminate.
  - repeat split; auto.
Qed.

(** An exception leaves [send_alert] only from the fallback, when the
    local log or the backup directory cannot be written. *)
Lemma send_alert_raised e d message image_path tm :
  Telegram.raised (Telegram.send_alert e d message image_path tm) = true ->
  Telegram.log_open_ok e = false \/ Telegram.mkdir_ok e = false.
Proof.
  unfold Telegram.send_alert, Telegram._initialize_bot, Telegram._send, Telegram.fallback.
  destruct (Telegram.bot tm) eqn:Hb;
    [|destruct (Telegram.init_result e); simpl; try discriminate];
    (destruct (Qltb _ _); simpl; [discriminate|]);
    repeat match goal with
      | |- context [Telegram.bot ?t] => destruct (Telegram.bot t); simpl
      | |- context [Telegram.transport ?t] => destruct (Telegram.transport t); simpl
      | |- context [Telegram.log_open_ok ?t] => destruct (Telegram.log_open_ok t); simpl
      | |- context [Telegram.mkdir_ok ?t] => destruct (Telegram.mkdir_ok t); simpl
      | |- context [match ?p with Some _ => _ | None => _ end] => destruct p; simpl
      | |- context [Telegram.rename_ok ?t] => destruct (Telegram.rename_ok t); simpl
      end; auto; discriminate.
Qed.

(** C7. Every call of [trigger_alert] appends exactly one event to the
    history, whatever the screenshot, the sound and the notification
    channel do; the event carries no screenshot path when screenshots are
    disabled or the write failed, and the call returns that event unless
    the local fallback of the channel itself cannot write. *)
Theorem trigger_alert_appends_one e d cam cam_name who face conf frame s :
  let r := trigger_alert e d cam cam_name who face conf frame s in
  exists ev,
    alert_history (system r) = alert_history s ++ [ev] /\
    length (alert_history (system r)) = S (length (alert_history s)) /\
    (camera_id ev = cam /\ camera_name ev = cam_name /\ face_name ev = who /\
     confidence ev = conf /\ timestamp ev = now e) /\
    (screenshot_enabled s = false -> screenshot_path ev = None) /\
    (shot e <> ShotSaved -> screenshot_path ev = None) /\
    (screenshot_enabled s = true -> shot e = ShotSaved ->
       screenshot_path ev = Some (screenshot_file s e cam who)) /\
    (Telegram.log_open_ok (tg e) = true -> Telegram.mkdir_ok (tg e) = true ->
       returned r = Some ev).
Proof.
  intros r.
  destruct (trigger_alert_history e d cam cam_name who face conf frame s)
    as (Hh & Hr & Hn).
  fold r in Hh, Hr, Hn.
  eexists. split; [exact Hh|].
  split; [rewrite Hh, length_app; simpl; lia|].
  split; [repeat split|].
  unfold shot_step, _capture_screenshot. simpl.
  split; [intros ->; reflexivity|].
  split; [intros Hs; destruct (screenshot_enabled s); [|reflexivity];
          destruct (shot e); [contradiction|reflexivity|reflexivity]|].
  split; [intros -> ->; reflexivity|].
  intros Hlog Hmk.
  destruct Hr as [Hr|Hr]; [exact Hr|].
  exfalso. subst r. unfold trigger_alert in Hr.
  destruct (shot_step e d frame cam who s) as [[p d1] evs1].
  destruct (telegram s) as [tm|]; [|discriminate Hr].
  destruct (Telegram.raised _) eqn:Hraised; [|discriminate Hr].
  apply send_alert_raised in Hraised. destruct Hraised; congruence.
Qed.

(** After [enable_screenshots(False)] the event has no screenshot path
    and the history still grows by one. *)
Lemma trigger_alert_without_screenshots e d cam cam_name who face conf frame s :
  let r := trigger_alert e d cam cam_name who face conf frame
             (enable_screenshots false s) in
  exists ev,
    alert_history (system r) = alert_history s ++ [ev] /\
    screenshot_path ev = None.
Proof.
  intros r.
  destruct (trigger_alert_history e d cam cam_name who face conf frame
              (enable_screenshots false s)) as (Hh & _).
  eexists. split; [exact Hh|reflexivity].
Qed.

End Dispatch.

Section DispatchExamples.
Import FaceDetection AlertSystem Examples.

Lemma trigger_alert_appends_one_witness :
  exists ev,
    alert_history (system (trigger (call_at 1000 Telegram.SendRaises) empty_disk
                             (enable_screenshots false fresh_system))) = [ev] /\
    screenshot_path ev = None /\
    returned (trigger (call_at 1000 Telegram.SendRaises) empty_disk
                (enable_screenshots false fresh_system)) = Some ev.
Proof.
  destruct (trigger_alert_appends_one
              (call_env (call_at 1000 Telegram.SendRaises)) empty_disk 1 "Lobby"
              "Alice" alice_face 1%R [] (enable_screenshots false fresh_system))
    as (ev & Hh & _ & _ & Hoff & _ & _ & Hret).
  exists ev. split; [exact Hh|]. split; [apply Hoff; reflexivity|].
  apply Hret; reflexivity.
Defined.

End DispatchExamples.

(** ** The log store *)

Section LogStore.
Import AlertSystem Database.

(** C10. An age of 0 is stored as [NULL]: the row written for an event
    whose age is 0 is the row written for the same event without an age
    estimate, and so is the table after [log_face_event]; an empty gender
    is stored as [NULL] in the same way. *)
Theorem log_face_event_age_zero (sqlite_ok : bool) (event : AlertEvent)
    (db : FaceDatabase) :
  (ev_age event = Some 0 ->
     r_age (row_of_event event) = None /\
     row_of_event event = row_of_event (without_age event) /\
     log_face_event sqlite_ok event db =
       log_face_event sqlite_ok (without_age event) db) /\
  (ev_gender event = Some EmptyString ->
     r_gender (row_of_event event) = None /\
     row_of_event event = row_of_event (without_gender event) /\
     log_face_event sqlite_ok event db =
       log_face_event sqlite_ok (without_gender event) db).
Proof.
  unfold log_face_event, row_of_event, without_age, without_gender.
  destruct event as [cam cname fname conf ts a g p]; simpl.
  split; intros ->; simpl; repeat split; reflexivity.
Qed.

(** Any other age is stored as it is. *)
Lemma log_face_event_age_nonzero (event : AlertEvent) (a : Z) :
  ev_age event = Some a -> a <> 0 -> r_age (row_of_event event) = Some a.
Proof.
  unfold row_of_event. intros -> Ha. simpl.
  destruct (Z.eqb_spec a 0); [contradiction|reflexivity].
Qed.

End LogStore.

Section LogStoreExamples.
Import AlertSystem Database Examples.

Lemma log_face_event_age_zero_witness :
  log_face_event true newborn {| face_logs := []; last_id := 0 |} =
    log_face_event true (without_age newborn) {| face_logs := []; last_id := 0 |} /\
  r_gender (row_of_event newborn) = None.
Proof.
  destruct (log_face_event_age_zero true newborn {| face_logs := []; last_id := 0 |})
    as [Hage Hgender].
  split.
  - apply Hage. reflexivity.
  - apply Hgender. reflexivity.
Defined.

End LogStoreExamples.

(** ** The processing-interval gate of the driver *)

Section Gate.
Import MainWindow.

Context {App : Type} (process_frame : Z -> Frame -> App -> App * Frame).
Variable clock : Z -> Q.

(** One turn of the loop. *)
Lemma update_camera_spec (t : Q) (cam : Z) (frame : Frame) (w : MainWindow App) :
  let r := update_camera process_frame t cam frame w in
  processing_interval (fst r) = processing_interval w /\
  Forall (fun ev => event_cam ev = cam) (snd r) /\
  (forall cam', cam' <> cam ->
     last_processed (fst r) !! cam' = last_processed w !! cam') /\
  (due t cam w ->
     EvProcess cam frame ∈ snd r /\ displayed cam (snd r) /\
     last_processed (fst r) !! cam = Some t) /\
  (~ due t cam w ->
     snd r = [EvDisplay cam frame] /\
     last_processed (fst r) = last_processed w).
Proof.
  unfold update_camera, due.
  destruct (Qltb _ _) eqn:Hlt; simpl.
  - apply Qltb_true in Hlt.
    split; [reflexivity|]. split; [repeat constructor|].
    split; [reflexivity|]. split; [|auto].
    intros Hd. exfalso. apply (Qlt_not_le _ _ Hlt Hd).
  - apply Qltb_false in Hlt.
    destruct (process_frame cam frame (app w)) as [app' processed]. simpl.
    split; [reflexivity|]. split; [repeat constructor|].
    split; [intros cam' Hne; apply lookup_insert_ne; congruence|].
    split; [|intros Hd; contradiction].
    intros _. split; [apply list_elem_of_here|].
    split; [exists processed; apply list_elem_of_further, list_elem_of_here|].
    apply lookup_insert_eq.
Qed.

Lemma update_loop_acc (frames : list (Z * Frame)) (w : MainWindow App)
    (acc : list event) :
  foldl (fun acc cf =>
           let '(w', evs) := update_camera process_frame (clock (fst cf)) (fst cf)
                               (snd cf) (fst acc) in
           (w', snd acc ++ evs)) (w, acc) frames =
  (fst (update_loop process_frame clock frames w),
   acc ++ snd (update_loop process_frame clock frames w)).
Proof.
  unfold update_loop. revert w acc.
  induction frames as [|[cam frame] frames IH]; intros w acc; simpl.
  - rewrite app_nil_r. reflexivity.
  - destruct (update_camera process_frame (clock cam) cam frame w) as [w1 evs1].
    simpl. rewrite (IH w1 (acc ++ evs1)), (IH w1 evs1). simpl.
    rewrite <- List.app_assoc. reflexivity.
Qed.

Lemma update_loop_cons (cam : Z) (frame : Frame) (frames : list (Z * Frame))
    (w : MainWindow App) :
  update_loop process_frame clock ((cam, frame) :: frames) w =
  let r1 := update_camera process_frame (clock cam) cam frame w in
  let r2 := update_loop process_frame clock frames (fst r1) in
  (fst r2, snd r1 ++ snd r2).
Proof.
  unfold update_loop at 1. simpl.
  destruct (update_camera process_frame (clock cam) cam frame w) as [w1 evs1].
  simpl. apply update_loop_acc.
Qed.

(** A camera without a frame in this tick is left alone. *)
Lemma update_loop_other (frames : list (Z * Frame)) (w : MainWindow App) (cam : Z) :
  cam ∉ frames.*1 ->
  let r := update_loop process_frame clock frames w in
  processing_interval (fst r) = processing_interval w /\
  last_processed (fst r) !! cam = last_processed w !! cam /\
  Forall (fun ev => event_cam ev <> cam) (snd r).
Proof.
  revert w. induction frames as [|[c f] frames IH]; intros w Hnot.
  - simpl. auto.
  - rewrite update_loop_cons. cbv zeta.
    apply not_elem_of_cons in Hnot as [Hne Hnot]. simpl in Hne.
    destruct (update_camera_spec (clock c) c f w) as (Hi & Hev & Hoth & _).
    destruct (IH (fst (update_camera process_frame (clock c) c f w)) Hnot)
      as (Hi' & Hl' & Hev').
    simpl. split; [congruence|]. split; [rewrite Hl'; apply Hoth; exact Hne|].
    apply Forall_app. split; [|exact Hev'].
    eapply Forall_impl; [exact Hev|]. simpl. intros ev ->. congruence.
Qed.

Lemma not_detected_other (cam : Z) (evs : list event) :
  Forall (fun ev => event_cam ev <> cam) evs -> ~ detected cam evs.
Proof.
  intros Hall [frame Hin]. rewrite Forall_forall in Hall.
  apply (Hall _ Hin). reflexivity.
Qed.

(** A camera with a frame in this tick: its turn decides. *)
Lemma update_loop_at (frames : list (Z * Frame)) (w : MainWindow App)
    (cam : Z) (frame : Frame) :
  NoDup frames.*1 ->
  (cam, frame) ∈ frames ->
  let r := update_loop process_frame clock frames w in
  (due (clock cam) cam w ->
     EvProcess cam frame ∈ snd r /\ displayed cam (snd r) /\
     last_processed (fst r) !! cam = Some (clock cam)) /\
  (~ due (clock cam) cam w ->
     EvDisplay cam frame ∈ snd r /\ ~ detected cam (snd r) /\
     last_processed (fst r) !! cam = last_processed w !! cam).
Proof.
  revert w. induction frames as [|[c f] frames IH]; intros w Hnd Hin.
  - inversion Hin.
  - rewrite update_loop_cons. cbv zeta. simpl in Hnd.
    apply NoDup_cons in Hnd as [Hc Hnd].
    destruct (update_camera_spec (clock c) c f w) as (Hi & Hev & Hoth & Hdue & Hnot).
    set (r1 := update_camera process_frame (clock c) c f w) in *.
    apply elem_of_cons in Hin as [Heq|Hin].
    + injection Heq as -> ->.
      destruct (update_loop_other frames (fst r1) c Hc) as (_ & Hl & Hev').
      simpl. split.
      * intros Hd. destruct (Hdue Hd) as (Hp & [g Hg] & Hlp).
        split; [apply elem_of_app; left; exact Hp|].
        split; [exists g; apply elem_of_app; left; exact Hg|].
        rewrite Hl. exact Hlp.
      * intros Hd. destruct (Hnot Hd) as (Hs & Hlp).
        split; [apply elem_of_app; left; rewrite Hs; apply list_elem_of_here|].
        split; [|rewrite Hl, Hlp; reflexivity].
        intros [g Hg]. apply elem_of_app in Hg as [Hg|Hg].
        -- rewrite Hs in Hg. apply list_elem_of_singleton in Hg. discriminate Hg.
        -- apply (not_detected_other c _ Hev'). exists g. exact Hg.
    + assert (Hne : cam <> c).
      { intros ->. apply Hc. apply list_elem_of_fmap. exists (c, frame). auto. }
      destruct (IH (fst r1) Hnd Hin) as (Hd1 & Hn1).
      assert (Hsame : due (clock cam) cam (fst r1) <-> due (clock cam) cam w).
      { unfold due. rewrite Hi, (Hoth cam Hne). reflexivity. }
      simpl. split.
      * intros Hd. destruct (Hd1 (proj2 Hsame Hd)) as (Hp & [g Hg] & Hlp).
        split; [apply elem_of_app; right; exact Hp|].
        split; [exists g; apply elem_of_app; right; exact Hg|exact Hlp].
      * intros Hd. assert (Hd' : ~ due (clock cam) cam (fst r1)) by (rewrite Hsame; exact Hd).
        destruct (Hn1 Hd') as (Hp & Hnd' & Hlp).
        split; [apply elem_of_app; right; exact Hp|].
        split; [|rewrite Hlp; apply Hoth; exact Hne].
        intros [g Hg]. apply elem_of_app in Hg as [Hg|Hg].
        -- rewrite Forall_forall in Hev. apply Hev in Hg. simpl in Hg. congruence.
        -- apply Hnd'. exists g. exact Hg.
Qed.

Lemma due_dec (t : Q) (cam : Z) (w : MainWindow App) :
  due t cam w \/ ~ due t cam w.
Proof.
  unfold due.
  destruct (Qlt_le_dec (t - default 0%Q (last_processed w !! cam))
              (processing_interval w)) as [Hlt|Hle]; [right|left; exact Hle].
  apply Qlt_not_le. exact Hlt.
Qed.

(** The frames of a tick are the heads of the queues. *)
Lemma get_all_frames_lookup (cm : CameraManager.CameraManager) (cam : Z) :
  fst (CameraManager.get_all_frames cm) !! cam =
    CameraManager.frame_queues cm !! cam ≫= head.
Proof. unfold CameraManager.get_all_frames. simpl. apply lookup_omap. Qed.

(** C8. In a tick, detection runs on the frame of a camera exactly when
    the camera has a frame and the time since its last-processed timestamp
    is at least the processing interval; a frame that arrives within the
    interval is displayed as it is and not run through detection; and the
    last-processed timestamp of a camera is set to the clock reading when
    detection ran and is unchanged otherwise. *)
Theorem update_gates_detection (cm : CameraManager.CameraManager)
    (w : MainWindow App) (cam : Z) :
  let r := update process_frame clock cm w in
  let evs := snd r in
  let w' := snd (fst r) in
  let frames := fst (CameraManager.get_all_frames cm) in
  (detected cam evs <-> is_Some (frames !! cam) /\ due (clock cam) cam w) /\
  (forall frame, frames !! cam = Some frame -> ~ due (clock cam) cam w ->
     EvDisplay cam frame ∈ evs /\ ~ detected cam evs) /\
  (is_Some (frames !! cam) -> displayed cam evs) /\
  (detected cam evs -> last_processed w' !! cam = Some (clock cam)) /\
  (~ detected cam evs -> last_processed w' !! cam = last_processed w !! cam).
Proof.
  unfold update. destruct (CameraManager.get_all_frames cm) as [frames cm'].
  simpl fst.
  pose proof (NoDup_fst_map_to_list frames) as Hnd.
  destruct (update_loop process_frame clock (map_to_list frames) w) as [w' evs] eqn:Hloop.
  simpl.
  destruct (frames !! cam) as [frame|] eqn:Hf.
  - apply elem_of_map_to_list in Hf.
    pose proof (update_loop_at (map_to_list frames) w cam frame Hnd Hf) as Hat.
    rewrite Hloop in Hat. simpl in Hat. destruct Hat as [Hd Hn].
    destruct (due_dec (clock cam) cam w) as [Hdue|Hdue].
    + destruct (Hd Hdue) as (Hp & Hdisp & Hlp).
      assert (Hdet : detected cam evs) by (exists frame; exact Hp).
      split; [split; [intros _; split; [eauto|exact Hdue]|intros _; exact Hdet]|].
      split; [intros g _ Hno; contradiction|].
      split; [intros _; exact Hdisp|].
      split; [intros _; exact Hlp|intros Hno; contradiction].
    + destruct (Hn Hdue) as (Hp & Hnodet & Hlp).
      split; [split; [intros Hdet; contradiction|intros [_ Hyes]; contradiction]|].
      split; [intros g Hg _; injection Hg as <-; split; assumption|].
      split; [intros _; exists frame; exact Hp|].
      split; [intros Hdet; contradiction|intros _; exact Hlp].
  - assert (Hnot : cam ∉ (map_to_list frames).*1).
    { intros Hin. apply list_elem_of_fmap in Hin as [[c g] [Hc Hin]].
      simpl in Hc. subst c. apply elem_of_map_to_list in Hin. congruence. }
    pose proof (update_loop_other (map_to_list frames) w cam Hnot) as Hoth.
    rewrite Hloop in Hoth. simpl in Hoth. destruct Hoth as (_ & Hlp & Hev).
    pose proof (not_detected_other cam evs Hev) as Hnodet.
    split; [split; [intros Hdet; contradiction|intros [[g Hg] _]; discriminate Hg]|].
    split; [intros g Hg; discriminate Hg|].
    split; [intros [g Hg]; discriminate Hg|].
    split; [intros Hdet; contradiction|intros _; exact Hlp].
Qed.

End Gate.

Section GateExamples.
Import MainWindow Examples.

Lemma update_gates_detection_witness :
  let r := update no_detector tick_clock both_running tick_window in
  detected 2 (snd r) /\
  EvDisplay 1 [1%N] ∈ snd r /\ ~ detected 1 (snd r) /\
  last_processed (snd (fst r)) !! 2 = Some 11%Q.
Proof.
  intros r.
  destruct (update_gates_detection no_detector tick_clock both_running tick_window 2)
    as (Hiff & _ & _ & Hset & _).
  destruct (update_gates_detection no_detector tick_clock both_running tick_window 1)
    as (_ & Hin & _).
  assert (Hd2 : detected 2 (snd r)).
  { apply Hiff. split.
    - exists [2%N]. vm_compute. reflexivity.
    - vm_compute. discriminate. }
  split; [exact Hd2|].
  split; [|split].
  - apply (Hin [1%N]); [vm_compute; reflexivity|].
    vm_compute. intros H. apply H. reflexivity.
  - apply (Hin [1%N]); [vm_compute; reflexivity|].
    vm_compute. intros H. apply H. reflexivity.
  - apply Hset. exact Hd2.
Defined.

End GateExamples.

(** ** The order of [float32] *)

(** Case analysis on floats and on the comparisons of their exponents and
    mantissas. *)
Ltac float_cases :=
  repeat match goal with
  | x : spec_float |- _ => destruct x as [[|]|[|]| |[|] ? ?]
  end.

Ltac compare_cases :=
  repeat match goal with
  | H : context [Z.compare ?a ?b] |- _ => destruct (Z.compare_spec a b)
  | |- context [Z.compare ?a ?b] => destruct (Z.compare_spec a b)
  | H : context [Pos.compare_cont Eq ?a ?b] |- _ =>
      change (Pos.compare_cont Eq a b) with (Pos.compare a b) in H;
      destruct (Pos.compare_spec a b)
  | |- context [Pos.compare_cont Eq ?a ?b] =>
      change (Pos.compare_cont Eq a b) with (Pos.compare a b);
      destruct (Pos.compare_spec a b)
  end.

Ltac float_order :=
  unfold SFleb, SFltb, SFcompare, FaceDetection.is_nan in *; float_cases;
  simpl in *; try discriminate; try reflexivity;
  compare_cases; simpl in *; subst;
  try discriminate; try reflexivity; try lia.

Section FloatOrder.
Import FaceDetection.




Lemma SFleb_trans (x y z : float32) :
  SFleb x y = true -> SFleb y z = true -> SFleb x z = true.
Proof. intros H1 H2. float_order. Qed.



(** Nothing compares with [NaN]. *)
Lemma SFleb_nan_l (x : float32) : SFleb S754_nan x = false.
Proof. reflexivity. Qed.


End FloatOrder.

(** ** Zeros in the arithmetic *)

Section FloatZero.
Import FaceDetection.

Lemma is_zero_zero_or_nan (x : float32) : is_zero x = true -> zero_or_nan x = true.
Proof. unfold zero_or_nan. intros ->. reflexivity. Qed.

(** The product of a zero and a float is a zero, or [NaN] when the float
    is an infinity or [NaN]. *)
Lemma mul_zero_l (x y : float32) :
  is_zero x = true -> zero_or_nan (f32_mul x y) = true.
Proof. destruct x, y; simpl; try discriminate; reflexivity. Qed.

Lemma mul_zero_r (x y : float32) :
  is_zero y = true -> zero_or_nan (f32_mul x y) = true.
Proof. destruct x, y; simpl; try discriminate; reflexivity. Qed.

Lemma mul_zero_or_nan_l (x y : float32) :
  zero_or_nan x = true -> zero_or_nan (f32_mul x y) = true.
Proof. destruct x, y; simpl; try discriminate; reflexivity. Qed.

Lemma mul_zero_or_nan_r (x y : float32) :
  zero_or_nan y = true -> zero_or_nan (f32_mul x y) = true.
Proof. destruct x, y; simpl; try discriminate; reflexivity. Qed.

Lemma mul_zeros (x y : float32) :
  is_zero x = true -> is_zero y = true -> is_zero (f32_mul x y) = true.
Proof. destruct x, y; simpl; try discriminate; reflexivity. Qed.

Lemma add_zero_or_nan (a b : float32) :
  zero_or_nan a = true -> zero_or_nan b = true ->
  zero_or_nan (f32_add a b) = true.
Proof.
  destruct a as [[|]| | |], b as [[|]| | |]; simpl; try discriminate; reflexivity.
Qed.

Lemma add_zeros (a b : float32) :
  is_zero a = true -> is_zero b = true -> is_zero (f32_add a b) = true.
Proof.
  destruct a as [[|]| | |], b as [[|]| | |]; simpl; try discriminate; reflexivity.
Qed.

Lemma sqrt_zero (x : float32) : is_zero x = true -> is_zero (f32_sqrt x) = true.
Proof. destruct x; simpl; try discriminate; reflexivity. Qed.

(** A quotient of zeros is [NaN], and so is one that has a [NaN] in it. *)
Lemma div_zero_or_nan (a b : float32) :
  zero_or_nan a = true -> zero_or_nan b = true -> f32_div a b = S754_nan.
Proof. destruct a, b; simpl; try discriminate; reflexivity. Qed.

Lemma dot_from_zero_r (k e : list float32) : forall acc : float32,
  zero_or_nan acc = true -> Forall (fun y => is_zero y = true) e ->
  zero_or_nan (dot_from acc k e) = true.
Proof.
  revert e. induction k as [|x k IH]; intros e acc Hacc He; [exact Hacc|].
  destruct e as [|y e]; [exact Hacc|]. simpl.
  inversion He as [|? ? Hy He']; subst.
  apply IH; [|exact He'].
  apply add_zero_or_nan; [exact Hacc|apply mul_zero_r; exact Hy].
Qed.

Lemma dot_from_zero_l (k e : list float32) : forall acc : float32,
  zero_or_nan acc = true -> Forall (fun x => is_zero x = true) k ->
  zero_or_nan (dot_from acc k e) = true.
Proof.
  revert e. induction k as [|x k IH]; intros e acc Hacc Hk; [exact Hacc|].
  destruct e as [|y e]; [exact Hacc|]. simpl.
  inversion Hk as [|? ? Hx Hk']; subst.
  apply IH; [|exact Hk'].
  apply add_zero_or_nan; [exact Hacc|apply mul_zero_l; exact Hx].
Qed.

Lemma dot_from_zeros (e : list float32) : forall acc : float32,
  is_zero acc = true -> Forall (fun x => is_zero x = true) e ->
  is_zero (dot_from acc e e) = true.
Proof.
  induction e as [|x e IH]; intros acc Hacc He; [exact Hacc|]. simpl.
  inversion He as [|? ? Hx He']; subst.
  apply IH; [|exact He'].
  apply add_zeros; [exact Hacc|apply mul_zeros; exact Hx].
Qed.

(** The norm of a zero vector is zero. *)
Lemma norm_zeros (e : list float32) :
  Forall (fun x => is_zero x = true) e -> is_zero (norm e) = true.
Proof. intros He. apply sqrt_zero, dot_from_zeros; [reflexivity|exact He]. Qed.

(** The quotient by a zero norm: the detected vector is zero. *)
Lemma cosine_zero_vector (k e : list float32) :
  Forall (fun x => is_zero x = true) e -> cosine k e = S754_nan.
Proof.
  intros He. apply div_zero_or_nan.
  - apply dot_from_zero_r; [reflexivity|exact He].
  - apply mul_zero_r, norm_zeros, He.
Qed.

(** The same for a row of the gallery that is zero. *)
Lemma cosine_zero_row (k e : list float32) :
  Forall (fun x => is_zero x = true) k -> cosine k e = S754_nan.
Proof.
  intros Hk. apply div_zero_or_nan.
  - apply dot_from_zero_l; [reflexivity|exact Hk].
  - apply mul_zero_l, norm_zeros, Hk.
Qed.

End FloatZero.

(** ** [np.argmax] *)

Section Argmax.
Import FaceDetection.



(** As soon as the first value is [NaN], [np.argmax] is 0. *)
Lemma argmax_nan_first (l : list float32) : argmax (S754_nan :: l) = Some 0%nat.
Proof. destruct l; reflexivity. Qed.

Lemma argmax_from_nan (l : list float32) :
  forall (p : list float32) (mp : float32) (mi i : nat),
    length p = i -> p !! mi = Some mp -> mp = S754_nan \/ S754_nan ∈ l ->
    (p ++ l) !! argmax_from mp mi i l = Some S754_nan.
Proof.
  induction l as [|x l IH]; intros p mp mi i Hlen Hmi Hnan; simpl.
  - destruct Hnan as [->|Hin]; [|inversion Hin].
    rewrite app_nil_r. exact Hmi.
  - destruct (is_nan mp) eqn:Hmp.
    + destruct mp; try discriminate Hmp. apply lookup_app_l_Some. exact Hmi.
    + assert (Hin : S754_nan ∈ x :: l).
      { destruct Hnan as [->|Hin]; [discriminate Hmp|exact Hin]. }
      replace (p ++ x :: l) with ((p ++ [x]) ++ l)
        by (rewrite <- app_assoc; reflexivity).
      destruct (SFleb x mp) eqn:Hle.
      * apply IH.
        -- rewrite length_app. simpl. lia.
        -- apply lookup_app_l_Some. exact Hmi.
        -- right. apply elem_of_cons in Hin as [<-|Hin];
             [rewrite SFleb_nan_l in Hle; discriminate Hle|exact Hin].
      * apply IH.
        -- rewrite length_app. simpl. lia.
        -- rewrite lookup_app_r by lia. rewrite Hlen, Nat.sub_diag. reflexivity.
        -- apply elem_of_cons in Hin as [<-|Hin]; [left; reflexivity|right; exact Hin].
Qed.

(** When a list holds a [NaN], [np.argmax] points at a [NaN]. *)
Lemma argmax_nan (l : list float32) :
  S754_nan ∈ l -> exists i : nat, argmax l = Some i /\ l !! i = Some S754_nan.
Proof.
  destruct l as [|x l]; [intros H; inversion H|]. intros Hin. simpl.
  eexists. split; [reflexivity|].
  apply (argmax_from_nan l [x] x 0%nat 1%nat); [reflexivity|reflexivity|].
  apply elem_of_cons in Hin as [<-|Hin]; [left; reflexivity|right; exact Hin].
Qed.

End Argmax.

(** ** The matrix of the gallery *)

Section Matrix.
Import FaceDetection.

Lemma matrix_rows (d : nat) (known_faces : list KnownFace)
    (rows : list (list float32)) :
  matrix d known_faces = Some rows ->
  map kf_embedding known_faces = map Some rows /\
  Forall (fun row => length row = d) rows.
Proof.
  revert rows. induction known_faces as [|k ks IH]; intros rows; simpl.
  - intros [= <-]. split; [reflexivity|constructor].
  - destruct (kf_embedding k) as [row|]; [|discriminate].
    destruct (Nat.eqb_spec (length row) d) as [Hlen|]; [|discriminate].
    destruct (matrix d ks) as [rows'|]; [|discriminate].
    intros [= <-]. destruct (IH rows' eq_refl) as [Hm Hf].
    split; [simpl; rewrite Hm; reflexivity|constructor; assumption].
Qed.

Lemma known_embeddings_rows (known_faces : list KnownFace) (d : nat)
    (rows : list (list float32)) :
  known_embeddings known_faces = Some (d, rows) ->
  map kf_embedding known_faces = map Some rows /\
  Forall (fun row => length row = d) rows.
Proof.
  unfold known_embeddings. destruct known_faces as [|k ks].
  - intros [= <- <-]. split; [reflexivity|constructor].
  - destruct (kf_embedding k) as [row|] eqn:Hk; [|discriminate].
    destruct (matrix (length row) (k :: ks)) as [rows'|] eqn:Hm; [|discriminate].
    intros [= <- <-]. apply matrix_rows. exact Hm.
Qed.

(** Row [i] of the matrix is the embedding of entry [i] of the gallery. *)
Lemma known_embeddings_lookup (known_faces : list KnownFace) (d : nat)
    (rows : list (list float32)) (i : nat) (row : list float32) :
  known_embeddings known_faces = Some (d, rows) ->
  rows !! i = Some row ->
  exists kf, known_faces !! i = Some kf /\ kf_embedding kf = Some row.
Proof.
  intros Hk Hi. apply known_embeddings_rows in Hk as [Hm _].
  assert (H : map kf_embedding known_faces !! i = Some (Some row)).
  { rewrite Hm, list_lookup_fmap, Hi. reflexivity. }
  rewrite list_lookup_fmap in H.
  destruct (known_faces !! i) as [kf|]; [|discriminate].
  exists kf. split; [reflexivity|]. simpl in H. congruence.
Qed.


End Matrix.

(** ** The matcher *)

Section Matcher.
Import FaceDetection.


(** A detection the guard catches. *)
Lemma recognize_one_no_embedding (threshold : Q) (known_faces : list KnownFace)
    (d : nat) (rows : list (list float32)) (face : Face) :
  embedding face = None \/ embedding face = Some [] ->
  recognize_one threshold known_faces d rows face = Some (face, None, zero32).
Proof. unfold recognize_one. intros [-> | ->]; reflexivity. Qed.


(** A degenerate detection that the guard catches: no embedding, or an
    empty one, is unmatched with similarity 0.0 against any gallery. *)
Lemma recognize_faces_no_embedding (threshold : Q) (known_faces : list KnownFace)
    (face : Face) :
  embedding face = None \/ embedding face = Some [] ->
  recognize_faces threshold known_faces [face] = [(face, None, zero32)].
Proof.
  intros Hface. unfold recognize_faces.
  destruct known_faces as [|k0 ks]; [reflexivity|].
  destruct (known_embeddings (k0 :: ks)) as [[d rows]|]; [|reflexivity].
  simpl. rewrite (recognize_one_no_embedding _ _ _ _ _ Hface). reflexivity.
Qed.

(** With an empty gallery every detection is unmatched with 0.0. *)
Lemma recognize_faces_empty_gallery (threshold : Q) (faces : list Face) :
  recognize_faces threshold [] faces = map (fun face => (face, None, zero32)) faces.
Proof. reflexivity. Qed.

(** A detection whose embedding is the zero vector passes the guard: every
    quotient is 0/0, and the detection is reported with similarity [NaN]. *)
Lemma recognize_faces_zero_vector (threshold : Q) (known_faces : list KnownFace)
    (d : nat) (rows : list (list float32)) (face : Face) (e : list float32) :
  known_faces <> [] ->
  known_embeddings known_faces = Some (d, rows) ->
  embedding face = Some e -> length e = d -> e <> [] ->
  Forall (fun x => is_zero x = true) e ->
  recognize_faces threshold known_faces [face] = [(face, None, S754_nan)].
Proof.
  intros Hne Hk Hface Hlen Hnil Hzero.
  destruct (known_embeddings_rows _ _ _ Hk) as [Hm _].
  destruct known_faces as [|k0 ks]; [congruence|].
  destruct rows as [|r0 rows]; [discriminate Hm|].
  unfold recognize_faces. rewrite Hk. simpl. unfold recognize_one.
  rewrite Hface.
  destruct (Nat.eqb_spec (length e) 0) as [H0|_].
  { destruct e; [congruence|discriminate H0]. }
  rewrite Hlen, Nat.eqb_refl. simpl negb. cbv iota.
  unfold similarities. simpl map.
  rewrite (cosine_zero_vector r0 e Hzero), argmax_nan_first. reflexivity.
Qed.

End Matcher.

Section MatcherExamples.
Import FaceDetection Examples.



(** C4, on the code. A detection whose embedding is the zero vector,
    matched against a gallery of one entry: the quotient 0/0 is taken and the
    detection is reported unmatched with similarity [NaN], not 0.0. *)
Theorem zero_embedding_similarity_nan (threshold : Q) :
  recognize_faces threshold [alice_known] [zero_face] =
    [(zero_face, None, S754_nan)] /\
  cosine [float32_of_Z 1; float32_of_Z 0] [float32_of_Z 0; float32_of_Z 0] =
    S754_nan.
Proof.
  split.
  - apply (recognize_faces_zero_vector threshold [alice_known] 2
             [[float32_of_Z 1; float32_of_Z 0]] zero_face
             [float32_of_Z 0; float32_of_Z 0]); try reflexivity; try discriminate.
    repeat constructor.
  - apply cosine_zero_vector. repeat constructor.
Qed.

End MatcherExamples.

(** ** The names of the gallery *)

Section Gallery.
Import FaceDetection.

(** Enrollment appends one entry under the given name and looks at no
    entry that is there. *)
Lemma add_known_face_names mkdir_ok imwrite_ok faces reread now new_name save_dir
    known_faces files :
  let r := add_known_face mkdir_ok imwrite_ok faces reread now new_name save_dir
             known_faces files in
  (snd r = true -> names (fst (fst r)) = names known_faces ++ [new_name]) /\
  (snd r = false -> fst (fst r) = known_faces).
Proof.
  unfold add_known_face.
  destruct mkdir_ok; simpl; [|split; [discriminate|reflexivity]].
  destruct faces as [|face faces']; simpl; [split; [discriminate|reflexivity]|].
  split; [|discriminate]. intros _. unfold names. rewrite map_app. reflexivity.
Qed.

(** Enrollment keeps the names distinct exactly when the name is new. *)
Lemma add_known_face_nodup mkdir_ok imwrite_ok faces reread now new_name save_dir
    known_faces files :
  let r := add_known_face mkdir_ok imwrite_ok faces reread now new_name save_dir
             known_faces files in
  snd r = true -> NoDup (names known_faces) ->
  (NoDup (names (fst (fst r))) <-> new_name ∉ names known_faces).
Proof.
  intros r Hok Hnd.
  destruct (add_known_face_names mkdir_ok imwrite_ok faces reread now new_name
              save_dir known_faces files) as [Hn _].
  fold r in Hn. rewrite (Hn Hok). rewrite NoDup_app. split.
  - intros (_ & Hdis & _) Hin. apply (Hdis _ Hin). apply list_elem_of_here.
  - intros Hnot. split; [exact Hnd|]. split; [|apply NoDup_singleton].
    intros x Hx Hx'. apply list_elem_of_singleton in Hx'. subst x. contradiction.
Qed.

(** A reload names every entry after the stem of its file. *)
Lemma load_known_faces_names dir files known_faces :
  names (load_known_faces dir (Some files) known_faces) =
    concat (map (fun f => names (load_entry dir f)) files).
Proof.
  unfold load_known_faces, names.
  induction files as [|f files IH]; [reflexivity|].
  simpl. rewrite map_app, IH. reflexivity.
Qed.

End Gallery.

Section GalleryExamples.
Import FaceDetection Examples.

(** C9, on the code. Two enrollments under one name through the dialog,
    five seconds apart: the guard of the dialog looks for a file
    [Alice.*], the file written is [Alice_<seconds>.jpg], so the second
    enrollment goes through and the gallery holds two entries named
    [Alice]. A reload of a directory with [Alice.jpg] and [Alice.PNG]
    gives two entries named [Alice] as well. *)
Theorem enrollment_twice_duplicates_name :
  let r1 := add_face true true [alice_face] (Detected [alice_face]) 100%Q
              "Alice" "known_faces" [] [] in
  let r2 := add_face true true [alice_face] (Detected [alice_face]) 105%Q
              "Alice" "known_faces" (fst (fst r1)) (snd (fst r1)) in
  (snd r1 = true /\ snd r2 = true) /\
  map file_name (snd (fst r2)) = ["Alice_100.jpg"; "Alice_105.jpg"] /\
  names (fst (fst r2)) = ["Alice"; "Alice"] /\
  ~ NoDup (names (fst (fst r2))) /\
  names (load_known_faces "known_faces" (Some two_files_one_stem) []) =
    ["Alice"; "Alice"].
Proof.
  vm_compute. split; [split; reflexivity|]. split; [reflexivity|].
  split; [reflexivity|]. split; [|reflexivity].
  intros Hnd. apply NoDup_cons in Hnd as [Hnot _].
  apply Hnot. apply list_elem_of_here.
Qed.

End GalleryExamples.

(** ** The capture supervisor *)

Section Supervisor.
Import CameraManager.

Lemma evolves_refl (l : list Thread) : evolves l l.
Proof. split; [reflexivity|]. intros t th H. exists th. auto. Qed.

Lemma evolves_trans (l1 l2 l3 : list Thread) :
  evolves l1 l2 -> evolves l2 l3 -> evolves l1 l3.
Proof.
  intros [Hlen12 H12] [Hlen23 H23]. split; [congruence|].
  intros t th Ht. destruct (H12 t th Ht) as (th2 & Ht2 & Hc2 & He2).
  destruct (H23 t th2 Ht2) as (th3 & Ht3 & Hc3 & He3).
  exists th3. split; [exact Ht3|]. split; [congruence|auto].
Qed.

Lemma evolves_set_phase (t : nat) (p : phase) (m : CameraManager) :
  (forall th, threads m !! t = Some th -> t_phase th = Exited -> p = Exited) ->
  evolves (threads m) (threads (set_phase t p m)).
Proof.
  intros Hp. unfold set_phase. simpl. split; [apply length_alter|].
  intros t' th Ht'. destruct (decide (t = t')) as [<-|Hne].
  - rewrite list_lookup_alter_eq, Ht'. simpl. eexists. split; [reflexivity|].
    simpl. split; [reflexivity|]. apply (Hp th Ht').
  - rewrite list_lookup_alter_ne by exact Hne. exists th. auto.
Qed.

(** What a step of a thread leaves alone. *)
Lemma thread_step_frame (dev : Device) (t : nat) (m : CameraManager) :
  let m' := thread_step dev t m in
  cameras m' = cameras m /\ capture_threads m' = capture_threads m /\
  stop_event m' = stop_event m /\ evolves (threads m) (threads m').
Proof.
  unfold thread_step.
  destruct (threads m !! t) as [th|] eqn:Ht;
    [|split; [|split; [|split]]; try reflexivity; apply evolves_refl].
  assert (Hset : forall p m0, threads m0 = threads m -> t_phase th <> Exited ->
            evolves (threads m) (threads (set_phase t p m0))).
  { intros p m0 Hm0 Hth. rewrite <- Hm0. apply evolves_set_phase.
    rewrite Hm0, Ht. intros th0 [= <-] Hex. contradiction. }
  destruct (t_phase th) eqn:Hp.
  - destruct (cameras m !! t_cam th); [destruct (opens dev)|];
      (split; [|split; [|split]]; try reflexivity;
       apply Hset; [reflexivity|congruence]).
  - destruct (stop_event m) eqn:Hs;
      (split; [|split; [|split]]; try reflexivity; simpl; auto;
       apply Hset; [reflexivity|congruence]).
  - destruct (read dev); [destruct (frame_queues m !! t_cam th)|];
      (split; [|split; [|split]]; try reflexivity;
       apply Hset; [reflexivity|congruence]).
  - split; [|split; [|split]]; try reflexivity; apply evolves_refl.
Qed.

Lemma run_frame (sched : list (nat * Device)) (m : CameraManager) :
  let m' := run sched m in
  cameras m' = cameras m /\ capture_threads m' = capture_threads m /\
  stop_event m' = stop_event m /\ evolves (threads m) (threads m').
Proof.
  unfold run. revert m. induction sched as [|[t dev] sched IH]; intros m; simpl.
  - split; [|split; [|split]]; try reflexivity. apply evolves_refl.
  - destruct (thread_step_frame dev t m) as (Hc & Hct & Hs & He).
    destruct (IH (thread_step dev t m)) as (Hc' & Hct' & Hs' & He').
    split; [|split; [|split]]; try congruence.
    eapply evolves_trans; eassumption.
Qed.

(** The teardown of a camera that is running. *)
Lemma cleanup_spec (sched : list (nat * Device)) (cam : Z) (m : CameraManager)
    (t : nat) :
  capture_threads m !! cam = Some t ->
  let m' := _cleanup_camera_thread sched cam m in
  cameras m' = cameras m /\
  capture_threads m' = delete cam (capture_threads m) /\
  stop_event m' = true /\
  frame_queues m' !! cam = None /\
  evolves (threads m) (threads m').
Proof.
  intros Ht. unfold _cleanup_camera_thread. rewrite Ht.
  set (m1 := {| cameras := cameras m;
                capture_threads := delete cam (capture_threads m);
                stop_event := true; frame_queues := frame_queues m;
                threads := threads m |}).
  destruct (run_frame sched m1) as (Hc & Hct & Hs & He).
  simpl. split; [exact Hc|]. split; [exact Hct|]. split; [exact Hs|].
  split; [apply lookup_delete_eq|exact He].
Qed.

(** The bookkeeping of the other cameras is not touched by a teardown. *)
Lemma cleanup_other (sched : list (nat * Device)) (cam other : Z)
    (m : CameraManager) :
  other <> cam ->
  capture_threads (_cleanup_camera_thread sched cam m) !! other =
    capture_threads m !! other.
Proof.
  intros Hne. destruct (capture_threads m !! cam) as [t|] eqn:Ht.
  - destruct (cleanup_spec sched cam m t Ht) as (_ & -> & _).
    apply lookup_delete_ne. congruence.
  - unfold _cleanup_camera_thread. rewrite Ht. reflexivity.
Qed.



(** The start of a camera that is not running. *)
Lemma start_camera_fresh (sched : list (nat * Device)) (cam : Z)
    (m : CameraManager) (cfg : CameraConfig) :
  cameras m !! cam = Some cfg -> enabled cfg = true ->
  capture_threads m !! cam = None ->
  start_camera sched cam m =
    ({| cameras := cameras m;
        capture_threads := <[cam := length (threads m)]> (capture_threads m);
        stop_event := false;
        frame_queues := <[cam := []]> (frame_queues m);
        threads := threads m ++ [ {| t_cam := cam; t_phase := Opening |} ] |},
     true).
Proof.
  intros Hcfg Hen Hnone. unfold start_camera.
  rewrite Hcfg, Hen, Hnone. reflexivity.
Qed.


End Supervisor.

Section SharedSignal.
Import CameraManager.

(** Stopping a camera sets the one stop signal of the manager and leaves
    it set; the entries of the other cameras stay in the bookkeeping. *)
Lemma stop_camera_signal (sched : list (nat * Device)) (cam : Z)
    (m : CameraManager) (t : nat) :
  capture_threads m !! cam = Some t ->
  let r := stop_camera sched cam m in
  snd r = true /\ stop_event (fst r) = true /\
  capture_threads (fst r) !! cam = None /\
  (forall other, other <> cam ->
     capture_threads (fst r) !! other = capture_threads m !! other).
Proof.
  intros Ht. unfold stop_camera. rewrite Ht. simpl.
  destruct (cleanup_spec sched cam m t Ht) as (_ & Hct & Hs & _).
  split; [reflexivity|]. split; [exact Hs|].
  split; [rewrite Hct; apply lookup_delete_eq|].
  intros other Hne. apply cleanup_other. exact Hne.
Qed.

(** Every capture thread tests that one signal: whichever camera it
    serves, a thread at its loop test exits when the signal is set. *)
Lemma loop_test_exits (dev : Device) (t : nat) (m : CameraManager) (th : Thread) :
  threads m !! t = Some th -> t_phase th = LoopTest -> stop_event m = true ->
  is_alive t (thread_step dev t m) = false.
Proof.
  intros Ht Hp Hs. unfold thread_step, is_alive. rewrite Ht, Hp, Hs.
  unfold set_phase. simpl. rewrite list_lookup_alter_eq, Ht. reflexivity.
Qed.

End SharedSignal.

Section SupervisorExamples.
Import CameraManager Examples.




(** C6, on the code. Cameras 1 and 2 are running and camera 1 is
    stopped: the shared stop signal is set and stays set, camera 2 is still
    in the bookkeeping and reported running, and at its next loop test the
    capture thread of camera 2 exits. *)
Theorem stop_camera_stops_the_others :
  let r := stop_camera [ (0%nat, device [1%N]) ] 1 both_running in
  let m := fst r in
  snd r = true /\
  capture_threads m !! 1 = None /\ frame_queues m !! 1 = None /\
  is_alive 0 m = false /\
  stop_event m = true /\
  capture_threads m !! 2 = Some 1%nat /\ running 2 m = true /\
  frame_queues m !! 2 = Some [[2%N]] /\
  threads m !! 1%nat = Some {| t_cam := 2; t_phase := LoopTest |} /\
  is_alive 1 (thread_step (device [2%N]) 1 m) = false.
Proof. vm_compute. repeat split; reflexivity. Qed.

End SupervisorExamples.

(** ** Calls of the channel in a row *)

Section Channel.
Import Telegram.

(** What one call does to the rate-limit state, whatever the state. *)
Lemma send_alert_state (e : Env) (d : Disk) (message : string)
    (image_path : option string) (tm : TelegramManager) :
  let r := send_alert e d message image_path tm in
  min_interval (manager r) = min_interval tm /\
  ((accepted r = true /\ window_open (clock e) tm /\
    last_sent (manager r) = clock e) \/
   (accepted r = false /\ last_sent (manager r) = last_sent tm)).
Proof.
  unfold send_alert, _initialize_bot, _send, window_open, accepted.
  destruct tm as [b ls mi]. simpl.
  destruct b; simpl.
  - destruct (Qltb (clock e - ls) (inject_Z mi)) eqn:Hlt; simpl; [auto|].
    apply Qltb_false in Hlt.
    destruct (transport e); simpl; auto.
    destruct (fallback e d message image_path) as [[d' evs'] exn'] eqn:Hf.
    simpl. split; [reflexivity|right]. split; [|reflexivity].
    unfold fallback in Hf.
    destruct (log_open_ok e); simpl in Hf; [|injection Hf as <- <- <-; reflexivity].
    destruct image_path as [p|]; [|injection Hf as <- <- <-; reflexivity].
    destruct (mkdir_ok e); simpl in Hf; [|injection Hf as <- <- <-; reflexivity].
    destruct (files d !! p); [destruct (rename_ok e)|];
      injection Hf as <- <- <-; reflexivity.
  - destruct (init_result e); simpl; auto;
      (destruct (Qltb (clock e - ls) (inject_Z mi)) eqn:Hlt; simpl; [auto|]);
      apply Qltb_false in Hlt.
    + destruct (transport e); simpl; auto.
      destruct (fallback e d message image_path) as [[d' evs'] exn'] eqn:Hf.
      simpl. split; [reflexivity|right]. split; [|reflexivity].
      unfold fallback in Hf.
      destruct (log_open_ok e); simpl in Hf; [|injection Hf as <- <- <-; reflexivity].
      destruct image_path as [p|]; [|injection Hf as <- <- <-; reflexivity].
      destruct (mkdir_ok e); simpl in Hf; [|injection Hf as <- <- <-; reflexivity].
      destruct (files d !! p); [destruct (rename_ok e)|];
      injection Hf as <- <- <-; reflexivity.
    + destruct (fallback e d message image_path) as [[d' evs'] exn'] eqn:Hf.
      simpl. split; [reflexivity|right]. split; [|reflexivity].
      unfold fallback in Hf.
      destruct (log_open_ok e); simpl in Hf; [|injection Hf as <- <- <-; reflexivity].
      destruct image_path as [p|]; [|injection Hf as <- <- <-; reflexivity].
      destruct (mkdir_ok e); simpl in Hf; [|injection Hf as <- <- <-; reflexivity].
      destruct (files d !! p); [destruct (rename_ok e)|];
      injection Hf as <- <- <-; reflexivity.
Qed.

(** Whatever the calls, their clocks and the answers of the transport: two
    messages the transport accepted one after the other are at least
    [min_interval] apart on the clock, and the first is at least
    [min_interval] after [last_sent]. *)
Theorem send_alerts_spaced (reqs : list Request) (d : Disk) (tm : TelegramManager) :
  spaced (min_interval tm) (last_sent tm) (sent_clocks reqs (send_alerts reqs d tm)).
Proof.
  revert d tm. induction reqs as [|q reqs IH]; intros d tm; simpl; [exact I|].
  destruct (send_alert_state (req_env q) d (req_message q) (req_image q) tm)
    as [Hmi [(Hacc & Hw & Hls)|(Hacc & Hls)]].
  - rewrite Hacc. simpl. split; [exact Hw|].
    rewrite <- Hmi, <- Hls. apply IH.
  - rewrite Hacc. rewrite <- Hmi, <- Hls. apply IH.
Qed.

End Channel.

Section Escapes.
Import Telegram.

(** Whether an exception reaches the handler can be told from the call. *)
Lemma classic_escapes (e : Env) (tm : TelegramManager) :
  escapes e tm \/ ~ escapes e tm.
Proof.
  unfold escapes, window_open.
  destruct (Qlt_le_dec (clock e - last_sent tm) (inject_Z (min_interval tm)))
    as [Hlt|Hle].
  { right. intros [H _]. apply (Qlt_not_le _ _ Hlt H). }
  destruct (bot tm), (init_result e), (transport e);
    first [ left; split; [exact Hle|]; auto 10; fail
          | right; intros [_ [[H1 H2]|[[H1 H2]|(H1 & H2 & H3)]]]; discriminate ].
Qed.

End Escapes.

Section LocalRecord.
Import Telegram.

(** The disk after a call: the one the fallback leaves when an exception
    reaches the handler of [send_alert], the one before the call in every
    other case. *)
Lemma send_alert_disk (e : Env) (d : Disk) (message : string)
    (image_path : option string) (tm : TelegramManager) :
  let r := send_alert e d message image_path tm in
  (escapes e tm -> disk r = fst (fst (fallback e d message image_path))) /\
  (~ escapes e tm -> disk r = d).
Proof.
  unfold escapes, window_open, send_alert, _initialize_bot, _send.
  destruct tm as [b ls mi]. simpl.
  assert (Hgate : forall (X : Prop),
            (clock e - ls < inject_Z mi)%Q ->
            ~ ((inject_Z mi <= clock e - ls)%Q /\ X)).
  { intros X Hlt [Hle _]. apply (Qlt_not_le _ _ Hlt Hle). }
  destruct b; simpl.
  - destruct (Qltb (clock e - ls) (inject_Z mi)) eqn:Hlt; simpl.
    { apply Qltb_true in Hlt.
      split; [intros H; exfalso; apply (Hgate _ Hlt H)|reflexivity]. }
    apply Qltb_false in Hlt.
    destruct (transport e) eqn:Ht; simpl;
      try (split; [intros [_ [[_ H]|[[H _]|[H _]]]]; discriminate H|reflexivity]).
    destruct (fallback e d message image_path) as [[d' evs'] exn']. simpl.
    split; [reflexivity|intros H; exfalso; apply H; auto].
  - destruct (init_result e) eqn:Hi; simpl.
    + destruct (Qltb (clock e - ls) (inject_Z mi)) eqn:Hlt; simpl.
      { apply Qltb_true in Hlt.
        split; [intros H; exfalso; apply (Hgate _ Hlt H)|reflexivity]. }
      apply Qltb_false in Hlt.
      destruct (transport e) eqn:Ht; simpl;
        try (split; [intros [_ [[H _]|[[_ H]|(_ & _ & H)]]]; discriminate H
                    |reflexivity]).
      destruct (fallback e d message image_path) as [[d' evs'] exn']. simpl.
      split; [reflexivity|intros H; exfalso; apply H; auto 10].
    + destruct (Qltb (clock e - ls) (inject_Z mi)) eqn:Hlt; simpl.
      { apply Qltb_true in Hlt.
        split; [intros H; exfalso; apply (Hgate _ Hlt H)|reflexivity]. }
      apply Qltb_false in Hlt.
      destruct (fallback e d message image_path) as [[d' evs'] exn']. simpl.
      split; [reflexivity|intros H; exfalso; apply H; auto 10].
    + split; [intros [_ [[H _]|[[_ H]|(_ & H & _)]]]; discriminate H|reflexivity].
    + split; [intros [_ [[H _]|[[_ H]|(_ & H & _)]]]; discriminate H|reflexivity].
Qed.

(** What the fallback does to the local record. *)
Lemma fallback_log (e : Env) (d : Disk) (message : string)
    (image_path : option string) :
  failed_alerts_log (fst (fst (fallback e d message image_path))) =
    if log_open_ok e then failed_alerts_log d ++ [log_record e message]
    else failed_alerts_log d.
Proof.
  unfold fallback. destruct (log_open_ok e); simpl; [|reflexivity].
  destruct image_path as [p|]; [|reflexivity].
  destruct (mkdir_ok e); simpl; [|reflexivity].
  destruct (files d !! p); [destruct (rename_ok e)|]; reflexivity.
Qed.

(** What the fallback does to the files: the image of the alert, when it
    is there and the system lets it, goes to the backup path. *)
Lemma fallback_files (e : Env) (d : Disk) (message : string)
    (image_path : option string) :
  files (fst (fst (fallback e d message image_path))) = files d \/
  exists p frame,
    image_path = Some p /\ files d !! p = Some frame /\
    files (fst (fst (fallback e d message image_path))) =
      rename p (backup_path (backup_clock e)) frame (files d).
Proof.
  unfold fallback. destruct (log_open_ok e); simpl; [|left; reflexivity].
  destruct image_path as [p|]; [|left; reflexivity].
  destruct (mkdir_ok e); simpl; [|left; reflexivity].
  destruct (files d !! p) as [frame|] eqn:Hp; [|left; reflexivity].
  destruct (rename_ok e); [|left; reflexivity].
  right. exists p, frame. auto.
Qed.

(** The local record of failed alerts gains one record, in one write,
    exactly when an exception that is not a [TelegramError] reaches the
    handler of [send_alert] and the log can be opened: the time, the message
    and a newline, so as many lines as the message has. In every other case
    the record is left as it was. *)
Theorem send_alert_local_record (e : Env) (d : Disk) (message : string)
    (image_path : option string) (tm : TelegramManager) :
  let r := send_alert e d message image_path tm in
  (escapes e tm /\ log_open_ok e = true ->
     failed_alerts_log (disk r) =
       failed_alerts_log d ++ [ctime e +:+ ": " +:+ message +:+ newline]) /\
  (~ (escapes e tm /\ log_open_ok e = true) ->
     failed_alerts_log (disk r) = failed_alerts_log d).
Proof.
  intros r.
  destruct (send_alert_disk e d message image_path tm) as [Hesc Hnot].
  fold r in Hesc, Hnot.
  pose proof (fallback_log e d message image_path) as Hlog.
  split.
  - intros [He Ho]. rewrite (Hesc He), Hlog, Ho. reflexivity.
  - intros Hn. destruct (classic_escapes e tm) as [He|He].
    + rewrite (Hesc He), Hlog.
      destruct (log_open_ok e); [exfalso; apply Hn; auto|reflexivity].
    + rewrite (Hnot He). reflexivity.
Qed.

(** A call changes the files in one way only: the screenshot of a failed
    alert goes to the backup path of that second. A file that was there is
    still there with its content, or it was that screenshot and is now the
    backup image, or it was an earlier backup image of the same second and
    the screenshot has replaced it: of two alerts that fail within one
    second, one backup image is left. And nothing is there afterwards that
    was not there before, but that backup image. *)
Theorem send_alert_keeps_files (e : Env) (d : Disk) (message : string)
    (image_path : option string) (tm : TelegramManager) (q : string)
    (frame : Frame) :
  let r := send_alert e d message image_path tm in
  let b := backup_path (backup_clock e) in
  (files d !! q = Some frame ->
     files (disk r) !! q = Some frame \/
     (image_path = Some q /\ q <> b /\
      files (disk r) !! q = None /\ files (disk r) !! b = Some frame) \/
     (q = b /\ exists p frame',
        image_path = Some p /\ p <> b /\ files d !! p = Some frame' /\
        files (disk r) !! b = Some frame')) /\
  (files (disk r) !! q = Some frame ->
     files d !! q = Some frame \/
     (q = b /\ exists p, image_path = Some p /\ files d !! p = Some frame)).
Proof.
  intros r b.
  assert (Hcases : files (disk r) = files d \/
            exists p frame',
              image_path = Some p /\ files d !! p = Some frame' /\
              files (disk r) = rename p b frame' (files d)).
  { destruct (send_alert_disk e d message image_path tm) as [Hesc Hnot].
    fold r in Hesc, Hnot.
    destruct (classic_escapes e tm) as [He|He].
    - rewrite (Hesc He). apply fallback_files.
    - rewrite (Hnot He). left. reflexivity. }
  destruct Hcases as [->|(p & frame' & Hip & Hp & ->)]; [split; auto|].
  unfold rename. split.
  - intros Hq. destruct (decide (q = b)) as [->|Hqb].
    + destruct (decide (p = b)) as [->|Hpb].
      * left. rewrite lookup_insert_eq. congruence.
      * right. right. split; [reflexivity|]. exists p, frame'.
        rewrite lookup_insert_eq. auto.
    + destruct (decide (q = p)) as [->|Hqp].
      * right. left. split; [exact Hip|]. split; [exact Hqb|].
        rewrite lookup_insert_ne by congruence. rewrite lookup_delete_eq.
        rewrite lookup_insert_eq. split; [reflexivity|congruence].
      * left. rewrite lookup_insert_ne by congruence.
        rewrite lookup_delete_ne by congruence. exact Hq.
  - intros Hq. destruct (decide (q = b)) as [->|Hqb].
    + rewrite lookup_insert_eq in Hq. injection Hq as <-.
      right. split; [reflexivity|]. exists p. auto.
    + rewrite lookup_insert_ne in Hq by congruence.
      destruct (decide (q = p)) as [->|Hqp].
      * rewrite lookup_delete_eq in Hq. discriminate Hq.
      * rewrite lookup_delete_ne in Hq by congruence. left. exact Hq.
Qed.

End LocalRecord.

Section LocalRecordExamples.
Import Telegram Examples.

Lemma send_alert_local_record_witness :
  failed_alerts_log (disk (send_alert (channel 1000 SendRaises) empty_disk
                             "Face detected!" None (init 5))) =
    ["Thu Jan  1 00:00:00 1970: Face detected!" +:+ newline].
Proof.
  apply (proj1 (send_alert_local_record (channel 1000 SendRaises) empty_disk
                  "Face detected!" None (init 5))).
  split; [|reflexivity]. split.
  - vm_compute. discriminate.
  - right. right. repeat split; reflexivity.
Defined.

(** Two alerts fail within the second 1000: the backup image of the first
    is replaced by the screenshot of the second. *)
Lemma send_alert_keeps_files_witness :
  files (disk (send_alert (channel 1000 SendRaises) two_images
                 "Face detected!" (Some "screenshots/a.jpg") (init 5)))
    !! backup_path 1000 = Some [2%N].
Proof.
  destruct (send_alert_keeps_files (channel 1000 SendRaises) two_images
              "Face detected!" (Some "screenshots/a.jpg") (init 5)
              (backup_path 1000) [1%N]) as [Hkept _].
  destruct (Hkept eq_refl) as [Hsame|[(Hip & _)|(_ & p & frame' & Hip & _ & Hp & Hb)]].
  - exfalso. revert Hsame. vm_compute. intros Hsame. discriminate Hsame.
  - discriminate Hip.
  - injection Hip as <-. vm_compute in Hp. injection Hp as <-. exact Hb.
Defined.

End LocalRecordExamples.

(** ** The history of alerts *)

Section History.
Import FaceDetection AlertSystem.

(** The history only grows, and by one event for each call: after the
    calls it is the history before them followed by one event for each
    call, in the order of the calls, with the face name and the camera of
    the call. *)
Theorem trigger_alerts_history (calls : list Call) (d : Telegram.Disk)
    (s : AlertSystem) :
  exists new : list AlertEvent,
    alert_history (fst (fst (trigger_alerts calls d s))) = alert_history s ++ new /\
    map face_name new = map call_who calls /\
    map camera_id new = map call_cam calls /\
    map timestamp new = map (fun c => now (call_env c)) calls.
Proof.
  revert d s. induction calls as [|c calls IH]; intros d s.
  - exists []. simpl. rewrite app_nil_r. repeat split; reflexivity.
  - simpl.
    destruct (trigger_alert_history (call_env c) d (call_cam c) (call_cam_name c)
                (call_who c) (call_face c) (call_conf c) (call_frame c) s)
      as (Hh & _ & _).
    fold (trigger c d s) in Hh.
    destruct (IH (disk (trigger c d s)) (system (trigger c d s)))
      as (new & Hnew & Hn & Hc & Ht).
    destruct (trigger_alerts calls (disk (trigger c d s)) (system (trigger c d s)))
      as [[s' d'] evs].
    simpl in *. eexists (_ :: new). rewrite Hnew, Hh, <- List.app_assoc.
    split; [reflexivity|]. simpl. rewrite Hn, Hc, Ht. repeat split; reflexivity.
Qed.

Lemma insert_recent_perm (x : AlertEvent) (l : list AlertEvent) :
  insert_recent x l ≡ₚ x :: l.
Proof.
  induction l as [|y l IH]; simpl; [reflexivity|].
  destruct (Qltb (timestamp x) (timestamp y)); [|reflexivity].
  rewrite IH. apply Permutation_swap.
Qed.

Lemma sorted_recent_perm (l : list AlertEvent) : sorted_recent l ≡ₚ l.
Proof.
  induction l as [|x l IH]; simpl; [reflexivity|].
  rewrite insert_recent_perm, IH. reflexivity.
Qed.

Lemma insert_recent_descending (x : AlertEvent) (l : list AlertEvent) :
  descending l -> descending (insert_recent x l).
Proof.
  induction l as [|y l IH]; simpl; [auto|].
  intros [Hy Hl].
  destruct (Qltb (timestamp x) (timestamp y)) eqn:Hlt; simpl.
  - apply Qltb_true in Hlt. split; [|apply IH; exact Hl].
    rewrite insert_recent_perm. constructor; [apply Qlt_le_weak; exact Hlt|exact Hy].
  - apply Qltb_false in Hlt. split; [|split; assumption].
    constructor; [exact Hlt|].
    eapply Forall_impl; [exact Hy|]. simpl. intros b Hb.
    eapply Qle_trans; eassumption.
Qed.

Lemma sorted_recent_descending (l : list AlertEvent) : descending (sorted_recent l).
Proof.
  induction l as [|x l IH]; simpl; [exact I|].
  apply insert_recent_descending, IH.
Qed.

Lemma descending_take (n : nat) (l : list AlertEvent) :
  descending l -> descending (take n l).
Proof.
  revert n. induction l as [|a l IH]; intros [|n]; simpl; auto.
  intros [Ha Hl]. split; [|apply IH; exact Hl].
  apply Forall_take. exact Ha.
Qed.

Lemma descending_newest_first (l : list AlertEvent) :
  descending l -> newest_first l.
Proof.
  unfold newest_first. induction l as [|x l IH]; intros Hd i j a b Hij Hi Hj.
  - discriminate Hi.
  - destruct Hd as [Hx Hl]. destruct j as [|j]; [lia|]. simpl in Hj.
    destruct i as [|i]; simpl in Hi.
    + injection Hi as <-. rewrite Forall_forall in Hx. apply Hx.
      apply list_elem_of_lookup. eauto.
    + apply (IH Hl i j a b); [lia|assumption|assumption].
Qed.

Lemma py_take_take {A : Type} (limit : Z) (l : list A) :
  exists n : nat, py_take limit l = take n l /\
                  (0 <= limit -> n = Z.to_nat limit).
Proof.
  unfold py_take. destruct (Z.leb_spec 0 limit).
  - eexists. split; [reflexivity|auto].
  - eexists. split; [reflexivity|lia].
Qed.

(** [get_recent_alerts] gives events of the history, each as often as it
    is there at most, later ones first; for a limit that is not negative
    it gives [limit] of them, or all when there are fewer. *)
Theorem get_recent_alerts_sorted (limit : Z) (s : AlertSystem) :
  let recent := get_recent_alerts limit s in
  recent ⊆+ alert_history s /\
  newest_first recent /\
  (0 <= limit ->
     length recent = Nat.min (Z.to_nat limit) (length (alert_history s))) /\
  (Z.of_nat (length (alert_history s)) <= limit -> recent ≡ₚ alert_history s).
Proof.
  unfold get_recent_alerts.
  destruct (py_take_take limit (sorted_recent (alert_history s))) as (n & -> & Hn).
  split; [|split; [|split]].
  - rewrite <- (sorted_recent_perm (alert_history s)) at 2.
    apply sublist_submseteq, sublist_take.
  - apply descending_newest_first, descending_take, sorted_recent_descending.
  - intros Hl. rewrite (Hn Hl), length_take, (Permutation_length (sorted_recent_perm _)).
    reflexivity.
  - intros Hl. rewrite Hn by lia.
    rewrite take_ge; [apply sorted_recent_perm|].
    rewrite (Permutation_length (sorted_recent_perm _)). lia.
Qed.

Lemma sorted_recent_latest (h : list AlertEvent) (ev : AlertEvent) :
  Forall (fun a => (timestamp a < timestamp ev)%Q) h ->
  sorted_recent (h ++ [ev]) = ev :: sorted_recent h.
Proof.
  induction 1 as [|y h Hy _ IH]; simpl; [reflexivity|].
  rewrite IH. simpl. apply Qltb_true in Hy. rewrite Hy. reflexivity.
Qed.

(** An alert raised later than every alert of the history is the first
    of the recent alerts right after the call. *)
Theorem trigger_alert_most_recent (e : Env) (d : Telegram.Disk) (cam : Z)
    (cam_name who : string) (face : Face) (conf : R) (frame : Frame)
    (s : AlertSystem) (limit : Z) :
  Forall (fun a => (timestamp a < now e)%Q) (alert_history s) ->
  0 < limit ->
  let r := trigger_alert e d cam cam_name who face conf frame s in
  exists ev, head (get_recent_alerts limit (system r)) = Some ev /\
             face_name ev = who /\ camera_id ev = cam /\ timestamp ev = now e /\
             last (alert_history (system r)) = Some ev.
Proof.
  intros Hall Hlimit r.
  destruct (trigger_alert_history e d cam cam_name who face conf frame s)
    as (Hh & _ & _).
  fold r in Hh. eexists. unfold get_recent_alerts. rewrite Hh.
  rewrite sorted_recent_latest by exact Hall.
  unfold py_take. destruct (Z.leb_spec 0 limit); [|lia].
  destruct (Z.to_nat limit) as [|n] eqn:Hn; [lia|].
  simpl. rewrite last_snoc. repeat split; reflexivity.
Qed.

End History.

Section HistoryExamples.
Import FaceDetection AlertSystem Examples.

Lemma get_recent_alerts_sorted_witness :
  length (get_recent_alerts 1
            (fst (fst (trigger_alerts
                         [call_at 1000 Telegram.SendOk; call_at 1003 Telegram.SendOk]
                         empty_disk fresh_system)))) = 1%nat.
Proof.
  destruct (get_recent_alerts_sorted 1
              (fst (fst (trigger_alerts
                           [call_at 1000 Telegram.SendOk; call_at 1003 Telegram.SendOk]
                           empty_disk fresh_system)))) as (_ & _ & Hlen & _).
  rewrite Hlen by lia. vm_compute. reflexivity.
Defined.

Lemma trigger_alert_most_recent_witness :
  exists ev,
    head (get_recent_alerts 3
            (system (trigger (call_at 1003 Telegram.SendOk) empty_disk
                       (system (trigger (call_at 1000 Telegram.SendOk) empty_disk
                                  fresh_system))))) = Some ev /\
    timestamp ev = 1003%Q.
Proof.
  destruct (trigger_alert_most_recent (call_env (call_at 1003 Telegram.SendOk))
              empty_disk 1 "Lobby" "Alice" alice_face 1%R []
              (system (trigger (call_at 1000 Telegram.SendOk) empty_disk fresh_system))
              3) as (ev & Hhead & _ & _ & Hts & _).
  - vm_compute. repeat constructor.
  - lia.
  - exists ev. split; [exact Hhead|exact Hts].
Defined.

End HistoryExamples.

(** ** What the matcher returns on any input *)

Section MatcherAnyInput.
Import FaceDetection.

Lemma unmatched_ok (threshold : Q) (known_faces : list KnownFace) (face : Face) :
  result_ok threshold known_faces face (unmatched face).
Proof. split; [reflexivity|]. intros kf H. discriminate H. Qed.

Lemma recognize_one_ok (threshold : Q) (known_faces : list KnownFace) (d : nat)
    (rows : list (list float32)) (face : Face) (r : Recognition) :
  known_embeddings known_faces = Some (d, rows) ->
  recognize_one threshold known_faces d rows face = Some r ->
  result_ok threshold known_faces face r.
Proof.
  intros Hk. unfold recognize_one.
  destruct (embedding face) as [e|] eqn:Hface; [|intros [= <-]; apply unmatched_ok].
  destruct (Nat.eqb (length e) 0); [intros [= <-]; apply unmatched_ok|].
  destruct (negb (Nat.eqb (length e) d)); [discriminate|].
  destruct (argmax (similarities rows e)) as [i|]; [|discriminate].
  destruct (similarities rows e !! i) as [s|] eqn:Hs; [|discriminate].
  destruct (known_faces !! i) as [kf|] eqn:Hkf; [|discriminate].
  destruct (np_gt s threshold) eqn:Hgt; intros [= <-].
  - split; [reflexivity|]. simpl. intros kf' [= <-].
    split; [apply list_elem_of_lookup; eauto|]. split; [exact Hgt|].
    unfold similarities in Hs. rewrite list_lookup_fmap in Hs.
    destruct (rows !! i) as [row|] eqn:Hrow; [|discriminate Hs].
    injection Hs as <-.
    destruct (known_embeddings_lookup _ _ _ _ _ Hk Hrow) as (kf' & Hkf' & Hemb).
    rewrite Hkf in Hkf'. injection Hkf' as <-.
    exists e, row. rewrite Hface. auto.
  - split; [reflexivity|]. intros kf' H. discriminate H.
Qed.

Lemma recognize_loop_ok (threshold : Q) (known_faces : list KnownFace) (d : nat)
    (rows : list (list float32)) (faces : list Face) (rs : list Recognition) :
  known_embeddings known_faces = Some (d, rows) ->
  recognize_loop threshold known_faces d rows faces = Some rs ->
  Forall2 (result_ok threshold known_faces) faces rs.
Proof.
  intros Hk. revert rs. induction faces as [|face faces IH]; intros rs; simpl.
  - intros [= <-]. constructor.
  - destruct (recognize_one threshold known_faces d rows face) as [r|] eqn:Hr;
      [|discriminate].
    destruct (recognize_loop threshold known_faces d rows faces) as [rs'|];
      [|discriminate].
    intros [= <-]. constructor; [|apply IH; reflexivity].
    eapply recognize_one_ok; eassumption.
Qed.

Lemma unmatched_all_ok (threshold : Q) (known_faces : list KnownFace)
    (faces : list Face) :
  Forall2 (result_ok threshold known_faces) faces (map unmatched faces).
Proof.
  induction faces as [|face faces IH]; simpl; constructor;
    [apply unmatched_ok|exact IH].
Qed.

(** Whatever the gallery and the detections. *)
Lemma recognize_faces_ok (threshold : Q) (known_faces : list KnownFace)
    (faces : list Face) :
  Forall2 (result_ok threshold known_faces) faces
    (recognize_faces threshold known_faces faces).
Proof.
  unfold recognize_faces.
  destruct known_faces as [|k0 ks]; [apply unmatched_all_ok|].
  destruct (known_embeddings (k0 :: ks)) as [[d rows]|] eqn:Hk;
    [|apply unmatched_all_ok].
  destruct (recognize_loop threshold (k0 :: ks) d rows faces) as [rs|] eqn:Hl;
    [|apply unmatched_all_ok].
  eapply recognize_loop_ok; eassumption.
Qed.

(** Every detection gets one result, in the order of the detections,
    whatever the gallery holds and whether or not the arithmetic raised. *)
Theorem recognize_faces_one_each (threshold : Q) (known_faces : list KnownFace)
    (faces : list Face) :
  map (fun r : Recognition => fst (fst r))
    (recognize_faces threshold known_faces faces) = faces.
Proof.
  pose proof (recognize_faces_ok threshold known_faces faces) as H.
  induction H as [|face r faces rs [Hf _] _ IH]; simpl; [reflexivity|].
  rewrite Hf, IH. reflexivity.
Qed.


End MatcherAnyInput.

Section MatcherAnyInputExamples.
Import FaceDetection Examples.


End MatcherAnyInputExamples.

(** ** Shapes that do not agree *)

Section Shapes.
Import FaceDetection.

Lemma recognize_loop_raises (threshold : Q) (known_faces : list KnownFace)
    (d : nat) (rows : list (list float32)) (faces : list Face) (face : Face)
    (e : list float32) :
  face ∈ faces -> embedding face = Some e ->
  length e <> 0%nat -> length e <> d ->
  recognize_loop threshold known_faces d rows faces = None.
Proof.
  intros Hin He H0 Hd.
  induction faces as [|f faces IH]; [inversion Hin|].
  simpl. apply elem_of_cons in Hin as [<-|Hin].
  - unfold recognize_one. rewrite He.
    destruct (Nat.eqb_spec (length e) 0); [contradiction|].
    destruct (Nat.eqb_spec (length e) d); [contradiction|]. reflexivity.
  - destruct (recognize_one threshold known_faces d rows f); [|reflexivity].
    rewrite (IH Hin). reflexivity.
Qed.

(** One detection whose embedding has another length than the rows of the
    gallery costs the whole batch: every detection of the batch, the good
    ones too, comes back unmatched with similarity 0.0. *)
Theorem recognize_faces_bad_length (threshold : Q) (known_faces : list KnownFace)
    (d : nat) (rows : list (list float32)) (faces : list Face) (face : Face)
    (e : list float32) :
  known_embeddings known_faces = Some (d, rows) ->
  face ∈ faces -> embedding face = Some e ->
  length e <> 0%nat -> length e <> d ->
  recognize_faces threshold known_faces faces =
    map (fun f => (f, None, zero32)) faces.
Proof.
  intros Hk Hin He H0 Hd. unfold recognize_faces.
  destruct known_faces as [|k0 ks]; [reflexivity|].
  rewrite Hk, (recognize_loop_raises threshold (k0 :: ks) d rows faces face e
                 Hin He H0 Hd).
  reflexivity.
Qed.

Lemma matrix_length (d : nat) (known_faces : list KnownFace)
    (rows : list (list float32)) (kf : KnownFace) :
  matrix d known_faces = Some rows -> kf ∈ known_faces ->
  exists row, kf_embedding kf = Some row /\ length row = d.
Proof.
  revert rows. induction known_faces as [|k ks IH]; intros rows Hm Hin;
    [inversion Hin|].
  simpl in Hm. destruct (kf_embedding k) as [row|] eqn:Hk; [|discriminate].
  destruct (Nat.eqb_spec (length row) d) as [Hlen|]; [|discriminate].
  destruct (matrix d ks) as [rows'|] eqn:Hks; [|discriminate].
  apply elem_of_cons in Hin as [->|Hin]; [eauto|].
  apply (IH rows' eq_refl Hin).
Qed.

(** A gallery in which two entries have embeddings of different lengths,
    or in which an entry has no embedding, recognises nobody: every
    detection comes back unmatched with similarity 0.0. *)
Theorem recognize_faces_ragged_gallery (threshold : Q)
    (known_faces : list KnownFace) (faces : list Face) (k1 k2 : KnownFace) :
  k1 ∈ known_faces -> k2 ∈ known_faces ->
  length <$> kf_embedding k1 <> length <$> kf_embedding k2 \/
  kf_embedding k1 = None ->
  recognize_faces threshold known_faces faces =
    map (fun f => (f, None, zero32)) faces.
Proof.
  intros H1 H2 Hbad. unfold recognize_faces.
  destruct known_faces as [|k0 ks] eqn:Hkfs; [reflexivity|].
  destruct (known_embeddings (k0 :: ks)) as [[d rows]|] eqn:Hk; [|reflexivity].
  exfalso. unfold known_embeddings in Hk.
  destruct (kf_embedding k0) as [row0|]; [|discriminate Hk].
  destruct (matrix (length row0) (k0 :: ks)) as [rows'|] eqn:Hm; [|discriminate Hk].
  destruct (matrix_length _ _ _ k1 Hm H1) as (r1 & Hr1 & Hl1).
  destruct (matrix_length _ _ _ k2 Hm H2) as (r2 & Hr2 & Hl2).
  destruct Hbad as [Hne|Hnone]; [|congruence].
  rewrite Hr1, Hr2 in Hne. simpl in Hne. congruence.
Qed.

End Shapes.

Section ShapesExamples.
Import FaceDetection Examples.

Lemma recognize_faces_bad_length_witness :
  recognize_faces (1 # 2) [alice_known] [alice_face; long_face] =
    [(alice_face, None, zero32); (long_face, None, zero32)].
Proof.
  apply (recognize_faces_bad_length (1 # 2) [alice_known] 2
           [[float32_of_Z 1; float32_of_Z 0]]
           [alice_face; long_face] long_face
           [float32_of_Z 1; float32_of_Z 0; float32_of_Z 0]).
  - reflexivity.
  - apply list_elem_of_further, list_elem_of_here.
  - reflexivity.
  - discriminate.
  - discriminate.
Defined.

Lemma recognize_faces_ragged_gallery_witness :
  recognize_faces (1 # 2) [alice_known; short_known] [alice_face] =
    [(alice_face, None, zero32)].
Proof.
  apply (recognize_faces_ragged_gallery (1 # 2) [alice_known; short_known]
           [alice_face] alice_known short_known).
  - apply list_elem_of_here.
  - apply list_elem_of_further, list_elem_of_here.
  - left. discriminate.
Defined.

End ShapesExamples.

(** ** A gallery entry that is the zero vector *)

Section ZeroRow.
Import FaceDetection.

(** One gallery entry whose embedding is the zero vector blinds the
    matcher: every detection with an embedding of the gallery's length comes
    back unmatched with similarity [NaN], also when another entry of the
    gallery is its exact match. *)
Theorem recognize_faces_zero_row (threshold : Q) (known_faces : list KnownFace)
    (d : nat) (rows : list (list float32)) (face : Face) (e row : list float32) :
  known_embeddings known_faces = Some (d, rows) ->
  row ∈ rows -> Forall (fun x => is_zero x = true) row ->
  embedding face = Some e -> length e = d -> d <> 0%nat ->
  recognize_faces threshold known_faces [face] = [(face, None, S754_nan)].
Proof.
  intros Hk Hrow Hzero Hface Hlen Hd.
  assert (Hnan : S754_nan ∈ similarities rows e).
  { unfold similarities. apply list_elem_of_fmap. exists row.
    split; [symmetry; apply cosine_zero_row; exact Hzero|exact Hrow]. }
  destruct (argmax_nan _ Hnan) as (i & Harg & Hi).
  assert (Hkf : exists kf, known_faces !! i = Some kf).
  { unfold similarities in Hi. rewrite list_lookup_fmap in Hi.
    destruct (rows !! i) as [r|] eqn:Hr; [|discriminate Hi].
    destruct (known_embeddings_lookup _ _ _ _ _ Hk Hr) as (kf & Hkf & _). eauto. }
  destruct Hkf as [kf Hkf].
  assert (Hone : recognize_one threshold known_faces d rows face =
            Some (face, None, S754_nan)).
  { unfold recognize_one. rewrite Hface.
    destruct (Nat.eqb_spec (length e) 0) as [H0|_]; [lia|].
    rewrite Hlen, Nat.eqb_refl. simpl negb. cbv iota.
    rewrite Harg, Hi, Hkf. reflexivity. }
  unfold recognize_faces.
  destruct known_faces as [|k0 ks]; [discriminate Hkf|].
  rewrite Hk. cbn [recognize_loop]. rewrite Hone. reflexivity.
Qed.

End ZeroRow.

Section ZeroRowExamples.
Import FaceDetection Examples.

Lemma recognize_faces_zero_row_witness :
  recognize_faces (1 # 2) [alice_known; blank_known] [alice_face] =
    [(alice_face, None, S754_nan)].
Proof.
  apply (recognize_faces_zero_row (1 # 2) [alice_known; blank_known] 2
           [[float32_of_Z 1; float32_of_Z 0]; [float32_of_Z 0; float32_of_Z 0]]
           alice_face [float32_of_Z 1; float32_of_Z 0]
           [float32_of_Z 0; float32_of_Z 0]).
  - reflexivity.
  - apply list_elem_of_further, list_elem_of_here.
  - repeat constructor.
  - reflexivity.
  - reflexivity.
  - discriminate.
Defined.

End ZeroRowExamples.

(** ** The gallery and the directory *)

Section Reload.
Import FaceDetection.

Lemma elem_of_concat {A : Type} (x : A) (ls : list (list A)) :
  x ∈ concat ls <-> exists l, x ∈ l /\ l ∈ ls.
Proof.
  induction ls as [|l ls IH]; simpl.
  - split; [intros H; inversion H|intros (l & _ & H); inversion H].
  - rewrite elem_of_app, IH. split.
    + intros [H|(l' & Hx & Hl)]; [exists l; split; [exact H|apply list_elem_of_here]|].
      exists l'. split; [exact Hx|apply list_elem_of_further; exact Hl].
    + intros (l' & Hx & Hl). apply elem_of_cons in Hl as [->|Hl]; [left; exact Hx|].
      right. eauto.
Qed.

Lemma load_entry_spec (dir : string) (f : DirEntry) (kf : KnownFace) :
  kf ∈ load_entry dir f <->
  is_image_suffix (suffix f) = true /\
  exists face rest, content f = Detected (face :: rest) /\
    kf = {| name := stem f; kf_embedding := embedding face;
            image_path := dir +:+ "/" +:+ file_name f |}.
Proof.
  unfold load_entry. destruct (is_image_suffix (suffix f)); simpl.
  - destruct (content f) as [|[|face rest]|]; split;
      try (intros H; inversion H; fail);
      try (intros (_ & face' & rest' & H & _); discriminate H).
    + intros H. apply list_elem_of_singleton in H. subst kf. eauto.
    + intros (_ & face' & rest' & [= <- <-] & ->). apply list_elem_of_here.
  - split; [intros H; inversion H|intros [H _]; discriminate H].
Qed.

(** After a reload the gallery holds exactly one entry for every image
    file ([.jpg], [.jpeg], [.png], in any case of letters) in which the
    detector finds a face: named after the stem of the file, with the
    embedding of the first face found. What the gallery held before is
    gone, and so it is when the directory does not exist. *)
Theorem load_known_faces_entries (dir : string) (files : list DirEntry)
    (known_faces : list KnownFace) (kf : KnownFace) :
  (kf ∈ load_known_faces dir (Some files) known_faces <->
   exists f face rest,
     f ∈ files /\ is_image_suffix (suffix f) = true /\
     content f = Detected (face :: rest) /\
     kf = {| name := stem f; kf_embedding := embedding face;
             image_path := dir +:+ "/" +:+ file_name f |}) /\
  (length (load_known_faces dir (Some files) known_faces) <= length files)%nat /\
  load_known_faces dir None known_faces = [].
Proof.
  split; [|split; [|reflexivity]].
  - unfold load_known_faces. rewrite elem_of_concat. split.
    + intros (l & Hkf & Hl). apply list_elem_of_fmap in Hl as (f & -> & Hf).
      apply load_entry_spec in Hkf as (Hs & face & rest & Hc & Hk).
      exists f, face, rest. auto.
    + intros (f & face & rest & Hf & Hs & Hc & Hk).
      exists (load_entry dir f). split.
      * apply load_entry_spec. eauto.
      * apply list_elem_of_fmap. eauto.
  - unfold load_known_faces. induction files as [|f files IH]; simpl; [lia|].
    rewrite length_app.
    assert (length (load_entry dir f) <= 1)%nat; [|lia].
    unfold load_entry. destruct (negb _); simpl; [lia|].
    destruct (content f) as [|[|face rest]|]; simpl; lia.
Qed.

Lemma append_not_self (s t : string) : t <> EmptyString -> s +:+ t <> s.
Proof.
  intros Ht. induction s as [|c s IH]; simpl; [exact Ht|].
  intros H. injection H as H. apply IH. exact H.
Qed.

Lemma append_inj (s a b : string) : s +:+ a = s +:+ b -> a = b.
Proof.
  induction s as [|c s IH]; simpl; intros H; [exact H|].
  injection H as H. apply IH. exact H.
Qed.

(** After an enrollment, the entries of a reload that come from the file
    written are the entries of that file. *)
Lemma reload_written (dir : string) (entry : DirEntry) (files : list DirEntry)
    (known_faces : list KnownFace) (kf : KnownFace) :
  kf ∈ load_known_faces dir (Some (write_file entry files)) known_faces ->
  image_path kf = dir +:+ "/" +:+ file_name entry ->
  kf ∈ load_entry dir entry.
Proof.
  unfold load_known_faces, write_file. rewrite elem_of_concat.
  intros (l & Hkf & Hl) Hpath.
  apply list_elem_of_fmap in Hl as (f & -> & Hf).
  apply elem_of_app in Hf as [Hf|Hf].
  - exfalso. apply list_elem_of_filter in Hf as [Hne _]. apply Hne.
    apply load_entry_spec in Hkf as (_ & face & rest & _ & ->).
    simpl in Hpath. apply append_inj in Hpath. apply append_inj in Hpath.
    exact Hpath.
  - apply list_elem_of_singleton in Hf. subst f. exact Hkf.
Qed.

(** A face enrolled under a name does not come back from the next reload
    under that name. The file written is [<name>_<seconds>.jpg], the reload
    names the entry after the stem of the file: whatever the reload holds
    for the image of the enrollment is named [<name>_<seconds>]. It holds
    such an entry exactly when the detector finds a face in the file as it
    was written, and the embedding is then the one of that face. *)
Theorem add_known_face_then_reload (now : Q) (new_name save_dir : string)
    (face : Face) (faces : list Face) (reread : file_result)
    (known_faces : list KnownFace) (files : list DirEntry) :
  let r := add_known_face true true (face :: faces) reread now new_name save_dir
             known_faces files in
  let reloaded := load_known_faces save_dir (Some (snd (fst r))) (fst (fst r)) in
  exists enrolled,
    last (fst (fst r)) = Some enrolled /\ name enrolled = new_name /\
    kf_embedding enrolled = embedding face /\
    (forall again, again ∈ reloaded -> image_path again = image_path enrolled ->
       name again = new_name +:+ "_" +:+ pretty (py_int now) /\
       name again <> new_name /\
       exists face' rest, reread = Detected (face' :: rest) /\
                          kf_embedding again = embedding face') /\
    (forall face' rest, reread = Detected (face' :: rest) ->
       exists again, again ∈ reloaded /\
                     image_path again = image_path enrolled /\
                     kf_embedding again = embedding face').
Proof.
  unfold add_known_face. simpl.
  set (entry := {| stem := new_name +:+ "_" +:+ pretty (py_int now);
                   suffix := ".jpg"; content := reread |}).
  eexists. rewrite last_snoc. split; [reflexivity|]. simpl.
  split; [reflexivity|]. split; [reflexivity|]. split.
  - intros again Hin Hpath.
    pose proof (reload_written save_dir entry files [] again Hin Hpath) as Hentry.
    apply load_entry_spec in Hentry as (_ & face' & rest & Hc & ->). simpl.
    split; [reflexivity|]. split; [apply append_not_self; discriminate|].
    exists face', rest. split; [exact Hc|reflexivity].
  - intros face' rest Hre.
    exists {| name := stem entry; kf_embedding := embedding face';
              image_path := save_dir +:+ "/" +:+ file_name entry |}.
    split; [|split; reflexivity].
    unfold load_known_faces. apply elem_of_concat.
    exists (load_entry save_dir entry). split.
    + apply load_entry_spec. split; [reflexivity|].
      exists face', rest. split; [exact Hre|reflexivity].
    + apply list_elem_of_fmap. exists entry. split; [reflexivity|].
      unfold write_file. apply elem_of_app. right. apply list_elem_of_here.
Qed.

End Reload.

Section ReloadExamples.
Import FaceDetection Examples.

Lemma add_known_face_then_reload_witness :
  exists again,
    again ∈ load_known_faces "known_faces"
              (Some (snd (fst (add_known_face true true [alice_face]
                                 (Detected [carol_face]) 100%Q "Alice"
                                 "known_faces" [] []))))
              [] /\
    name again = "Alice_100" /\
    kf_embedding again = embedding carol_face.
Proof.
  destruct (add_known_face_then_reload 100%Q "Alice" "known_faces" alice_face []
              (Detected [carol_face]) [] [])
    as (enrolled & _ & _ & _ & Honly & Hthere).
  destruct (Hthere carol_face [] eq_refl) as (again & Hin & Hpath & Hemb).
  exists again. split; [exact Hin|]. split; [|exact Hemb].
  apply (Honly again Hin Hpath).
Defined.

End ReloadExamples.

(** ** The crop of a face *)

Section Crop.
Import FaceDetection.

(** The crop [_extract_face_image] takes is the part of the box that lies
    in the image: its rows and columns are ranges of the image that hold at
    least one pixel, and a pixel is in the crop exactly when it is a pixel
    of the image that lies in the box. A box that holds no pixel of the
    image gives the empty array instead, and only such a box does. *)
Theorem extract_face_image_inside (h w : Z) (bbox : Q * Q * Q * Q) :
  (forall y1 y2 x1 x2 : Z,
     _extract_face_image h w bbox = Some (y1, y2, x1, x2) ->
     (0 <= x1 < x2 /\ x2 <= w) /\ (0 <= y1 < y2 /\ y2 <= h) /\
     forall r c : Z, (y1 <= r < y2 /\ x1 <= c < x2) <-> in_box h w bbox r c) /\
  (_extract_face_image h w bbox = None <->
     forall r c : Z, ~ in_box h w bbox r c).
Proof.
  unfold _extract_face_image, in_box. destruct bbox as [[[bx1 by1] bx2] by2].
  destruct (Z.leb_spec (Z.min w (py_int bx2)) (Z.max 0 (py_int bx1))) as [Hx|Hx];
    simpl.
  { split; [discriminate|]. split; [intros _ r c; lia|reflexivity]. }
  destruct (Z.leb_spec (Z.min h (py_int by2)) (Z.max 0 (py_int by1))) as [Hy|Hy];
    simpl.
  { split; [discriminate|]. split; [intros _ r c; lia|reflexivity]. }
  split.
  - intros y1 y2 x1 x2 [= <- <- <- <-].
    split; [lia|]. split; [lia|]. intros r c. lia.
  - split; [discriminate|]. intros Hnone. exfalso.
    apply (Hnone (Z.max 0 (py_int by1)) (Z.max 0 (py_int bx1))). lia.
Qed.

End Crop.

Section CropExamples.
Import FaceDetection.

Lemma extract_face_image_inside_witness :
  (0 <= 0 < 640 /\ 640 <= 640) /\ (0 <= 10 < 200 /\ 200 <= 480) /\
  forall r c : Z,
    (10 <= r < 200 /\ 0 <= c < 640) <->
    in_box 480 640 ((-11 # 2)%Q, (51 # 5)%Q, 700%Q, (401 # 2)%Q) r c.
Proof.
  apply (proj1 (extract_face_image_inside 480 640
                  ((-11 # 2)%Q, (51 # 5)%Q, 700%Q, (401 # 2)%Q)) 10 200 0 640).
  vm_compute. reflexivity.
Defined.

End CropExamples.

(** ** Starting and stopping cameras *)

Section StartStop.
Import CameraManager.

(** [start_camera] refuses exactly the camera that is not configured or
    is disabled, and then changes nothing; otherwise it returns [True] with
    the camera registered and the stop signal cleared. *)
Theorem start_camera_refuses (sched : list (nat * Device)) (cam : Z)
    (m : CameraManager) :
  let r := start_camera sched cam m in
  (snd r = false <->
     cameras m !! cam = None \/
     exists cfg, cameras m !! cam = Some cfg /\ enabled cfg = false) /\
  (snd r = false -> fst r = m) /\
  (snd r = true ->
     running cam (fst r) = true /\ stop_event (fst r) = false /\
     frame_queues (fst r) !! cam = Some []).
Proof.
  unfold start_camera.
  destruct (cameras m !! cam) as [cfg|] eqn:Hc.
  - destruct (enabled cfg) eqn:He; simpl.
    + split; [split; [discriminate|]|split; [discriminate|]].
      * intros [H|(cfg' & [= <-] & H)]; congruence.
      * intros _. unfold running. simpl. rewrite lookup_insert_eq.
        split; [apply bool_decide_eq_true; eauto|].
        split; [reflexivity|apply lookup_insert_eq].
    + split; [split; [eauto|reflexivity]|split; [reflexivity|discriminate]].
  - simpl. split; [split; [auto|reflexivity]|split; [reflexivity|discriminate]].
Qed.

(** Stopping a camera twice is stopping it once: after [stop_camera] the
    camera is not running, and a second [stop_camera] returns [False] and
    changes nothing, as does one for a camera that was never started. *)
Theorem stop_camera_twice (sched sched' : list (nat * Device)) (cam : Z)
    (m : CameraManager) :
  let r := stop_camera sched cam m in
  running cam (fst r) = false /\
  stop_camera sched' cam (fst r) = (fst r, false) /\
  (running cam m = false -> r = (m, false)).
Proof.
  unfold stop_camera, running.
  destruct (capture_threads m !! cam) as [t|] eqn:Ht; simpl.
  - destruct (cleanup_spec sched cam m t Ht) as (_ & Hct & _).
    assert (Hnone : capture_threads (_cleanup_camera_thread sched cam m) !! cam = None).
    { rewrite Hct. apply lookup_delete_eq. }
    rewrite Hnone. split; [apply bool_decide_eq_false; intros [x Hx]; discriminate Hx|].
    split; [reflexivity|].
    intros H. discriminate H.
  - rewrite Ht. split; [apply bool_decide_eq_false; intros [x Hx]; discriminate Hx|].
    split; reflexivity.
Qed.

End StartStop.

Section StartStopExamples.
Import CameraManager Examples.

Lemma start_camera_refuses_witness :
  start_camera [] 7 both_running = (both_running, false).
Proof.
  destruct (start_camera_refuses [] 7 both_running) as (Hiff & Hsame & _).
  assert (Hf : snd (start_camera [] 7 both_running) = false).
  { apply Hiff. left. vm_compute. reflexivity. }
  rewrite (surjective_pairing (start_camera [] 7 both_running)), Hf, (Hsame Hf).
  reflexivity.
Defined.

Lemma stop_camera_twice_witness :
  stop_camera [] 1 manager0 = (manager0, false).
Proof.
  apply (stop_camera_twice [] [] 1 manager0). vm_compute. reflexivity.
Defined.

End StartStopExamples.

(** ** The frame queues *)

Section Queues.
Import CameraManager.

Lemma put_latest_bounded (frame : Frame) (q : list Frame) :
  (length q <= 1)%nat -> put_latest frame q = [frame].
Proof.
  unfold put_latest. destruct q as [|f [|g q]]; simpl; intros H;
    [reflexivity|reflexivity|lia].
Qed.

Lemma bounded_set_phase (t : nat) (p : phase) (m : CameraManager) :
  bounded m -> bounded (set_phase t p m).
Proof. intros H. exact H. Qed.

Lemma thread_step_bounded (dev : Device) (t : nat) (m : CameraManager) :
  bounded m -> bounded (thread_step dev t m).
Proof.
  intros Hb. unfold thread_step.
  destruct (threads m !! t) as [th|]; [|exact Hb].
  destruct (t_phase th); try exact Hb.
  - destruct (cameras m !! t_cam th); [destruct (opens dev)|]; exact Hb.
  - destruct (stop_event m); exact Hb.
  - destruct (read dev) as [frame|]; [|exact Hb].
    destruct (frame_queues m !! t_cam th) as [q|] eqn:Hq; [|exact Hb].
    intros cam q' Hq'. unfold set_phase, set_queues in Hq'. simpl in Hq'.
    destruct (decide (t_cam th = cam)) as [<-|Hne].
    + rewrite lookup_insert_eq in Hq'. injection Hq' as <-.
      rewrite (put_latest_bounded frame q (Hb _ _ Hq)). simpl. lia.
    + rewrite lookup_insert_ne in Hq' by exact Hne. apply (Hb _ _ Hq').
Qed.

Lemma run_bounded (sched : list (nat * Device)) (m : CameraManager) :
  bounded m -> bounded (run sched m).
Proof.
  unfold run. revert m. induction sched as [|[t dev] sched IH]; intros m Hb;
    simpl; [exact Hb|].
  apply IH, thread_step_bounded, Hb.
Qed.

Lemma cleanup_bounded (sched : list (nat * Device)) (cam : Z) (m : CameraManager) :
  bounded m -> bounded (_cleanup_camera_thread sched cam m).
Proof.
  intros Hb. unfold _cleanup_camera_thread.
  destruct (capture_threads m !! cam); [|exact Hb].
  intros c q Hq. unfold set_queues in Hq. simpl in Hq.
  destruct (decide (cam = c)) as [<-|Hne].
  - rewrite lookup_delete_eq in Hq. discriminate Hq.
  - rewrite lookup_delete_ne in Hq by exact Hne.
    eapply (run_bounded sched); [|exact Hq]. exact Hb.
Qed.

Lemma start_camera_bounded (sched : list (nat * Device)) (cam : Z)
    (m : CameraManager) :
  bounded m -> bounded (fst (start_camera sched cam m)).
Proof.
  intros Hb. unfold start_camera.
  destruct (cameras m !! cam) as [cfg|]; [|exact Hb].
  destruct (enabled cfg); simpl; [|exact Hb].
  assert (Hb1 : bounded (match capture_threads m !! cam with
                         | Some _ => _cleanup_camera_thread sched cam m
                         | None => m end)).
  { destruct (capture_threads m !! cam); [apply cleanup_bounded|]; exact Hb. }
  intros c q Hq. simpl in Hq.
  destruct (decide (cam = c)) as [<-|Hne].
  - rewrite lookup_insert_eq in Hq. injection Hq as <-. simpl. lia.
  - rewrite lookup_insert_ne in Hq by exact Hne. apply (Hb1 _ _ Hq).
Qed.

(** A queue never holds more than one frame: from a manager of which this
    is true (as it is of one that has no queue yet), whatever the threads
    do and whatever is started, stopped or fetched, it stays true; so the
    ['frame_queue_size'] that [get_camera_status] reports is 0 or 1. *)
Theorem queues_hold_one_frame (m : CameraManager) :
  bounded m ->
  (forall sched, bounded (run sched m)) /\
  (forall sched cam, bounded (fst (start_camera sched cam m))) /\
  (forall sched cam, bounded (fst (stop_camera sched cam m))) /\
  (forall sched, bounded (stop_all_cameras sched m)) /\
  (forall cam, bounded (snd (get_frame cam m))) /\
  bounded (snd (get_all_frames m)) /\
  (forall cam st, get_camera_status cam m = Some st ->
     (st_frame_queue_size st <= 1)%nat).
Proof.
  intros Hb. split; [intros sched; apply run_bounded, Hb|].
  split; [intros sched cam; apply start_camera_bounded, Hb|].
  split.
  { intros sched cam. unfold stop_camera.
    destruct (capture_threads m !! cam) eqn:Ht; simpl; [|exact Hb].
    apply cleanup_bounded, Hb. }
  split.
  { intros sched c q Hq. unfold stop_all_cameras in Hq. simpl in Hq.
    rewrite lookup_empty in Hq. discriminate Hq. }
  split.
  { intros cam. unfold get_frame.
    destruct (frame_queues m !! cam) as [[|frame q]|] eqn:Hq; simpl; try exact Hb.
    intros c q' Hq'. simpl in Hq'.
    destruct (decide (cam = c)) as [<-|Hne].
    - rewrite lookup_insert_eq in Hq'. injection Hq' as <-.
      pose proof (Hb _ _ Hq) as Hl. simpl in Hl. lia.
    - rewrite lookup_insert_ne in Hq' by exact Hne. apply (Hb _ _ Hq'). }
  split.
  { intros c q Hq. unfold get_all_frames in Hq. simpl in Hq.
    rewrite lookup_fmap in Hq.
    destruct (frame_queues m !! c) as [q0|] eqn:Hq0; [|discriminate Hq].
    simpl in Hq. injection Hq as <-.
    pose proof (Hb _ _ Hq0) as Hl. destruct q0; simpl in *; lia. }
  intros cam st Hst. unfold get_camera_status in Hst.
  destruct (cameras m !! cam) as [cfg|]; [|discriminate Hst].
  injection Hst as <-. simpl.
  destruct (frame_queues m !! cam) as [q|] eqn:Hq; simpl; [|lia].
  apply (Hb _ _ Hq).
Qed.

(** The latest frame wins and is handed out once: when a capture thread
    has put a frame into the queue of its camera, [get_frame] returns that
    frame, whatever the queue held before, and a second [get_frame] returns
    nothing. *)
Theorem put_then_get_frame (dev : Device) (t : nat) (m : CameraManager)
    (th : Thread) (frame : Frame) :
  bounded m ->
  threads m !! t = Some th -> t_phase th = Reading ->
  read dev = Some frame -> is_Some (frame_queues m !! t_cam th) ->
  let m1 := thread_step dev t m in
  let r := get_frame (t_cam th) m1 in
  fst r = Some frame /\
  fst (get_frame (t_cam th) (snd r)) = None.
Proof.
  intros Hb Ht Hp Hr [q Hq]. unfold thread_step. rewrite Ht, Hp, Hr, Hq.
  unfold get_frame, set_phase, set_queues. simpl.
  rewrite lookup_insert_eq, (put_latest_bounded frame q (Hb _ _ Hq)). simpl.
  rewrite lookup_insert_eq. split; reflexivity.
Qed.

(** [get_all_frames] hands out for each camera what [get_frame] would,
    and empties the queues: fetching again right away gives no frame. *)
Theorem get_all_frames_drains (m : CameraManager) (cam : Z) :
  bounded m ->
  fst (get_all_frames m) !! cam = fst (get_frame cam m) /\
  fst (get_all_frames (snd (get_all_frames m))) = ∅.
Proof.
  intros Hb. split.
  - unfold get_all_frames, get_frame. simpl. rewrite lookup_omap.
    destruct (frame_queues m !! cam) as [[|f q]|]; reflexivity.
  - unfold get_all_frames. simpl. apply map_eq. intros c.
    rewrite lookup_omap, lookup_fmap, lookup_empty.
    destruct (frame_queues m !! c) as [q|] eqn:Hq; [|reflexivity].
    simpl. pose proof (Hb _ _ Hq) as Hl.
    destruct q as [|f [|g q]]; simpl in *; [reflexivity|reflexivity|lia].
Qed.

End Queues.

Section QueuesExamples.
Import CameraManager Examples.

Lemma manager0_bounded : bounded manager0.
Proof. intros c q Hq. simpl in Hq. rewrite lookup_empty in Hq. discriminate Hq. Qed.

Lemma both_running_bounded : bounded both_running.
Proof.
  unfold both_running. apply run_bounded.
  apply start_camera_bounded, start_camera_bounded, manager0_bounded.
Qed.

Lemma queues_hold_one_frame_witness :
  bounded (run [ (0%nat, device [3%N]); (0%nat, device [4%N]) ] both_running).
Proof.
  apply (proj1 (queues_hold_one_frame both_running both_running_bounded)).
Defined.

Lemma put_then_get_frame_witness :
  fst (get_frame 1 (thread_step (device [7%N]) 0 lobby_reading)) = Some [7%N].
Proof.
  apply (put_then_get_frame (device [7%N]) 0 lobby_reading
           {| t_cam := 1; t_phase := Reading |} [7%N]).
  - unfold lobby_reading. apply run_bounded, both_running_bounded.
  - vm_compute. reflexivity.
  - reflexivity.
  - reflexivity.
  - exists [[1%N]]. vm_compute. reflexivity.
Defined.

Lemma get_all_frames_drains_witness :
  fst (get_all_frames (snd (get_all_frames both_running))) = ∅.
Proof.
  apply (get_all_frames_drains both_running 1 both_running_bounded).
Defined.

End QueuesExamples.

(** ** What the capture threads do and do not do *)

Section Threads.
Import CameraManager.

(** Whatever the capture threads do, they leave the bookkeeping of the
    manager alone: the configuration, the table of threads and the stop
    signal are as before, no thread appears or changes camera, and a thread
    that has exited stays so. *)
Theorem capture_threads_leave_bookkeeping (sched : list (nat * Device))
    (m : CameraManager) :
  let m' := run sched m in
  cameras m' = cameras m /\ capture_threads m' = capture_threads m /\
  stop_event m' = stop_event m /\
  length (threads m') = length (threads m) /\
  (forall t, is_alive t m = false -> is_alive t m' = false) /\
  (forall t th', threads m' !! t = Some th' ->
     exists th, threads m !! t = Some th /\ t_cam th' = t_cam th).
Proof.
  destruct (run_frame sched m) as (Hc & Hct & Hs & Hlen & Hev).
  split; [exact Hc|]. split; [exact Hct|]. split; [exact Hs|].
  split; [exact Hlen|]. split.
  - intros t. unfold is_alive.
    destruct (threads m !! t) as [th|] eqn:Ht.
    + destruct (Hev t th Ht) as (th' & -> & _ & Hex).
      destruct (t_phase th); try discriminate. rewrite Hex; reflexivity.
    + intros _. rewrite (proj2 (lookup_ge_None _ _)); [reflexivity|].
      rewrite Hlen. apply lookup_ge_None. exact Ht.
  - intros t th' Ht'.
    assert (Hlt : (t < length (threads m))%nat).
    { rewrite <- Hlen. apply lookup_lt_is_Some. eauto. }
    apply lookup_lt_is_Some in Hlt as [th Hth].
    destruct (Hev t th Hth) as (th2 & Hth2 & Hcam & _).
    exists th. split; [exact Hth|]. congruence.
Qed.

Lemma thread_step_self (dev : Device) (t : nat) (m : CameraManager) (th : Thread) :
  stop_event m = true -> threads m !! t = Some th ->
  exists th', threads (thread_step dev t m) !! t = Some th' /\
              (steps_to_exit (t_phase th') <= pred (steps_to_exit (t_phase th)))%nat.
Proof.
  intros Hs Ht. unfold thread_step. rewrite Ht, Hs.
  assert (Hset : forall p m0, threads m0 = threads m ->
            threads (set_phase t p m0) !! t = Some {| t_cam := t_cam th; t_phase := p |}).
  { intros p m0 Hm0. unfold set_phase. simpl.
    rewrite Hm0, list_lookup_alter_eq, Ht. reflexivity. }
  destruct (t_phase th) eqn:Hp.
  - destruct (cameras m !! t_cam th); [destruct (opens dev)|];
      (eexists; split; [apply Hset; reflexivity|simpl; lia]).
  - eexists; split; [apply Hset; reflexivity|simpl; lia].
  - destruct (read dev); [destruct (frame_queues m !! t_cam th)|];
      (eexists; split; [apply Hset; reflexivity|simpl; lia]).
  - exists th. split; [exact Ht|rewrite Hp; simpl; lia].
Qed.

Lemma thread_step_other (dev : Device) (t t' : nat) (m : CameraManager) :
  t' <> t -> threads (thread_step dev t' m) !! t = threads m !! t.
Proof.
  intros Hne. unfold thread_step.
  assert (Hset : forall p m0, threads m0 = threads m ->
            threads (set_phase t' p m0) !! t = threads m !! t).
  { intros p m0 Hm0. unfold set_phase. simpl.
    rewrite Hm0. apply list_lookup_alter_ne. exact Hne. }
  destruct (threads m !! t') as [th|]; [|reflexivity].
  destruct (t_phase th); try reflexivity.
  - destruct (cameras m !! t_cam th); [destruct (opens dev)|]; apply Hset; reflexivity.
  - destruct (stop_event m); apply Hset; reflexivity.
  - destruct (read dev); [destruct (frame_queues m !! t_cam th)|];
      apply Hset; reflexivity.
Qed.

Lemma run_towards_exit (sched : list (nat * Device)) (t : nat) :
  forall (m : CameraManager) (th : Thread),
    stop_event m = true -> threads m !! t = Some th ->
    exists th', threads (run sched m) !! t = Some th' /\
                (steps_to_exit (t_phase th')
                 <= steps_to_exit (t_phase th) - steps_of t sched)%nat.
Proof.
  unfold run, steps_of.
  induction sched as [|[t' dev] sched IH]; intros m th Hs Ht; simpl.
  - exists th. split; [exact Ht|lia].
  - destruct (thread_step_frame dev t' m) as (_ & _ & Hs' & _).
    rewrite Hs in Hs'.
    rewrite filter_cons. simpl. destruct (decide (t' = t)) as [->|Hne].
    + destruct (thread_step_self dev t m th Hs Ht) as (th1 & Ht1 & Hd1).
      destruct (IH _ th1 Hs' Ht1) as (th' & Ht' & Hd').
      exists th'. split; [exact Ht'|]. simpl. lia.
    + rewrite <- (thread_step_other dev t t' m Hne) in Ht.
      destruct (IH _ th Hs' Ht) as (th' & Ht' & Hd').
      exists th'. split; [exact Ht'|exact Hd'].
Qed.

(** Cancellation is cooperative and prompt: once the stop signal is set,
    a capture thread is out of its loop after at most two steps of its own
    (the read it is in returns, the loop test fails), whatever the other
    threads do meanwhile and whatever the device answers. *)
Theorem stop_signal_ends_thread (sched : list (nat * Device)) (t : nat)
    (m : CameraManager) :
  stop_event m = true -> (2 <= steps_of t sched)%nat ->
  is_alive t (run sched m) = false.
Proof.
  intros Hs Hsteps. unfold is_alive.
  destruct (threads m !! t) as [th|] eqn:Ht.
  - destruct (run_towards_exit sched t m th Hs Ht) as (th' & -> & Hd).
    destruct (t_phase th'), (t_phase th); simpl in Hd; try reflexivity; lia.
  - destruct (run_frame sched m) as (_ & _ & _ & Hlen & _).
    rewrite (proj2 (lookup_ge_None _ _)); [reflexivity|].
    rewrite Hlen. apply lookup_ge_None. exact Ht.
Qed.

End Threads.

Section ThreadsExamples.
Import CameraManager Examples.

Lemma stop_signal_ends_thread_witness :
  is_alive 1
    (run [ (1%nat, device [5%N]); (0%nat, device [6%N]); (1%nat, device [5%N]) ]
       (fst (stop_camera [] 1 lobby_reading))) = false.
Proof.
  apply stop_signal_ends_thread.
  - vm_compute. reflexivity.
  - vm_compute. lia.
Defined.

End ThreadsExamples.

(** ** Stopping and starting all cameras *)

Section StartAll.
Import CameraManager.

Variable scheds : Z -> list (nat * Device).

Lemma start_all_cameras_fold (order : list Z) (m : CameraManager) :
  start_all_cameras scheds order m =
    foldl (start_if_enabled scheds)
      {| cameras := cameras m; capture_threads := capture_threads m;
         stop_event := false; frame_queues := frame_queues m;
         threads := threads m |} order.
Proof. reflexivity. Qed.

Lemma is_enabled_dec (id : Z) (m : CameraManager) :
  is_enabled id m \/ ~ is_enabled id m.
Proof.
  unfold is_enabled. destruct (cameras m !! id) as [cfg|].
  - destruct (enabled cfg) eqn:He; [left; eauto|].
    right. intros (cfg' & [= <-] & H). congruence.
  - right. intros (cfg' & H & _). discriminate H.
Qed.

(** The loop, from a manager in which none of the cameras still to come
    is running. *)
Lemma start_loop (order : list Z) : forall m : CameraManager,
  NoDup order -> stop_event m = false ->
  (forall id, id ∈ order -> capture_threads m !! id = None) ->
  let m' := foldl (start_if_enabled scheds) m order in
  cameras m' = cameras m /\ stop_event m' = false /\
  (exists new, threads m' = threads m ++ new) /\
  (forall id, id ∉ order ->
     capture_threads m' !! id = capture_threads m !! id /\
     frame_queues m' !! id = frame_queues m !! id) /\
  (forall id, id ∈ order ->
     (is_enabled id m ->
        exists t, capture_threads m' !! id = Some t /\
                  threads m' !! t = Some {| t_cam := id; t_phase := Opening |} /\
                  frame_queues m' !! id = Some []) /\
     (~ is_enabled id m -> capture_threads m' !! id = None)).
Proof.
  induction order as [|c order IH]; intros m Hnd Hs Hfree; simpl.
  - split; [reflexivity|]. split; [exact Hs|].
    split; [exists []; rewrite app_nil_r; reflexivity|].
    split; [auto|]. intros id Hin. inversion Hin.
  - apply NoDup_cons in Hnd as [Hc Hnd].
    set (m1 := start_if_enabled scheds m c).
    assert (Hm1 : cameras m1 = cameras m /\ stop_event m1 = false /\
              (exists new, threads m1 = threads m ++ new) /\
              (forall id, id <> c ->
                 capture_threads m1 !! id = capture_threads m !! id /\
                 frame_queues m1 !! id = frame_queues m !! id) /\
              (is_enabled c m ->
                 capture_threads m1 !! c = Some (length (threads m)) /\
                 threads m1 !! length (threads m) =
                   Some {| t_cam := c; t_phase := Opening |} /\
                 frame_queues m1 !! c = Some []) /\
              (~ is_enabled c m -> capture_threads m1 !! c = None)).
    { unfold m1, start_if_enabled, is_enabled.
      assert (Hnone : capture_threads m !! c = None)
        by (apply Hfree, list_elem_of_here).
      destruct (cameras m !! c) as [cfg|] eqn:Hcfg.
      - destruct (enabled cfg) eqn:Hen.
        + rewrite (start_camera_fresh (scheds c) c m cfg Hcfg Hen Hnone). simpl.
          split; [reflexivity|]. split; [reflexivity|].
          split; [eexists; reflexivity|].
          split; [intros id Hne; rewrite !lookup_insert_ne by congruence; auto|].
          split; [|intros H; exfalso; apply H; eauto].
          intros _. rewrite !lookup_insert_eq.
          split; [reflexivity|]. split; [|reflexivity].
          apply list_lookup_middle. reflexivity.
        + split; [reflexivity|]. split; [exact Hs|].
          split; [exists []; rewrite app_nil_r; reflexivity|].
          split; [auto|]. split; [intros (cfg' & [= <-] & H); congruence|auto].
      - split; [reflexivity|]. split; [exact Hs|].
        split; [exists []; rewrite app_nil_r; reflexivity|].
        split; [auto|]. split; [intros (cfg' & H & _); discriminate H|auto]. }
    destruct Hm1 as (Hcam1 & Hs1 & [new1 Hth1] & Hoth1 & Hen1 & Hdis1).
    assert (Hfree1 : forall id, id ∈ order -> capture_threads m1 !! id = None).
    { intros id Hin. destruct (Hoth1 id) as [-> _]; [intros ->; contradiction|].
      apply Hfree, list_elem_of_further, Hin. }
    destruct (IH m1 Hnd Hs1 Hfree1) as (Hcam & Hs' & [new Hth] & Hout & Hin).
    assert (Hen_same : forall id, is_enabled id m1 <-> is_enabled id m).
    { intros id. unfold is_enabled. rewrite Hcam1. reflexivity. }
    split; [congruence|]. split; [exact Hs'|].
    split; [exists (new1 ++ new); rewrite Hth, Hth1, <- app_assoc; reflexivity|].
    split.
    + intros id Hnot. apply not_elem_of_cons in Hnot as [Hne Hnot].
      destruct (Hout id Hnot) as [-> ->]. apply Hoth1, Hne.
    + intros id Hid. apply elem_of_cons in Hid as [->|Hid].
      * destruct (Hout c Hc) as [Hct Hq]. split.
        -- intros He. destruct (Hen1 He) as (H1 & H2 & H3).
           exists (length (threads m)). rewrite Hct, Hq.
           split; [exact H1|]. split; [|exact H3].
           rewrite Hth. apply lookup_app_l_Some. exact H2.
        -- intros He. rewrite Hct. apply Hdis1, He.
      * destruct (Hin id Hid) as [Hyes Hno]. split.
        -- intros He. apply Hyes, Hen_same, He.
        -- intros He. apply Hno. rewrite Hen_same. exact He.
Qed.

(** After [stop_all_cameras] nothing is registered and the stop signal is
    set; a [start_all_cameras] after it clears the signal and leaves running
    exactly the cameras that are configured and enabled, each with a new
    thread of its own and an empty queue. *)
Theorem stop_all_then_start_all (sched : list (nat * Device)) (order : list Z)
    (m : CameraManager) :
  NoDup order ->
  (forall id, id ∈ order <-> is_Some (cameras m !! id)) ->
  let stopped := stop_all_cameras sched m in
  let m' := start_all_cameras scheds order stopped in
  (capture_threads stopped = ∅ /\ frame_queues stopped = ∅ /\
   stop_event stopped = true) /\
  stop_event m' = false /\
  (forall id, running id m' = true <-> is_enabled id m) /\
  (forall id t, capture_threads m' !! id = Some t ->
     threads m' !! t = Some {| t_cam := id; t_phase := Opening |} /\
     frame_queues m' !! id = Some []).
Proof.
  intros Hnd Horder stopped m'.
  destruct (run_frame sched
              {| cameras := cameras m; capture_threads := capture_threads m;
                 stop_event := true; frame_queues := frame_queues m;
                 threads := threads m |}) as (Hc & _ & Hs & _).
  assert (Hcam : cameras stopped = cameras m) by exact Hc.
  split; [split; [reflexivity|split; [reflexivity|exact Hs]]|].
  set (m0 := {| cameras := cameras stopped; capture_threads := capture_threads stopped;
                stop_event := false; frame_queues := frame_queues stopped;
                threads := threads stopped |}).
  destruct (start_loop order m0 Hnd eq_refl) as (Hcam' & Hs' & _ & Hout & Hin).
  { intros id _. apply lookup_empty. }
  assert (Hm' : m' = foldl (start_if_enabled scheds) m0 order) by reflexivity.
  clearbody m'. subst m'. cbv zeta in Hcam', Hs', Hout, Hin.
  assert (Hen : forall id, is_enabled id m0 <-> is_enabled id m).
  { intros id. unfold is_enabled. change (cameras m0) with (cameras stopped).
    rewrite Hcam. reflexivity. }
  split; [exact Hs'|]. split.
  - intros id. unfold running. rewrite bool_decide_eq_true. split.
    + intros [t Ht]. destruct (decide (id ∈ order)) as [Hid|Hid].
      * destruct (Hin id Hid) as [_ Hno].
        destruct (is_enabled_dec id m0) as [He|He]; [apply Hen, He|].
        rewrite (Hno He) in Ht. discriminate Ht.
      * destruct (Hout id Hid) as [Hct _]. rewrite Hct in Ht. simpl in Ht.
        rewrite lookup_empty in Ht. discriminate Ht.
    + intros He. assert (Hid : id ∈ order).
      { apply Horder. destruct He as (cfg & -> & _). eauto. }
      destruct (Hin id Hid) as [Hyes _].
      destruct (Hyes (proj2 (Hen id) He)) as (t & -> & _). eauto.
  - intros id t Ht. destruct (decide (id ∈ order)) as [Hid|Hid].
    + destruct (Hin id Hid) as [Hyes Hno].
      destruct (is_enabled_dec id m0) as [He|He].
      * destruct (Hyes He) as (t' & Ht' & Hth & Hq).
        rewrite Ht' in Ht. injection Ht as <-. auto.
      * rewrite (Hno He) in Ht. discriminate Ht.
    + destruct (Hout id Hid) as [Hct _]. rewrite Hct in Ht. simpl in Ht.
      rewrite lookup_empty in Ht. discriminate Ht.
Qed.

End StartAll.

Section StartAllExamples.
Import CameraManager Examples.

Lemma both_running_cameras (id : Z) :
  id ∈ [1; 2] <-> is_Some (cameras both_running !! id).
Proof.
  assert (Hc : cameras both_running = {[ 1 := lobby; 2 := yard ]})
    by (vm_compute; reflexivity).
  rewrite Hc. split.
  - intros Hin. apply elem_of_cons in Hin as [->|Hin]; [eexists; reflexivity|].
    apply list_elem_of_singleton in Hin as ->. eexists; reflexivity.
  - intros [cfg Hcfg].
    destruct (decide (id = 1)) as [->|H1]; [apply list_elem_of_here|].
    destruct (decide (id = 2)) as [->|H2];
      [apply list_elem_of_further, list_elem_of_here|].
    rewrite lookup_insert_ne in Hcfg by congruence.
    rewrite lookup_singleton_ne in Hcfg by congruence. discriminate Hcfg.
Qed.

Lemma stop_all_then_start_all_witness :
  running 2 (start_all_cameras (fun _ => []) [1; 2]
               (stop_all_cameras [] both_running)) = true.
Proof.
  destruct (stop_all_then_start_all (fun _ => []) [] [1; 2] both_running)
    as (_ & _ & Hrun & _).
  - apply NoDup_cons. split; [|apply NoDup_singleton].
    intros H. apply list_elem_of_singleton in H. discriminate H.
  - exact both_running_cameras.
  - apply Hrun. exists yard. split; [vm_compute; reflexivity|reflexivity].
Defined.

End StartAllExamples.

(** ** The log of face events *)

Section Log.
Import AlertSystem Database.

(** The ids of the log are never given twice: from a table whose ids are
    distinct and at most [last_id], [log_face_event] returns an id that no
    row has yet, stores the row of the event under it as the last row, and
    leaves the rows that were there as they were. *)
Theorem log_face_event_fresh_id (event : AlertEvent) (db db' : FaceDatabase)
    (i : Z) :
  ids_ok db ->
  log_face_event true event db = Some (db', i) ->
  (i ∉ map fst (face_logs db)) /\
  face_logs db' = face_logs db ++ [(i, row_of_event event)] /\
  last_id db' = i /\
  ids_ok db'.
Proof.
  intros (H0 & Hnd & Hall) [= <- <-]. simpl.
  assert (Hfresh : last_id db + 1 ∉ map fst (face_logs db)).
  { intros Hin. apply list_elem_of_fmap in Hin as (e & He & Hin).
    rewrite Forall_forall in Hall. specialize (Hall e Hin). lia. }
  split; [exact Hfresh|]. split; [reflexivity|]. split; [reflexivity|].
  split; [simpl; lia|]. split; simpl.
  - rewrite map_app. simpl. apply NoDup_app. split; [exact Hnd|].
    split; [|apply NoDup_singleton].
    intros x Hx Hx'. apply list_elem_of_singleton in Hx'. subst x. contradiction.
  - apply Forall_app. split.
    + eapply Forall_impl; [exact Hall|]. simpl. intros e He. lia.
    + constructor; [|constructor]. simpl. lia.
Qed.

Lemma insert_row_perm (x : Z * Row) (l : list (Z * Row)) :
  insert_row x l ≡ₚ x :: l.
Proof.
  induction l as [|y l IH]; simpl; [reflexivity|].
  destruct (Qltb _ _); [|reflexivity]. rewrite IH. apply Permutation_swap.
Qed.

Lemma order_by_perm (l : list (Z * Row)) : order_by_timestamp_desc l ≡ₚ l.
Proof.
  induction l as [|x l IH]; simpl; [reflexivity|].
  rewrite insert_row_perm, IH. reflexivity.
Qed.

Lemma insert_row_descending (x : Z * Row) (l : list (Z * Row)) :
  rows_descending l -> rows_descending (insert_row x l).
Proof.
  induction l as [|y l IH]; simpl; [auto|].
  intros [Hy Hl].
  destruct (Qltb (r_timestamp (snd x)) (r_timestamp (snd y))) eqn:Hlt; simpl.
  - apply Qltb_true in Hlt. split; [|apply IH; exact Hl].
    rewrite insert_row_perm. constructor; [apply Qlt_le_weak; exact Hlt|exact Hy].
  - apply Qltb_false in Hlt. split; [|split; assumption].
    constructor; [exact Hlt|].
    eapply Forall_impl; [exact Hy|]. simpl. intros b Hb.
    eapply Qle_trans; eassumption.
Qed.

Lemma order_by_descending (l : list (Z * Row)) :
  rows_descending (order_by_timestamp_desc l).
Proof.
  induction l as [|x l IH]; simpl; [exact I|].
  apply insert_row_descending, IH.
Qed.

Lemma rows_descending_take (n : nat) (l : list (Z * Row)) :
  rows_descending l -> rows_descending (take n l).
Proof.
  revert n. induction l as [|a l IH]; intros [|n]; simpl; auto.
  intros [Ha Hl]. split; [|apply IH; exact Hl].
  apply Forall_take. exact Ha.
Qed.

Lemma matches_passes (q : Query) (row : Row) :
  matches q row = true <-> passes q row.
Proof.
  unfold matches, passes. rewrite !andb_true_iff.
  destruct (q_camera_id q) as [c|], (q_face_name q) as [n|],
    (q_start_time q) as [t1|], (q_end_time q) as [t2|];
    rewrite ?Z.eqb_eq, ?String.eqb_eq, ?Qle_bool_iff;
    (split;
     [intros (((H1 & H2) & H3) & H4);
      repeat split; intros ? [= <-] || (intros ? [=]); assumption
     |intros (H1 & H2 & H3 & H4); repeat split; eauto]).
Qed.

(** What [get_face_logs] returns: rows of the table, none twice, each
    passing every filter that is given, later ones first, and no more than
    the limit; when the limit is negative or not below the number of rows,
    every row that passes the filters is returned. When sqlite raises, the
    empty list is returned. *)
Theorem get_face_logs_result (sqlite_ok : bool) (q : Query) (db : FaceDatabase) :
  let res := get_face_logs sqlite_ok q db in
  res ⊆+ face_logs db /\
  (forall e, e ∈ res -> passes q (snd e)) /\
  rows_descending res /\
  (0 <= q_limit q -> (length res <= Z.to_nat (q_limit q))%nat) /\
  (sqlite_ok = true ->
   q_limit q < 0 \/ Z.of_nat (length (face_logs db)) <= q_limit q ->
   forall e, e ∈ res <-> e ∈ face_logs db /\ passes q (snd e)) /\
  (sqlite_ok = false -> res = []).
Proof.
  unfold get_face_logs. destruct sqlite_ok; simpl.
  2:{ split; [apply submseteq_nil_l|]. split; [intros e H; inversion H|].
      split; [exact I|]. split; [lia|]. split; [discriminate|reflexivity]. }
  set (sel := filter (fun e => matches q (snd e) = true) (face_logs db)).
  assert (Hsub : forall l, l ⊆+ order_by_timestamp_desc sel -> l ⊆+ face_logs db).
  { intros l Hl. rewrite order_by_perm in Hl. etransitivity; [exact Hl|].
    apply sublist_submseteq, sublist_filter. }
  assert (Hpass : forall e, e ∈ order_by_timestamp_desc sel -> passes q (snd e)).
  { intros e He. rewrite order_by_perm in He. apply list_elem_of_filter in He as [He _].
    apply matches_passes. exact He. }
  unfold sql_limit. destruct (Z.ltb_spec (q_limit q) 0) as [Hneg|Hpos].
  - split; [apply Hsub; reflexivity|]. split; [exact Hpass|].
    split; [apply order_by_descending|]. split; [lia|].
    split; [|discriminate].
    intros _ _ e. rewrite order_by_perm. unfold sel.
    rewrite list_elem_of_filter, matches_passes. tauto.
  - split; [apply Hsub, sublist_submseteq, sublist_take|].
    split; [intros e He; apply Hpass;
            apply (elem_of_sublist _ _ _ He), sublist_take|].
    split; [apply rows_descending_take, order_by_descending|].
    split; [intros _; rewrite length_take; lia|].
    split; [|discriminate].
    intros _ [Hn|Hbig] e; [lia|].
    rewrite take_ge.
    + rewrite order_by_perm. unfold sel.
      rewrite list_elem_of_filter, matches_passes. tauto.
    + rewrite (Permutation_length (order_by_perm sel)).
      pose proof (length_filter (fun e => matches q (snd e) = true) (face_logs db)).
      unfold sel. lia.
Qed.

(** An event that has been logged is found again: a query whose filters
    the row of the event passes, with no limit or one above the number of
    rows, returns the row under the id [log_face_event] gave. *)
Theorem log_then_get_face_logs (event : AlertEvent) (q : Query)
    (db db' : FaceDatabase) (i : Z) :
  log_face_event true event db = Some (db', i) ->
  passes q (row_of_event event) ->
  q_limit q < 0 \/ Z.of_nat (length (face_logs db)) < q_limit q ->
  (i, row_of_event event) ∈ get_face_logs true q db'.
Proof.
  intros [= <- <-] Hpass Hlimit.
  unfold get_face_logs, sql_limit. simpl.
  assert (Hin : (last_id db + 1, row_of_event event) ∈
            order_by_timestamp_desc
              (filter (fun e => matches q (snd e) = true)
                 (face_logs db ++ [(last_id db + 1, row_of_event event)]))).
  { rewrite order_by_perm, list_elem_of_filter. split.
    - apply matches_passes. exact Hpass.
    - apply elem_of_app. right. apply list_elem_of_here. }
  destruct (Z.ltb_spec (q_limit q) 0) as [Hneg|Hpos]; [exact Hin|].
  rewrite take_ge; [exact Hin|].
  rewrite (Permutation_length (order_by_perm _)).
  pose proof (length_filter (fun e => matches q (snd e) = true)
                (face_logs db ++ [(last_id db + 1, row_of_event event)])) as Hl.
  rewrite length_app in Hl. simpl in Hl. lia.
Qed.

End Log.

Section LogExamples.
Import AlertSystem Database Examples.

Lemma empty_log_ok : ids_ok empty_log.
Proof. split; [simpl; lia|]. split; constructor. Qed.

Lemma log_face_event_fresh_id_witness :
  exists db', log_face_event true newborn empty_log = Some (db', 1) /\ ids_ok db'.
Proof.
  eexists. split; [reflexivity|].
  eapply (log_face_event_fresh_id newborn empty_log _ 1 empty_log_ok eq_refl).
Defined.

Lemma get_face_logs_result_witness :
  (length (get_face_logs true latest_hundred
             {| face_logs := [(1%Z, row_of_event newborn)]; last_id := 1%Z |}) <= 100)%nat.
Proof.
  destruct (get_face_logs_result true latest_hundred
              {| face_logs := [(1, row_of_event newborn)]; last_id := 1 |})
    as (_ & _ & _ & Hlen & _).
  apply Hlen. simpl. lia.
Defined.

Lemma log_then_get_face_logs_witness :
  (1, row_of_event newborn) ∈
    get_face_logs true latest_hundred
      {| face_logs := [(1, row_of_event newborn)]; last_id := 1 |}.
Proof.
  apply (log_then_get_face_logs newborn latest_hundred empty_log _ 1 eq_refl).
  - repeat split; intros ? H; discriminate H.
  - right. simpl. lia.
Defined.

End LogExamples.

(** ** The table of known faces *)

Section KnownTable.
Import Database.

Lemma known_names_filter (name : string) (rows : list (Z * KnownRow)) :
  map (fun e => k_name (snd e)) (filter (fun e => k_name (snd e) <> name) rows) =
    filter (fun n => n <> name) (map (fun e => k_name (snd e)) rows).
Proof.
  induction rows as [|e rows IH]; [reflexivity|].
  simpl. rewrite !filter_cons. simpl.
  destruct (decide (k_name (snd e) <> name)); simpl; rewrite IH; reflexivity.
Qed.

(** The names of the table stay distinct, whatever is added or deleted:
    the [UNIQUE] column is never violated. *)
Theorem known_table_names_unique (sqlite_ok : bool) (name : string)
    (embedding : list Byte.byte) (image_path : string) (now : Q) (t : KnownTable) :
  NoDup (known_names t) ->
  NoDup (known_names (fst (add_known_face sqlite_ok name embedding image_path now t))) /\
  NoDup (known_names (fst (delete_known_face sqlite_ok name t))).
Proof.
  intros Hnd. split.
  - unfold add_known_face. destruct sqlite_ok; simpl; [|exact Hnd].
    destruct (bool_decide (name ∈ known_names t)) eqn:Hin; simpl; [exact Hnd|].
    apply bool_decide_eq_false in Hin.
    unfold known_names. simpl. rewrite map_app. simpl.
    apply NoDup_app. split; [exact Hnd|]. split; [|apply NoDup_singleton].
    intros x Hx Hx'. apply list_elem_of_singleton in Hx'. subst x. contradiction.
  - unfold delete_known_face. destruct sqlite_ok; simpl; [|exact Hnd].
    unfold known_names. simpl. rewrite known_names_filter.
    apply NoDup_filter. exact Hnd.
Qed.

(** [add_known_face] succeeds exactly for a name that is not in the table
    yet; the face is then what [get_known_faces] returns last, and a second
    [add_known_face] under that name is refused and changes nothing. *)
Theorem add_known_face_once (name : string) (embedding embedding' : list Byte.byte)
    (image_path image_path' : string) (now now' : Q) (t : KnownTable) :
  let r := add_known_face true name embedding image_path now t in
  (snd r = true <-> name ∉ known_names t) /\
  (snd r = false -> fst r = t) /\
  (snd r = true ->
     get_known_faces true (fst r) =
       get_known_faces true t ++ [(name, embedding, image_path)] /\
     add_known_face true name embedding' image_path' now' (fst r) = (fst r, false)).
Proof.
  unfold add_known_face. simpl.
  destruct (bool_decide (name ∈ known_names t)) eqn:Hin; simpl.
  - apply bool_decide_eq_true in Hin.
    split; [split; [discriminate|intros H; contradiction]|].
    split; [reflexivity|discriminate].
  - apply bool_decide_eq_false in Hin.
    split; [split; [intros _; exact Hin|reflexivity]|].
    split; [discriminate|]. intros _. split.
    + unfold get_known_faces. simpl. rewrite map_app. reflexivity.
    + assert (Hnow : bool_decide
                (name ∈ known_names
                   {| known_rows := known_rows t ++
                        [(known_last_id t + 1,
                          {| k_name := name; k_embedding := embedding;
                             k_image_path := image_path; k_created_at := now |})];
                      known_last_id := known_last_id t + 1 |}) = true).
      { apply bool_decide_eq_true. unfold known_names. simpl. rewrite map_app.
        apply elem_of_app. right. apply list_elem_of_here. }
      rewrite Hnow. reflexivity.
Qed.

(** [delete_known_face] returns [True] exactly when the name was in the
    table; afterwards the name is gone, the other faces are as they were,
    and the name can be given again. *)
Theorem delete_known_face_frees_name (name : string) (embedding : list Byte.byte)
    (image_path : string) (now : Q) (t : KnownTable) :
  let r := delete_known_face true name t in
  (snd r = true <-> name ∈ known_names t) /\
  (name ∉ known_names (fst r)) /\
  (forall face, face ∈ get_known_faces true (fst r) <->
     face ∈ get_known_faces true t /\ fst (fst face) <> name) /\
  snd (add_known_face true name embedding image_path now (fst r)) = true.
Proof.
  unfold delete_known_face. simpl.
  assert (Hgone : name ∉ known_names
            {| known_rows := filter (fun e => k_name (snd e) <> name) (known_rows t);
               known_last_id := known_last_id t |}).
  { unfold known_names. simpl. rewrite known_names_filter.
    intros Hin. apply list_elem_of_filter in Hin as [Hne _]. contradiction. }
  split; [apply bool_decide_eq_true|]. split; [exact Hgone|]. split.
  - intros face. unfold get_known_faces. simpl. rewrite !list_elem_of_fmap. split.
    + intros (e & -> & He). apply list_elem_of_filter in He as [Hne He].
      split; [eauto|exact Hne].
    + intros [(e & -> & He) Hne]. exists e. split; [reflexivity|].
      apply list_elem_of_filter. auto.
  - unfold add_known_face. simpl.
    apply (bool_decide_eq_false_2 _) in Hgone. rewrite Hgone. reflexivity.
Qed.

End KnownTable.

Section KnownTableExamples.
Import Database Examples.

Lemma known_table_names_unique_witness :
  NoDup (known_names (fst (add_known_face true "Alice" [] "known_faces/Alice.jpg"
                             1000%Q empty_table))).
Proof.
  apply (known_table_names_unique true "Alice" [] "known_faces/Alice.jpg" 1000%Q
           empty_table).
  constructor.
Defined.

Lemma add_known_face_once_witness :
  add_known_face true "Alice" [] "known_faces/Alice2.jpg" 1005%Q
    (fst (add_known_face true "Alice" [] "known_faces/Alice.jpg" 1000%Q empty_table)) =
  (fst (add_known_face true "Alice" [] "known_faces/Alice.jpg" 1000%Q empty_table),
   false).
Proof.
  destruct (add_known_face_once "Alice" [] [] "known_faces/Alice.jpg"
              "known_faces/Alice2.jpg" 1000%Q 1005%Q empty_table)
    as (_ & _ & Hadded).
  destruct (Hadded eq_refl) as [_ Hsecond]. exact Hsecond.
Defined.

Lemma delete_known_face_frees_name_witness :
  snd (delete_known_face true "Alice"
         (fst (add_known_face true "Alice" [] "known_faces/Alice.jpg" 1000%Q
                 empty_table))) = true.
Proof.
  destruct (delete_known_face_frees_name "Alice" [] "known_faces/Alice.jpg" 1000%Q
              (fst (add_known_face true "Alice" [] "known_faces/Alice.jpg" 1000%Q
                      empty_table)))
    as ([_ Hfound] & _).
  apply Hfound. vm_compute. apply list_elem_of_here.
Defined.

End KnownTableExamples.
